(** * Verification of the graph library: depth-first search engine,
      parallel-arc detection, spanning forests and connectivity algorithms.

    The development follows the Go sources: [graph.go] (node ids, adjacency
    lists, [HasParallelSort]) and [df/df.go] (the configurable depth-first
    [Search]).  Algorithms whose implementation is not part of the sources
    at hand (Kruskal, Tarjan, topological sort) are modelled from the
    specification and marked as such. *)

From Stdlib Require Import String.
From Stdlib Require Import ZArith List Lia Bool Arith Permutation QArith.
From Stdlib Require Import Sorting.Sorted.
Import ListNotations.

Set Implicit Arguments.

(* ================================================================== *)
(** * Shared data model (graph.go) *)
(* ================================================================== *)

(** [type NI int32]: a node number.  Values are mathematical integers; the
    conversion from Go's [int] wraps around. *)
Abbreviation NI := Z (only parsing).

Definition NI_of_int (n : Z) : NI :=
  ((n + 2147483648) mod 4294967296 - 2147483648)%Z.

(** [type LI int]: an arc label. *)
Abbreviation LI := Z (only parsing).

(** [type NodeList []NI] *)
Abbreviation NodeList := (list Z) (only parsing).

(** [type AdjacencyList [][]NI] *)
Abbreviation AdjacencyList := (list (list Z)) (only parsing).

(** [type Half struct { To NI; Label LI }] *)
Record Half := mkHalf { To : NI; Label : LI }.

(** [type LabeledAdjacencyList [][]Half] *)
Abbreviation LabeledAdjacencyList := (list (list Half)) (only parsing).

(* ================================================================== *)
(** * graph.go: HasParallelSort *)
(* ================================================================== *)

Module Graph.

Local Open Scope Z_scope.

(** [NodeList.Less]: [l[i] < l[j]]. *)
Definition Less (a b : NI) : bool := a <? b.

(** [sort.Sort(t)] with the [NodeList] ordering.  The library routine is
    only specified to leave [t] in ascending order; on integers that result
    is unique (see [sort_Sort_unique]), so insertion is as good a model as
    any. *)
Fixpoint sort_insert (x : NI) (t : NodeList) : NodeList :=
  match t with
  | [] => [x]
  | y :: t' => if Less y x then y :: sort_insert x t' else x :: t
  end.

Fixpoint sort_Sort (t : NodeList) : NodeList :=
  match t with
  | [] => []
  | x :: t' => sort_insert x (sort_Sort t')
  end.

(** The inner loop: [t0] is the previous element, the list is [t[1:]]. *)
Fixpoint scan (t0 : NI) (rest : NodeList) : option NI :=
  match rest with
  | [] => None
  | to :: rest' => if to =? t0 then Some t0 else scan to rest'
  end.

(** The outer loop, [n] being the index of the first slot of [g]. *)
Fixpoint HasParallelSort_from (n : nat) (g : AdjacencyList) : NI * NI :=
  match g with
  | [] => (-1, -1)
  | to :: g' =>
      match to with
      | [] => HasParallelSort_from (S n) g'          (* continue *)
      | _ :: _ =>
          match sort_Sort to with
          | [] => HasParallelSort_from (S n) g'
          | t0 :: rest =>
              match scan t0 rest with
              | Some d => (NI_of_int (Z.of_nat n), d)
              | None => HasParallelSort_from (S n) g'
              end
          end
      end
  end.

Definition HasParallelSort (g : AdjacencyList) : NI * NI :=
  HasParallelSort_from 0 g.

(** A node has parallel arcs when some target occurs twice in its slot. *)
Definition occurrences (to : NI) (l : NodeList) : nat :=
  count_occ Z.eq_dec l to.

Definition no_parallel (g : AdjacencyList) : Prop :=
  forall to, In to g -> NoDup to.

Example HasParallelSort_ex1 : HasParallelSort [[]; [0]] = (-1, -1).
Proof. reflexivity. Qed.

Example HasParallelSort_ex2 : HasParallelSort [[]; [0; 0]] = (1, 0).
Proof. reflexivity. Qed.

(** ** The sort *)

Lemma sort_insert_perm x t : Permutation (x :: t) (sort_insert x t).
Proof.
  induction t as [|y t IH]; simpl; auto.
  destruct (Less y x); auto.
  rewrite perm_swap. now constructor.
Qed.

Lemma sort_Sort_perm t : Permutation t (sort_Sort t).
Proof.
  induction t as [|x t IH]; simpl; auto.
  rewrite <- sort_insert_perm. now constructor.
Qed.

Lemma sort_insert_sorted x t :
  StronglySorted Z.le t -> StronglySorted Z.le (sort_insert x t).
Proof.
  induction 1 as [|y t Hs IH Hall]; simpl.
  - repeat constructor.
  - unfold Less. destruct (Z.ltb_spec y x).
    + constructor; auto.
      rewrite Forall_forall in *. intros z Hz.
      apply (Permutation_in _ (Permutation_sym (sort_insert_perm x t))) in Hz.
      destruct Hz as [<-|Hz]; [lia | auto].
    + constructor; [constructor; auto|].
      constructor; [lia|].
      rewrite Forall_forall in *. intros z Hz. specialize (Hall z Hz). lia.
Qed.

Lemma sort_Sort_sorted t : StronglySorted Z.le (sort_Sort t).
Proof.
  induction t; simpl; [constructor | now apply sort_insert_sorted].
Qed.

(** Ascending order determines the result. *)
Lemma sorted_perm_unique (s t : NodeList) :
  StronglySorted Z.le s -> StronglySorted Z.le t -> Permutation s t -> s = t.
Proof.
  intros Hs; revert t. induction Hs as [|a s Hs IH Ha]; intros t Ht HP.
  - now apply Permutation_nil in HP.
  - destruct Ht as [|b t Ht Hb].
    + symmetry in HP. now apply Permutation_nil in HP.
    + assert (a = b) as <-.
      { assert (In a (b :: t)) as Hin1 by (eapply Permutation_in; eauto; now left).
        assert (In b (a :: s)) as Hin2
            by (eapply Permutation_in; [symmetry; eauto | now left]).
        rewrite Forall_forall in Ha, Hb.
        destruct Hin1 as [->|Hin1]; auto.
        destruct Hin2 as [->|Hin2]; auto.
        specialize (Ha _ Hin2). specialize (Hb _ Hin1). lia. }
      f_equal. apply IH; auto. eapply Permutation_cons_inv; eauto.
Qed.

Lemma sort_Sort_unique (t s : NodeList) :
  StronglySorted Z.le s -> Permutation t s -> s = sort_Sort t.
Proof.
  intros Hs HP. apply sorted_perm_unique; auto using sort_Sort_sorted.
  rewrite <- HP. apply sort_Sort_perm.
Qed.

(** ** The scan over a sorted slot *)

Lemma scan_Some t0 rest d :
  scan t0 rest = Some d -> (2 <= occurrences d (t0 :: rest))%nat.
Proof.
  revert t0. induction rest as [|to rest IH]; simpl; intros t0 H; [discriminate|].
  destruct (Z.eqb_spec to t0) as [->|Hne].
  - injection H as <-. unfold occurrences. simpl.
    destruct (Z.eq_dec t0 t0); [lia | congruence].
  - apply IH in H. unfold occurrences in *. simpl in *.
    destruct (Z.eq_dec t0 d); destruct (Z.eq_dec to d); lia.
Qed.

Lemma scan_None t0 rest :
  StronglySorted Z.le (t0 :: rest) -> scan t0 rest = None -> NoDup (t0 :: rest).
Proof.
  revert t0. induction rest as [|to rest IH]; simpl; intros t0 Hs H.
  - constructor; [intros [] | constructor].
  - destruct (Z.eqb_spec to t0) as [->|Hne]; [discriminate|].
    inversion Hs as [|? ? Hs' Hall]; subst.
    constructor; [|now apply IH].
    inversion Hall as [|? ? Hle Hall']; subst.
    inversion Hs' as [|? ? _ Hto]; subst.
    rewrite Forall_forall in Hto.
    intros [Heq|Hin]; [congruence|].
    specialize (Hto _ Hin). lia.
Qed.

Lemma occurrences_NoDup d l : NoDup l -> (occurrences d l <= 1)%nat.
Proof.
  intros H. unfold occurrences.
  rewrite (NoDup_count_occ Z.eq_dec) in H. apply H.
Qed.

Lemma occurrences_perm d l l' :
  Permutation l l' -> occurrences d l = occurrences d l'.
Proof.
  intros H. unfold occurrences.
  now rewrite (Permutation_count_occ Z.eq_dec) in H.
Qed.

(** What one iteration of the outer loop decides about slot [to]. *)
Lemma slot_dup to t0 rest d :
  sort_Sort to = t0 :: rest -> scan t0 rest = Some d ->
  (2 <= occurrences d to)%nat.
Proof.
  intros Hs Hd. rewrite (occurrences_perm d (sort_Sort_perm to)), Hs.
  now apply scan_Some.
Qed.

Lemma slot_nodup to t0 rest :
  sort_Sort to = t0 :: rest -> scan t0 rest = None -> NoDup to.
Proof.
  intros Hs Hd.
  apply (Permutation_NoDup (Permutation_sym (sort_Sort_perm to))).
  rewrite Hs. apply scan_None; auto. rewrite <- Hs. apply sort_Sort_sorted.
Qed.

Lemma NI_of_int_small n :
  0 <= n < 2147483648 -> NI_of_int n = n.
Proof.
  intros H. unfold NI_of_int.
  rewrite Z.mod_small; lia.
Qed.

Lemma HasParallelSort_from_cons n a to' g :
  HasParallelSort_from n ((a :: to') :: g) =
  match sort_Sort (a :: to') with
  | [] => HasParallelSort_from (S n) g
  | t0 :: rest =>
      match scan t0 rest with
      | Some d => (NI_of_int (Z.of_nat n), d)
      | None => HasParallelSort_from (S n) g
      end
  end.
Proof. reflexivity. Qed.

(** The loop, started at index [n], either reports a slot at index
    [>= n] holding a repeated target, or finds every slot duplicate-free. *)
Lemma HasParallelSort_from_spec g : forall n,
  Z.of_nat (n + length g) <= 2147483648 ->
  (HasParallelSort_from n g = (-1, -1) /\ no_parallel g) \/
  (exists k to,
      nth_error g k = Some to /\
      fst (HasParallelSort_from n g) = Z.of_nat (n + k) /\
      (2 <= occurrences (snd (HasParallelSort_from n g)) to)%nat).
Proof.
  induction g as [|to g IH]; intros n Hlen.
  - left. split; auto. intros ? [].
  - cbn [length] in Hlen.
    assert (Hnext : Z.of_nat (S n + length g) <= 2147483648) by lia.
    assert (Hskip : NoDup to ->
      (HasParallelSort_from (S n) g = (-1, -1) /\ no_parallel (to :: g)) \/
      (exists k to0,
        nth_error (to :: g) k = Some to0 /\
        fst (HasParallelSort_from (S n) g) = Z.of_nat (n + k) /\
        (2 <= occurrences (snd (HasParallelSort_from (S n) g)) to0)%nat)).
    { intros Hnd. destruct (IH (S n) Hnext) as [[E Hno]|(k & to0 & Hk & Hf & Ho)].
      - left. split; auto. intros l [<-|Hl]; auto.
      - right. exists (S k), to0. simpl. repeat split; auto.
        rewrite Hf. f_equal. lia. }
    destruct to as [|a to'].
    + apply Hskip. constructor.
    + rewrite HasParallelSort_from_cons.
      destruct (sort_Sort (a :: to')) as [|t0 rest] eqn:Hs.
      * exfalso. pose proof (sort_Sort_perm (a :: to')) as HP.
        rewrite Hs in HP. now apply Permutation_sym, Permutation_nil in HP.
      * destruct (scan t0 rest) as [d|] eqn:Hd.
        -- right. exists 0%nat, (a :: to'). cbn [nth_error fst snd]. repeat split.
           ++ rewrite NI_of_int_small by lia. f_equal. lia.
           ++ eapply slot_dup; eauto.
        -- apply Hskip. eapply slot_nodup; eauto.
Qed.

(** C10.  For an adjacency list whose order fits the node-id type,
    [HasParallelSort] returns [(-1, -1)] exactly when no slot holds the same
    target twice (two loops on a node included); otherwise it returns
    [(fr, to)] where [fr] indexes a slot of [g] in which [to] occurs at least
    twice. *)
Theorem HasParallelSort_correct (g : list (list Z)) :
  Z.of_nat (length g) <= 2147483648 ->
  (HasParallelSort g = (-1, -1) <-> no_parallel g) /\
  (HasParallelSort g <> (-1, -1) ->
   exists k slot,
     nth_error g k = Some slot /\
     fst (HasParallelSort g) = Z.of_nat k /\
     (2 <= occurrences (snd (HasParallelSort g)) slot)%nat).
Proof.
  intros Hlen. unfold HasParallelSort.
  destruct (@HasParallelSort_from_spec g 0%nat Hlen)
    as [[E Hno]|(k & slot & Hk & Hf & Ho)].
  - split; [tauto | congruence].
  - assert (Hne : HasParallelSort_from 0 g <> (-1, -1)).
    { intros E. rewrite E in Hf. simpl in Hf. lia. }
    split.
    + split; [congruence|]. intros Hno. exfalso.
      apply nth_error_In in Hk. apply Hno in Hk.
      pose proof (occurrences_NoDup (snd (HasParallelSort_from 0 g)) Hk). lia.
    + intros _. exists k, slot. auto.
Qed.

Lemma HasParallelSort_correct_witness :
  let g : list (list Z) := [[]; [0; 0]] in
  (HasParallelSort g = (-1, -1) <-> no_parallel g) /\
  (HasParallelSort g <> (-1, -1) ->
   exists k slot,
     nth_error g k = Some slot /\
     fst (HasParallelSort g) = Z.of_nat k /\
     (2 <= occurrences (snd (HasParallelSort g)) slot)%nat).
Proof.
  intros g. apply (@HasParallelSort_correct g). simpl. lia.
Defined.

(** ** More on [HasParallelSort]: which example it reports *)

(** In an ascending slot the scan stops at the least repeated value. *)
Lemma scan_least t0 rest d :
  StronglySorted Z.le (t0 :: rest) -> scan t0 rest = Some d ->
  forall d', (2 <= occurrences d' (t0 :: rest))%nat -> d <= d'.
Proof.
  revert t0. induction rest as [|to rest IH]; cbn [scan]; intros t0 Hs H d' Hd';
    [discriminate|].
  inversion Hs as [|? ? Hs' Hall]; subst.
  assert (Hin : In d' (t0 :: to :: rest)).
  { apply (count_occ_In Z.eq_dec). unfold occurrences in Hd'. lia. }
  rewrite Forall_forall in Hall.
  destruct (Z.eqb_spec to t0) as [->|Hne].
  - injection H as <-. destruct Hin as [<-|Hin]; [lia | now apply Hall].
  - apply (IH to Hs' H).
    assert (Ht0 : ~ In t0 (to :: rest)).
    { inversion Hs' as [|? ? _ Hto]; subst. rewrite Forall_forall in Hto.
      pose proof (Hall to (or_introl eq_refl)).
      intros [E|Hr]; [congruence|]. specialize (Hto _ Hr). lia. }
    unfold occurrences in *. simpl in Hd'.
    destruct (Z.eq_dec t0 d') as [<-|_]; [|exact Hd'].
    apply (count_occ_not_In Z.eq_dec) in Ht0. simpl in Ht0. lia.
Qed.

Lemma occurrences_sorted d to :
  occurrences d (sort_Sort to) = occurrences d to.
Proof. symmetry. apply occurrences_perm, sort_Sort_perm. Qed.

Lemma HasParallelSort_from_first g : forall n,
  Z.of_nat (n + length g) <= 2147483648 ->
  HasParallelSort_from n g <> (-1, -1) ->
  exists k slot,
    nth_error g k = Some slot /\
    fst (HasParallelSort_from n g) = Z.of_nat (n + k) /\
    (forall j s, (j < k)%nat -> nth_error g j = Some s -> NoDup s) /\
    (2 <= occurrences (snd (HasParallelSort_from n g)) slot)%nat /\
    (forall d', (2 <= occurrences d' slot)%nat ->
                snd (HasParallelSort_from n g) <= d').
Proof.
  induction g as [|to g IH]; intros n Hlen Hres; [now elim Hres|].
  cbn [length] in Hlen.
  assert (Hnext : Z.of_nat (S n + length g) <= 2147483648) by lia.
  assert (Hskip : NoDup to ->
            HasParallelSort_from n (to :: g) = HasParallelSort_from (S n) g ->
            exists k slot,
              nth_error (to :: g) k = Some slot /\
              fst (HasParallelSort_from n (to :: g)) = Z.of_nat (n + k) /\
              (forall j s, (j < k)%nat -> nth_error (to :: g) j = Some s ->
                           NoDup s) /\
              (2 <= occurrences (snd (HasParallelSort_from n (to :: g))) slot)%nat /\
              (forall d', (2 <= occurrences d' slot)%nat ->
                          snd (HasParallelSort_from n (to :: g)) <= d')).
  { intros Hnd E. rewrite E in Hres |- *.
    destruct (IH (S n) Hnext Hres) as (k & slot & Hk & Hf & Hlow & Ho & Hmin).
    exists (S k), slot. split; [exact Hk|]. split; [rewrite Hf; f_equal; lia|].
    split; [|split; [exact Ho | exact Hmin]].
    intros [|j] s Hj Hs; simpl in Hs.
    - injection Hs as <-. exact Hnd.
    - apply (Hlow j s); [lia | exact Hs]. }
  destruct to as [|a to'].
  - apply Hskip; [constructor | reflexivity].
  - pose proof (HasParallelSort_from_cons n a to' g) as Hc.
    destruct (sort_Sort (a :: to')) as [|t0 rest] eqn:Hs.
    + exfalso. pose proof (sort_Sort_perm (a :: to')) as HP.
      rewrite Hs in HP. now apply Permutation_sym, Permutation_nil in HP.
    + destruct (scan t0 rest) as [d|] eqn:Hd.
      * exists 0%nat, (a :: to'). rewrite Hc. cbn [nth_error fst snd].
        split; [reflexivity|]. split.
        { rewrite NI_of_int_small by lia. f_equal. lia. }
        split; [intros j s Hj; lia|]. split; [eapply slot_dup; eauto|].
        intros d' Hd'. rewrite <- occurrences_sorted, Hs in Hd'.
        eapply scan_least; eauto. rewrite <- Hs. apply sort_Sort_sorted.
      * apply Hskip; [eapply slot_nodup; eauto | exact Hc].
Qed.

(** X1.  Of all the parallel arcs of a graph, [HasParallelSort] reports those
    of the first node that has any, and of that node the least target
    reached twice. *)
Theorem HasParallelSort_first (g : list (list Z)) :
  Z.of_nat (length g) <= 2147483648 ->
  HasParallelSort g <> (-1, -1) ->
  exists k slot,
    nth_error g k = Some slot /\
    fst (HasParallelSort g) = Z.of_nat k /\
    (forall j s, (j < k)%nat -> nth_error g j = Some s -> NoDup s) /\
    (2 <= occurrences (snd (HasParallelSort g)) slot)%nat /\
    (forall d', (2 <= occurrences d' slot)%nat ->
                snd (HasParallelSort g) <= d').
Proof.
  intros Hlen Hres. exact (@HasParallelSort_from_first g 0%nat Hlen Hres).
Qed.

Lemma HasParallelSort_first_witness :
  let g : list (list Z) := [[3; 1]; [7; 2; 7; 2]; [5; 5]] in
  HasParallelSort g = (1, 2) /\
  exists k slot,
    nth_error g k = Some slot /\
    fst (HasParallelSort g) = Z.of_nat k /\
    (forall j s, (j < k)%nat -> nth_error g j = Some s -> NoDup s) /\
    (2 <= occurrences (snd (HasParallelSort g)) slot)%nat /\
    (forall d', (2 <= occurrences d' slot)%nat ->
                snd (HasParallelSort g) <= d').
Proof.
  intros g. split; [reflexivity|].
  apply (@HasParallelSort_first g); [simpl; lia | discriminate].
Defined.

(** The order in which a node lists its arcs does not matter. *)
Lemma HasParallelSort_from_perm g g' :
  Forall2 (@Permutation Z) g g' ->
  forall n, HasParallelSort_from n g = HasParallelSort_from n g'.
Proof.
  induction 1 as [|to to' g g' HP _ IH]; intros n; [reflexivity|].
  assert (Hsort : sort_Sort to = sort_Sort to').
  { apply sort_Sort_unique; [apply sort_Sort_sorted|].
    rewrite <- HP. apply sort_Sort_perm. }
  destruct to as [|a to].
  - apply Permutation_nil in HP. subst. simpl. apply IH.
  - destruct to' as [|a' to'].
    + symmetry in HP. now apply Permutation_nil in HP.
    + rewrite !HasParallelSort_from_cons, Hsort, IH. reflexivity.
Qed.

(** X2.  [HasParallelSort] answers the same on two graphs that differ only
    in the order in which each node lists its arcs. *)
Theorem HasParallelSort_perm (g g' : list (list Z)) :
  Forall2 (@Permutation Z) g g' -> HasParallelSort g = HasParallelSort g'.
Proof. intros H. now apply HasParallelSort_from_perm. Qed.

Lemma HasParallelSort_perm_witness :
  HasParallelSort [[2; 0; 2]; [1]] = HasParallelSort [[0; 2; 2]; [1]].
Proof.
  apply HasParallelSort_perm.
  constructor; [|constructor; [apply Permutation_refl | constructor]].
  apply perm_swap.
Defined.

(** ** graph.go: OneBits *)

(** The conversion [uint(n)] of an [int], on a 64-bit target. *)
Definition uint_of_int (n : Z) : Z := n mod 18446744073709551616.

(** [OneBits]: [b.Sub(b.Lsh(one, uint(n)), one)]; what [b] held before is
    overwritten, the value left in [b] is returned. *)
Definition OneBits (b : Z) (n : Z) : Z :=
  Z.shiftl 1 (uint_of_int n) - 1.

Example OneBits_ex : OneBits 0 5 = 31.
Proof. reflexivity. Qed.

(** X3.  For the order [n] of a graph, [OneBits] leaves in [b] the bitmap that
    holds exactly the nodes [0 .. n-1], whatever [b] held before. *)
Theorem OneBits_bits (b n : Z) :
  0 <= n < 9223372036854775808 ->
  forall i, 0 <= i -> Z.testbit (OneBits b n) i = (i <? n).
Proof.
  intros Hn i Hi. unfold OneBits, uint_of_int.
  rewrite Z.mod_small by lia.
  change (Z.shiftl 1 n - 1) with (Z.pred (Z.shiftl 1 n)).
  fold (Z.ones n).
  destruct (Z.ltb_spec i n).
  - apply Z.ones_spec_low. lia.
  - apply Z.ones_spec_high. lia.
Qed.

Lemma OneBits_bits_witness :
  OneBits 12345 5 = 31 /\
  Z.testbit (OneBits 12345 5) 4 = (4 <? 5) /\
  Z.testbit (OneBits 12345 5) 5 = (5 <? 5).
Proof.
  split; [reflexivity|].
  split; apply (@OneBits_bits 12345 5); lia.
Defined.

End Graph.

(* ================================================================== *)
(** * df/df.go: the depth-first search engine *)
(* ================================================================== *)

Module DF.

Local Open Scope Z_scope.

(** ** Machine model

    The closures of df.go run against a store that holds the graph they
    captured, the visited bitset, whatever the caller's visitors keep, and a
    counter of the draws made from the random source.  A log of events is
    kept besides: a node visit (entry to [f.recurse]) and every visitor
    invocation with its answer. *)

Inductive Event : Type :=
| EvVisit (n : Z)
| EvNodeVisitor (n : Z)
| EvOkNodeVisitor (n : Z) (ok : bool)
| EvArcVisitor (n : Z) (x : nat)
| EvOkArcVisitor (n : Z) (x : nat) (ok : bool).

Record State (A U : Type) : Type := mkState {
  st_graph : list (list A);
  st_visited : Z;
  st_user : U;
  st_log : list Event;
  st_rcalls : nat
}.

(** A call returns, faults (a Go panic), or exhausts the recursion budget
    of the model. *)
Inductive Outcome (S A : Type) : Type :=
| Ok (a : A) (s : S)
| Panic (s : S)
| OutOfFuel.

Arguments Ok {S A} a s.
Arguments Panic {S A} s.
Arguments OutOfFuel {S A}.

Definition M (S A : Type) : Type := S -> Outcome S A.

Definition ret {S A} (a : A) : M S A := fun s => Ok a s.

Definition bind {S A B} (c : M S A) (k : A -> M S B) : M S B :=
  fun s => match c s with
           | Ok a s' => k a s'
           | Panic s' => Panic s'
           | OutOfFuel => OutOfFuel
           end.

Definition panic {S A} : M S A := fun s => Panic s.

Notation "x <- c ;; k" := (bind c (fun x => k))
  (at level 61, c at next level, right associativity).
Notation "c ;;; k" := (bind c (fun _ => k))
  (at level 61, right associativity).

(** Modelled from the spec: [graph.Bits], the bitset type declared outside
    df.go.  It is a set of node ids with test and set.  graph.go keeps its
    bitmaps in big integers and mst_test.go hands a zero-value [graph.Bits]
    to an algorithm as an output set, so the set is a non-negative integer
    that grows on demand, its zero value is the empty set, and a negative
    index faults. *)
Definition Bits_zero : Z := 0.

Definition Bits_Bit (b : Z) (n : Z) : option bool :=
  if n <? 0 then None else Some (Z.testbit b n).

Definition Bits_SetBit1 (b : Z) (n : Z) : option Z :=
  if n <? 0 then None else Some (Z.setbit b n).

(** Modelled from the spec: [config], the option record declared outside
    df.go, with the fields df.go reads.  A visitor acts on the caller's
    state [U]; a conditional visitor also answers continue ([true]) or stop
    ([false]).  The random source is given by what its successive [Perm]
    calls return: [rand k n] is the result of the [k]-th draw, of size
    [n]. *)
Record config (U : Type) : Type := mkConfig {
  nodeVisitor : option (Z -> U -> U);
  okNodeVisitor : option (Z -> U -> bool * U);
  arcVisitor : option (Z -> nat -> U -> U);
  okArcVisitor : option (Z -> nat -> U -> bool * U);
  visited : option Z;
  rand : option (nat -> nat -> list nat)
}.

Definition config_zero (U : Type) : config U :=
  mkConfig None None None None None None.

Section Engine.

Variables A U : Type.

(** [tgt] resolves the target of a slot entry: the entry itself in an
    [AdjacencyList], its [To] field in a [LabeledAdjacencyList]. *)
Variable tgt : A -> Z.

Local Abbreviation Run := (M (State A U)).

Definition emit (e : Event) : Run unit :=
  fun st => Ok tt (mkState (st_graph st) (st_visited st) (st_user st)
                           (st_log st ++ [e]) (st_rcalls st)).

(** Visitor invocations. *)
Definition call_nodeVisitor (v : Z -> U -> U) (n : Z) : Run unit :=
  fun st => Ok tt (mkState (st_graph st) (st_visited st) (v n (st_user st))
                           (st_log st ++ [EvNodeVisitor n]) (st_rcalls st)).

Definition call_okNodeVisitor (v : Z -> U -> bool * U) (n : Z) : Run bool :=
  fun st => let r := v n (st_user st) in
            Ok (fst r) (mkState (st_graph st) (st_visited st) (snd r)
                                (st_log st ++ [EvOkNodeVisitor n (fst r)])
                                (st_rcalls st)).

Definition call_arcVisitor (v : Z -> nat -> U -> U) (n : Z) (x : nat)
  : Run unit :=
  fun st => Ok tt (mkState (st_graph st) (st_visited st) (v n x (st_user st))
                           (st_log st ++ [EvArcVisitor n x]) (st_rcalls st)).

Definition call_okArcVisitor (v : Z -> nat -> U -> bool * U) (n : Z) (x : nat)
  : Run bool :=
  fun st => let r := v n x (st_user st) in
            Ok (fst r) (mkState (st_graph st) (st_visited st) (snd r)
                                (st_log st ++ [EvOkArcVisitor n x (fst r)])
                                (st_rcalls st)).

(** [r.Perm(n)] *)
Definition Perm (r : nat -> nat -> list nat) (n : nat) : Run (list nat) :=
  fun st => Ok (r (st_rcalls st) n)
               (mkState (st_graph st) (st_visited st) (st_user st)
                        (st_log st) (S (st_rcalls st))).

(** [g[n]]: index out of range faults. *)
Definition index_graph (n : Z) : Run (list A) :=
  fun st => if n <? 0 then Panic st
            else match nth_error (st_graph st) (Z.to_nat n) with
                 | Some to => Ok to st
                 | None => Panic st
                 end.

(** [to[x]] *)
Definition index_slot (to : list A) (x : nat) : Run A :=
  match nth_error to x with
  | Some a => ret a
  | None => panic
  end.

(** [for x, to := range s]: the indices paired with the elements. *)
Definition range (s : list A) : list (nat * A) :=
  combine (seq 0 (length s)) s.

(** A loop whose body cannot leave it. *)
Fixpoint for_each {B} (items : list B) (body : B -> Run unit) : Run unit :=
  match items with
  | [] => ret tt
  | i :: rest => body i ;;; for_each rest body
  end.

(** A loop ending in [return true] whose body may [return false]; the body
    answers whether to go on. *)
Fixpoint for_each_ok {B} (items : list B) (body : B -> Run bool) : Run bool :=
  match items with
  | [] => ret true
  | i :: rest => ok <- body i ;; if ok then for_each_ok rest body else ret false
  end.

Variable cf : config U.

(** [config.visitedFunc] *)
Definition visitedFunc : Z -> Run bool :=
  fun n st =>
    match Bits_Bit (st_visited st) n with
    | None => Panic st
    | Some true => Ok true st
    | Some false =>
        match Bits_SetBit1 (st_visited st) n with
        | None => Panic st
        | Some b' => Ok false (mkState (st_graph st) b' (st_user st)
                                       (st_log st) (st_rcalls st))
        end
    end.

(** [dfTraverseNodes.traverse] *)
Definition dfTraverseNodes_traverse
    (visited : Z -> Run bool) (recurse : Z -> Run unit) (n : Z) : Run unit :=
  seen <- visited n ;;
  if seen then ret tt else (emit (EvVisit n) ;;; recurse n).

(** [dfSearchNodes.search] *)
Definition dfSearchNodes_search
    (visited : Z -> Run bool) (recurse : Z -> Run bool) (n : Z) : Run bool :=
  seen <- visited n ;;
  if seen then ret true else (emit (EvVisit n) ;;; recurse n).

(** [config.composeTraverseVisitor] *)
Definition composeTraverseVisitor (f : Z -> Run unit) : Z -> Run unit :=
  match nodeVisitor cf with
  | Some v => fun n => call_nodeVisitor v n ;;; f n
  | None => f
  end.

(** [config.composeSearchVisitor] *)
Definition composeSearchVisitor (f : Z -> Run bool) : Z -> Run bool :=
  match okNodeVisitor cf with
  | Some v => fun n => ok <- call_okNodeVisitor v n ;;
                       if ok then f n else ret false
  | None =>
      match nodeVisitor cf with
      | Some v => fun n => call_nodeVisitor v n ;;; f n
      | None => f
      end
  end.

(** [config.adjRandSearch] / [config.labRandSearch] *)
Definition randSearch (search : Z -> Run bool) (r : nat -> nat -> list nat)
  : Z -> Run bool :=
  match okArcVisitor cf with
  | Some v => fun n =>
      to <- index_graph n ;;
      p <- Perm r (length to) ;;
      for_each_ok p (fun x =>
        ok <- call_okArcVisitor v n x ;;
        if ok then (a <- index_slot to x ;; search (tgt a)) else ret false)
  | None =>
      match arcVisitor cf with
      | Some v => fun n =>
          to <- index_graph n ;;
          p <- Perm r (length to) ;;
          for_each_ok p (fun x =>
            call_arcVisitor v n x ;;;
            a <- index_slot to x ;; search (tgt a))
      | None => fun n =>
          to <- index_graph n ;;
          p <- Perm r (length to) ;;
          for_each_ok p (fun i => a <- index_slot to i ;; search (tgt a))
      end
  end.

(** [config.adjToSearch] / [config.labToSearch] *)
Definition toSearch (search : Z -> Run bool) : Z -> Run bool :=
  match okArcVisitor cf with
  | Some v => fun n =>
      to <- index_graph n ;;
      for_each_ok (range to) (fun xa =>
        ok <- call_okArcVisitor v n (fst xa) ;;
        if ok then search (tgt (snd xa)) else ret false)
  | None =>
      match arcVisitor cf with
      | Some v => fun n =>
          to <- index_graph n ;;
          for_each_ok (range to) (fun xa =>
            call_arcVisitor v n (fst xa) ;;; search (tgt (snd xa)))
      | None => fun n =>
          to <- index_graph n ;;
          for_each_ok (range to) (fun xa => search (tgt (snd xa)))
      end
  end.

(** [config.adjRecurseSearch] / [config.labRecurseSearch] *)
Definition recurseSearch (search : Z -> Run bool) : Z -> Run bool :=
  match rand cf with
  | Some r => randSearch search r
  | None => toSearch search
  end.

(** [config.adjRandTraverse] / [config.labRandTraverse] *)
Definition randTraverse (traverse : Z -> Run unit) (r : nat -> nat -> list nat)
  : Z -> Run unit :=
  match arcVisitor cf with
  | Some v => fun n =>
      to <- index_graph n ;;
      p <- Perm r (length to) ;;
      for_each p (fun x =>
        call_arcVisitor v n x ;;;
        a <- index_slot to x ;; traverse (tgt a))
  | None => fun n =>
      to <- index_graph n ;;
      p <- Perm r (length to) ;;
      for_each p (fun x => a <- index_slot to x ;; traverse (tgt a))
  end.

(** [config.adjToTraverse] / [config.labToTraverse] *)
Definition toTraverse (traverse : Z -> Run unit) : Z -> Run unit :=
  match arcVisitor cf with
  | Some v => fun n =>
      to <- index_graph n ;;
      for_each (range to) (fun xa =>
        call_arcVisitor v n (fst xa) ;;; traverse (tgt (snd xa)))
  | None => fun n =>
      to <- index_graph n ;;
      for_each (range to) (fun xa => traverse (tgt (snd xa)))
  end.

(** [config.adjRecurseTraverse] / [config.labRecurseTraverse] *)
Definition recurseTraverse (traverse : Z -> Run unit) : Z -> Run unit :=
  match rand cf with
  | Some r => randTraverse traverse r
  | None => toTraverse traverse
  end.

(** The knot [traverse -> recurse -> traverse] tied by [adjFunc]/[labFunc];
    [fuel] bounds the depth of the recursion. *)
Fixpoint traverse_fuel (fuel : nat) : Z -> Run unit :=
  match fuel with
  | O => fun _ _ => OutOfFuel
  | S k => dfTraverseNodes_traverse visitedFunc
             (composeTraverseVisitor (recurseTraverse (traverse_fuel k)))
  end.

Fixpoint search_fuel (fuel : nat) : Z -> Run bool :=
  match fuel with
  | O => fun _ _ => OutOfFuel
  | S k => dfSearchNodes_search visitedFunc
             (composeSearchVisitor (recurseSearch (search_fuel k)))
  end.

(** [config.adjFunc] / [config.labFunc] *)
Definition func (fuel : nat) : Z -> Run unit :=
  match okNodeVisitor cf, okArcVisitor cf with
  | None, None => traverse_fuel fuel
  | _, _ => fun start => search_fuel fuel start ;;; ret tt
  end.

End Engine.

(** df.go writes every closure twice, once over [AdjacencyList] and once
    over [LabeledAdjacencyList]; the two copies differ only in [to] against
    [to.To]. *)
Definition adjTo (to : Z) : Z := to.

Definition adjRandSearch {U} (cf : config U) := randSearch adjTo cf.
Definition adjToSearch {U} (cf : config U) := toSearch adjTo cf.
Definition adjRecurseSearch {U} (cf : config U) := recurseSearch adjTo cf.
Definition adjRandTraverse {U} (cf : config U) := randTraverse adjTo cf.
Definition adjToTraverse {U} (cf : config U) := toTraverse adjTo cf.
Definition adjRecurseTraverse {U} (cf : config U) := recurseTraverse adjTo cf.
Definition adjFunc {U} (cf : config U) := func adjTo cf.

Definition labRandSearch {U} (cf : config U) := randSearch To cf.
Definition labToSearch {U} (cf : config U) := toSearch To cf.
Definition labRecurseSearch {U} (cf : config U) := recurseSearch To cf.
Definition labRandTraverse {U} (cf : config U) := randTraverse To cf.
Definition labToTraverse {U} (cf : config U) := toTraverse To cf.
Definition labRecurseTraverse {U} (cf : config U) := recurseTraverse To cf.
Definition labFunc {U} (cf : config U) := func To cf.

(** The dynamic type of [Search]'s [g interface{}] argument. *)
Inductive GraphArg : Type :=
| AdjArg (g : list (list Z))
| LabArg (g : list (list Half))
| OtherArg.

(** How a call of [Search] ends: it returns an error value ([None] is
    [nil]), it faults, or the model's recursion budget runs out (which
    [Search_total] excludes). *)
Inductive Status : Type :=
| Returned (err : option string)
| Panicked
| Exhausted.

(** What the caller can observe afterwards: the graph, the content of the
    visited bitset in use (the empty set if none was ever allocated), the
    visitors' state and the event log. *)
Record Result (U : Type) : Type := mkResult {
  res_status : Status;
  res_graph : GraphArg;
  res_visited : Z;
  res_user : U;
  res_log : list Event
}.

Definition errors_New (msg : string) : option string := Some msg.

Definition finish {A U} (wrap : list (list A) -> GraphArg)
    (o : Outcome (State A U) unit) (st0 : State A U) : Result U :=
  match o with
  | Ok _ st => mkResult (Returned None) (wrap (st_graph st)) (st_visited st)
                        (st_user st) (st_log st)
  | Panic st => mkResult Panicked (wrap (st_graph st)) (st_visited st)
                         (st_user st) (st_log st)
  | OutOfFuel => mkResult Exhausted (wrap (st_graph st0)) (st_visited st0)
                          (st_user st0) (st_log st0)
  end.

(** The options applied in order to a zero [config]. *)
Definition configure {U} (options : list (config U -> config U)) : config U :=
  fold_left (fun c o => o c) options (config_zero U).

Definition bits_in_use {U} (cf : config U) : Z :=
  match visited cf with
  | Some b => b
  | None => Bits_zero
  end.

(** [Search], past the option loop.  The recursion budget handed to the
    closures is one more than the order of the graph. *)
Definition Search_cf {U} (g : GraphArg) (start : Z) (cf : config U) (u0 : U)
  : Result U :=
  match nodeVisitor cf, okNodeVisitor cf with
  | Some _, Some _ =>
      mkResult
        (Returned (errors_New
           "NodeVisitor and OkNodeVisitor cannot both be specified"))
        g (bits_in_use cf) u0 []
  | _, _ =>
      match arcVisitor cf, okArcVisitor cf with
      | Some _, Some _ =>
          mkResult
            (Returned (errors_New
               "ArcVisitor and OkArcVisitor cannot both be specified"))
            g (bits_in_use cf) u0 []
      | _, _ =>
          let b := match visited cf with
                   | Some b => b
                   | None => Bits_zero     (* cf.visited = &graph.Bits{} *)
                   end in
          match g with
          | AdjArg t =>
              let st0 := mkState t b u0 [] 0 in
              finish AdjArg (adjFunc cf (S (length t)) start st0) st0
          | LabArg t =>
              let st0 := mkState t b u0 [] 0 in
              finish LabArg (labFunc cf (S (length t)) start st0) st0
          | OtherArg =>
              mkResult (Returned (errors_New "invalid graph type"))
                       g b u0 []
          end
      end
  end.

(** [Search] *)
Definition Search {U} (g : GraphArg) (start : Z)
    (options : list (config U -> config U)) (u0 : U) : Result U :=
  Search_cf g start (configure options) u0.

(** The nodes visited, in order. *)
Definition visits (l : list Event) : list Z :=
  flat_map (fun e => match e with EvVisit n => [n] | _ => [] end) l.

Example Search_cycle :
  visits (res_log (Search (AdjArg [[1; 2]; [2]; [0]; [1]]) 0 [] tt)) = [0; 1; 2].
Proof. reflexivity. Qed.

Example Search_labeled :
  res_visited (Search (LabArg [[mkHalf 1 7]; [mkHalf 0 7]; []]) 1 [] tt) = 3.
Proof. reflexivity. Qed.

Example Search_out_of_range :
  res_status (Search (AdjArg [[5]]) 0 [] tt) = Panicked.
Proof. reflexivity. Qed.


(** ** Reasoning rules

    [wp F c Q E s]: run from [s], the computation [c] ends in a state
    satisfying [Q] with its result, or faults in a state satisfying [E];
    [F] is what is claimed should the recursion budget run out. *)

Definition wp {S A} (F : Prop) (c : M S A) (Q : A -> S -> Prop)
    (E : S -> Prop) (s : S) : Prop :=
  match c s with
  | Ok a s' => Q a s'
  | Panic s' => E s'
  | OutOfFuel => F
  end.

Definition equiv {S A} (c1 c2 : M S A) : Prop := forall s, c1 s = c2 s.

Infix "=~" := equiv (at level 70, no associativity).

Section Rules.

Variables S : Type.
Variable F : Prop.

Lemma wp_ret A (a : A) (Q : A -> S -> Prop) E s :
  Q a s -> wp F (ret a) Q E s.
Proof. exact (fun H => H). Qed.

Lemma wp_bind A B (c : M S A) (k : A -> M S B) Q E s :
  wp F c (fun a s' => wp F (k a) Q E s') E s -> wp F (bind c k) Q E s.
Proof.
  unfold wp, bind. intros H. destruct (c s); auto.
Qed.

Lemma wp_mono A (c : M S A) (Q Q' : A -> S -> Prop) (E E' : S -> Prop) s :
  (forall a s', Q a s' -> Q' a s') -> (forall s', E s' -> E' s') ->
  wp F c Q E s -> wp F c Q' E' s.
Proof.
  unfold wp. intros HQ HE H. destruct (c s); auto.
Qed.

Lemma wp_equiv A (c1 c2 : M S A) Q E s :
  c1 =~ c2 -> wp F c2 Q E s -> wp F c1 Q E s.
Proof. unfold wp. intros H. now rewrite (H s). Qed.

End Rules.

Lemma equiv_refl S A (c : M S A) : c =~ c.
Proof. now intros s. Qed.

Lemma equiv_bind S A B (c1 c2 : M S A) (k1 k2 : A -> M S B) :
  c1 =~ c2 -> (forall a, k1 a =~ k2 a) -> bind c1 k1 =~ bind c2 k2.
Proof.
  intros Hc Hk s. unfold bind. rewrite (Hc s). destruct (c2 s); auto.
  apply Hk.
Qed.

Lemma bind_ret_l S A B (a : A) (k : A -> M S B) : bind (ret a) k =~ k a.
Proof. now intros s. Qed.

Section LoopRules.

Variables A U : Type.
Variable F : Prop.

(** A loop maintains an invariant indexed by the items already handled. *)
Lemma wp_for_each B (items : list B) (body : B -> M (State A U) unit)
    (I : list B -> State A U -> Prop) (E : State A U -> Prop) :
  (forall done i rest s, items = done ++ i :: rest -> I done s ->
     wp F (body i) (fun _ s' => I (done ++ [i]) s') E s) ->
  forall s, I [] s -> wp F (for_each items body) (fun _ s' => I items s') E s.
Proof.
  intros Hbody s H0.
  enough (G : forall rest done s, items = done ++ rest -> I done s ->
             wp F (for_each rest body) (fun _ s' => I items s') E s)
    by (now apply (G items [] s)).
  clear s H0. induction rest as [|i rest IH]; intros done s Heq HI; simpl.
  - rewrite app_nil_r in Heq. subst. exact HI.
  - apply wp_bind.
    eapply wp_mono; [| |apply (Hbody done i rest s Heq HI)]; auto.
    intros a s' HI'. apply (IH (done ++ [i])); auto.
    now rewrite <- app_assoc.
Qed.

(** The same for a loop that may be left early, in a state satisfying
    [R]. *)
Lemma wp_for_each_ok B (items : list B) (body : B -> M (State A U) bool)
    (I : list B -> State A U -> Prop) (R E : State A U -> Prop) :
  (forall done i rest s, items = done ++ i :: rest -> I done s ->
     wp F (body i) (fun ok s' => if ok then I (done ++ [i]) s' else R s') E s) ->
  forall s, I [] s ->
  wp F (for_each_ok items body)
     (fun (ok : bool) s' => if ok then I items s' else R s') E s.
Proof.
  intros Hbody s H0.
  enough (G : forall rest done s, items = done ++ rest -> I done s ->
             wp F (for_each_ok rest body)
                (fun (ok : bool) s' => if ok then I items s' else R s') E s)
    by (now apply (G items [] s)).
  clear s H0. induction rest as [|i rest IH]; intros done s Heq HI; simpl.
  - rewrite app_nil_r in Heq. subst. exact HI.
  - apply wp_bind.
    eapply wp_mono; [| |apply (Hbody done i rest s Heq HI)]; auto.
    intros [] s' HI'; [|exact HI'].
    apply (IH (done ++ [i])); auto.
    now rewrite <- app_assoc.
Qed.

Lemma equiv_for_each B (items : list B) (b1 b2 : B -> M (State A U) unit) :
  (forall i, In i items -> b1 i =~ b2 i) ->
  for_each items b1 =~ for_each items b2.
Proof.
  induction items as [|i items IH]; intros H; simpl.
  - apply equiv_refl.
  - apply equiv_bind; [apply H; now left|]. intros _. apply IH.
    intros j Hj. apply H. now right.
Qed.

Lemma equiv_for_each_ok B (items : list B) (b1 b2 : B -> M (State A U) bool) :
  (forall i, In i items -> b1 i =~ b2 i) ->
  for_each_ok items b1 =~ for_each_ok items b2.
Proof.
  induction items as [|i items IH]; intros H; simpl.
  - apply equiv_refl.
  - apply equiv_bind; [apply H; now left|]. intros [].
    + apply IH. intros j Hj. apply H. now right.
    + apply equiv_refl.
Qed.

End LoopRules.

(** ** One shape for the closures

    Whatever visitors and random source are configured, the closures built
    by [adjFunc]/[labFunc] do the same thing up to the visitor calls: mark,
    call the node visitor, fetch the slot, fix an order of its indices, and
    for each index call the arc visitor and descend. *)

Section Shape.

Variables A U : Type.
Variable tgt : A -> Z.
Variable cf : config U.

Local Abbreviation Run := (M (State A U)).

Definition pre_node (n : Z) : Run unit :=
  match nodeVisitor cf with
  | Some v => call_nodeVisitor v n
  | None => ret tt
  end.

Definition pre_arc (n : Z) (x : nat) : Run unit :=
  match arcVisitor cf with
  | Some v => call_arcVisitor v n x
  | None => ret tt
  end.

Definition pre_node_ok (n : Z) : Run bool :=
  match okNodeVisitor cf with
  | Some v => call_okNodeVisitor v n
  | None => pre_node n ;;; ret true
  end.

Definition pre_arc_ok (n : Z) (x : nat) : Run bool :=
  match okArcVisitor cf with
  | Some v => call_okArcVisitor v n x
  | None => pre_arc n x ;;; ret true
  end.

Definition order (to : list A) : Run (list nat) :=
  match rand cf with
  | Some r => Perm r (length to)
  | None => ret (seq 0 (length to))
  end.

Definition recurse_std (trav : Z -> Run unit) (n : Z) : Run unit :=
  to <- index_graph n ;;
  p <- order to ;;
  for_each p (fun x => pre_arc n x ;;; a <- index_slot to x ;; trav (tgt a)).

Definition recurse_ok_std (search : Z -> Run bool) (n : Z) : Run bool :=
  to <- index_graph n ;;
  p <- order to ;;
  for_each_ok p (fun x =>
    ok <- pre_arc_ok n x ;;
    if ok then (a <- index_slot to x ;; search (tgt a)) else ret false).

Lemma index_slot_Some (to : list A) x a :
  nth_error to x = Some a -> (index_slot to x : Run A) = ret a.
Proof. unfold index_slot. now intros ->. Qed.

Lemma for_each_range (full : list A) (body2 : nat -> A -> Run unit)
    (bodyI : nat -> Run unit) :
  (forall x a, nth_error full x = Some a -> bodyI x =~ body2 x a) ->
  forall l i, (forall j, nth_error l j = nth_error full (i + j)) ->
  for_each (combine (seq i (length l)) l) (fun xa => body2 (fst xa) (snd xa))
  =~ for_each (seq i (length l)) bodyI.
Proof.
  intros Hb. induction l as [|a l IH]; intros i Hl; simpl.
  - apply equiv_refl.
  - apply equiv_bind.
    + intros s. symmetry. apply Hb. rewrite <- (Nat.add_0_r i). now rewrite <- Hl.
    + intros _. apply IH. intros j. specialize (Hl (S j)). simpl in Hl.
      rewrite Hl. f_equal. lia.
Qed.

Lemma for_each_ok_range (full : list A) (body2 : nat -> A -> Run bool)
    (bodyI : nat -> Run bool) :
  (forall x a, nth_error full x = Some a -> bodyI x =~ body2 x a) ->
  forall l i, (forall j, nth_error l j = nth_error full (i + j)) ->
  for_each_ok (combine (seq i (length l)) l)
              (fun xa => body2 (fst xa) (snd xa))
  =~ for_each_ok (seq i (length l)) bodyI.
Proof.
  intros Hb. induction l as [|a l IH]; intros i Hl; simpl.
  - apply equiv_refl.
  - apply equiv_bind.
    + intros s. symmetry. apply Hb. rewrite <- (Nat.add_0_r i). now rewrite <- Hl.
    + intros []; [|apply equiv_refl].
      apply IH. intros j. specialize (Hl (S j)). simpl in Hl.
      rewrite Hl. f_equal. lia.
Qed.

Lemma recurseTraverse_std trav n :
  recurseTraverse tgt cf trav n =~ recurse_std trav n.
Proof.
  unfold recurseTraverse, recurse_std, randTraverse, toTraverse, order, pre_arc.
  destruct (rand cf) as [r|]; destruct (arcVisitor cf) as [v|];
    apply equiv_bind; try apply equiv_refl; intros to.
  - apply equiv_refl.
  - apply equiv_bind; [apply equiv_refl|]. intros p.
    apply equiv_for_each. intros x _ s. reflexivity.
  - intros s. unfold bind at 3. unfold ret at 1.
    apply (@for_each_range to
             (fun x a => call_arcVisitor v n x ;;; trav (tgt a))
             (fun x => call_arcVisitor v n x ;;; a <- index_slot to x ;; trav (tgt a))).
    + intros x a Hx. apply equiv_bind; [apply equiv_refl|]. intros _.
      rewrite (index_slot_Some _ _ Hx). apply bind_ret_l.
    + reflexivity.
  - intros s. unfold bind at 3. unfold ret at 1.
    apply (@for_each_range to
             (fun x a => trav (tgt a))
             (fun x => ret tt ;;; a <- index_slot to x ;; trav (tgt a))).
    + intros x a Hx s'. rewrite (index_slot_Some _ _ Hx). reflexivity.
    + reflexivity.
Qed.

Lemma recurseSearch_std search n :
  recurseSearch tgt cf search n =~ recurse_ok_std search n.
Proof.
  unfold recurseSearch, recurse_ok_std, randSearch, toSearch, order,
    pre_arc_ok, pre_arc.
  destruct (rand cf) as [r|].
  - destruct (okArcVisitor cf) as [w|]; [|destruct (arcVisitor cf) as [v|]];
      (apply equiv_bind; [apply equiv_refl|]; intros to;
       apply equiv_bind; [apply equiv_refl|]; intros p;
       apply equiv_for_each_ok; intros x _ s; reflexivity).
  - destruct (okArcVisitor cf) as [w|]; [|destruct (arcVisitor cf) as [v|]];
      (apply equiv_bind; [apply equiv_refl|]; intros to;
       intros s; unfold bind at 3; unfold ret at 1).
    + apply (@for_each_ok_range to
               (fun x a => ok <- call_okArcVisitor w n x ;;
                           if ok then search (tgt a) else ret false)
               (fun x => ok <- call_okArcVisitor w n x ;;
                         if ok then (a <- index_slot to x ;; search (tgt a))
                         else ret false)).
      * intros x a Hx. apply equiv_bind; [apply equiv_refl|]. intros [].
        -- rewrite (index_slot_Some _ _ Hx). apply bind_ret_l.
        -- apply equiv_refl.
      * reflexivity.
    + apply (@for_each_ok_range to
               (fun x a => call_arcVisitor v n x ;;; search (tgt a))
               (fun x => ok <- (call_arcVisitor v n x ;;; ret true) ;;
                         if ok then (a <- index_slot to x ;; search (tgt a))
                         else ret false)).
      * intros x a Hx s'. rewrite (index_slot_Some _ _ Hx). reflexivity.
      * reflexivity.
    + apply (@for_each_ok_range to
               (fun x a => search (tgt a))
               (fun x => ok <- (ret tt ;;; ret true) ;;
                         if ok then (a <- index_slot to x ;; search (tgt a))
                         else ret false)).
      * intros x a Hx s'. rewrite (index_slot_Some _ _ Hx). reflexivity.
      * reflexivity.
Qed.

Lemma composeTraverseVisitor_std (f : Z -> Run unit) n :
  composeTraverseVisitor cf f n =~ (pre_node n ;;; f n).
Proof.
  unfold composeTraverseVisitor, pre_node.
  destruct (nodeVisitor cf); intros s; reflexivity.
Qed.

Lemma composeSearchVisitor_std (f : Z -> Run bool) n :
  composeSearchVisitor cf f n
  =~ (ok <- pre_node_ok n ;; if ok then f n else ret false).
Proof.
  unfold composeSearchVisitor, pre_node_ok, pre_node.
  destruct (okNodeVisitor cf); destruct (nodeVisitor cf); intros s; reflexivity.
Qed.

(** One round of the recursion. *)
Definition traverse_std (trav : Z -> Run unit) (n : Z) : Run unit :=
  seen <- visitedFunc n ;;
  if seen then ret tt
  else (emit (EvVisit n) ;;; pre_node n ;;; recurse_std trav n).

Definition search_std (search : Z -> Run bool) (n : Z) : Run bool :=
  seen <- visitedFunc n ;;
  if seen then ret true
  else (emit (EvVisit n) ;;;
        ok <- pre_node_ok n ;;
        if ok then recurse_ok_std search n else ret false).

Lemma traverse_fuel_S k n :
  traverse_fuel tgt cf (S k) n =~ traverse_std (traverse_fuel tgt cf k) n.
Proof.
  simpl. unfold dfTraverseNodes_traverse, traverse_std.
  apply equiv_bind; [apply equiv_refl|]. intros [|]; [apply equiv_refl|].
  apply equiv_bind; [apply equiv_refl|]. intros _.
  intros s. rewrite composeTraverseVisitor_std.
  apply equiv_bind; [apply equiv_refl|]. intros _.
  apply recurseTraverse_std.
Qed.

Lemma search_fuel_S k n :
  search_fuel tgt cf (S k) n =~ search_std (search_fuel tgt cf k) n.
Proof.
  simpl. unfold dfSearchNodes_search, search_std.
  apply equiv_bind; [apply equiv_refl|]. intros [|]; [apply equiv_refl|].
  apply equiv_bind; [apply equiv_refl|]. intros _.
  intros s. rewrite composeSearchVisitor_std.
  apply equiv_bind; [apply equiv_refl|]. intros [|]; [|apply equiv_refl].
  apply recurseSearch_std.
Qed.

End Shape.

(** ** What every step preserves *)

Definition marked (b : Z) (n : Z) : Prop := Z.testbit b n = true.

Definition is_stop (e : Event) : bool :=
  match e with
  | EvOkNodeVisitor _ false => true
  | EvOkArcVisitor _ _ false => true
  | _ => false
  end.

Definition nostop (l : list Event) : Prop :=
  Forall (fun e => is_stop e = false) l.

Section Frame.

Variables A U : Type.
Variable tgt : A -> Z.
Variable cf : config U.

Local Abbreviation St := (State A U).

(** The number of nodes of the graph not yet marked. *)
Definition unvisited (st : St) : nat :=
  List.length
    (filter (fun k => negb (Z.testbit (st_visited st) (Z.of_nat k)))
            (seq 0 (List.length (st_graph st)))).

(** The graph is untouched and marks are only ever added. *)
Definition frame (st st' : St) : Prop :=
  st_graph st' = st_graph st /\
  forall n, marked (st_visited st) n -> marked (st_visited st') n.

(** A step that touches neither graph nor marks, visits no node and logs
    no stop. *)
Definition quiet_step (st st' : St) : Prop :=
  st_graph st' = st_graph st /\
  st_visited st' = st_visited st /\
  exists l, st_log st' = st_log st ++ l /\ visits l = [] /\ nostop l.

(** A conditional visitor answering stop. *)
Definition stop_step (st st' : St) : Prop :=
  st_graph st' = st_graph st /\
  st_visited st' = st_visited st /\
  exists e, st_log st' = st_log st ++ [e] /\ visits [e] = [] /\
            is_stop e = true.

Lemma frame_refl st : frame st st.
Proof. split; auto. Qed.

Lemma frame_trans st1 st2 st3 : frame st1 st2 -> frame st2 st3 -> frame st1 st3.
Proof.
  intros [G1 M1] [G2 M2]. split; [congruence | auto].
Qed.

Lemma quiet_frame st st' : quiet_step st st' -> frame st st'.
Proof.
  intros (G & V & _). split; auto. intros n. now rewrite V.
Qed.

Lemma stop_frame st st' : stop_step st st' -> frame st st'.
Proof.
  intros (G & V & _). split; auto. intros n. now rewrite V.
Qed.

Lemma quiet_refl st : quiet_step st st.
Proof.
  repeat split. exists []. rewrite app_nil_r. repeat split. constructor.
Qed.

Lemma quiet_unvisited st st' : quiet_step st st' -> unvisited st' = unvisited st.
Proof.
  intros (G & V & _). unfold unvisited. now rewrite G, V.
Qed.

Lemma filter_length_mono (f f' : nat -> bool) l :
  (forall k, In k l -> f' k = true -> f k = true) ->
  (List.length (filter f' l) <= List.length (filter f l))%nat.
Proof.
  induction l as [|k l IH]; intros H; simpl; auto.
  assert (IH' := IH (fun j Hj => H j (or_intror Hj))).
  specialize (H k (or_introl eq_refl)).
  destruct (f' k); destruct (f k); simpl; lia.
Qed.

Lemma filter_length_strict (f f' : nat -> bool) l k0 :
  (forall k, In k l -> f' k = true -> f k = true) ->
  In k0 l -> f k0 = true -> f' k0 = false ->
  (List.length (filter f' l) < List.length (filter f l))%nat.
Proof.
  induction l as [|k l IH]; intros H Hin Hf Hf'; simpl; [destruct Hin|].
  assert (Hl := fun j Hj => H j (or_intror Hj)).
  destruct Hin as [->|Hin].
  - rewrite Hf, Hf'. simpl. pose proof (filter_length_mono f f' l Hl). lia.
  - specialize (IH Hl Hin Hf Hf').
    specialize (H k (or_introl eq_refl)).
    destruct (f' k); destruct (f k); simpl; lia.
Qed.

Lemma frame_unvisited st st' : frame st st' -> (unvisited st' <= unvisited st)%nat.
Proof.
  intros [G Hm]. unfold unvisited. rewrite G.
  apply filter_length_mono. intros k _ Hk.
  destruct (Z.testbit (st_visited st) (Z.of_nat k)) eqn:E; auto.
  apply Hm in E. unfold marked in E. now rewrite E in Hk.
Qed.

(** The state after [visitedFunc] marked [n]. *)
Definition mark (st : St) (n : Z) : St :=
  mkState (st_graph st) (Z.setbit (st_visited st) n) (st_user st)
          (st_log st) (st_rcalls st).

Lemma marked_mark st n m :
  0 <= n -> (marked (st_visited (mark st n)) m <-> marked (st_visited st) m \/ m = n).
Proof.
  intros Hn. unfold marked, mark. simpl.
  destruct (Z.eq_dec m n) as [->|Hne].
  - rewrite Z.setbit_eq by auto. tauto.
  - rewrite Z.setbit_neq by auto. intuition.
Qed.

Lemma frame_mark st n : 0 <= n -> frame st (mark st n).
Proof.
  intros Hn. split; auto. intros m Hm. apply marked_mark; auto.
Qed.

Lemma unvisited_mark st n to :
  0 <= n -> nth_error (st_graph st) (Z.to_nat n) = Some to ->
  Z.testbit (st_visited st) n = false ->
  (unvisited (mark st n) < unvisited st)%nat.
Proof.
  intros Hn Hto Hbit. unfold unvisited. simpl.
  apply filter_length_strict with (k0 := Z.to_nat n).
  - intros k _ Hk. destruct (Z.eq_dec (Z.of_nat k) n) as [E|E].
    + rewrite E in *. rewrite Z.setbit_eq in Hk by auto. discriminate.
    + rewrite Z.setbit_neq in Hk by auto. exact Hk.
  - apply in_seq. split; [lia|]. simpl.
    apply nth_error_Some. congruence.
  - rewrite Z2Nat.id by auto. now rewrite Hbit.
  - rewrite Z2Nat.id by auto. now rewrite Z.setbit_eq.
Qed.

(** What [visitedFunc] does. *)
Lemma visitedFunc_spec F n st (Q : bool -> St -> Prop) (E : St -> Prop) :
  (n < 0 -> E st) ->
  (0 <= n -> Z.testbit (st_visited st) n = true -> Q true st) ->
  (0 <= n -> Z.testbit (st_visited st) n = false -> Q false (mark st n)) ->
  wp F (@visitedFunc A U n) Q E st.
Proof.
  intros HE HT HF. unfold wp, visitedFunc, Bits_Bit, Bits_SetBit1.
  destruct (Z.ltb_spec n 0); auto.
  destruct (Z.testbit (st_visited st) n) eqn:Hb; auto.
Qed.

Lemma emit_spec F e st (Q : unit -> St -> Prop) (E : St -> Prop) :
  Q tt (mkState (st_graph st) (st_visited st) (st_user st)
                (st_log st ++ [e]) (st_rcalls st)) ->
  wp F (@emit A U e) Q E st.
Proof. exact (fun H => H). Qed.

Lemma index_graph_spec F n st (Q : list A -> St -> Prop) (E : St -> Prop) :
  ((n < 0 \/ nth_error (st_graph st) (Z.to_nat n) = None) -> E st) ->
  (forall to, 0 <= n -> nth_error (st_graph st) (Z.to_nat n) = Some to ->
              Q to st) ->
  wp F (@index_graph A U n) Q E st.
Proof.
  intros HE HQ. unfold wp, index_graph.
  destruct (Z.ltb_spec n 0); auto.
  destruct (nth_error (st_graph st) (Z.to_nat n)) eqn:Hn; auto.
Qed.

Lemma index_slot_spec F (to : list A) x st (Q : A -> St -> Prop) (E : St -> Prop) :
  (nth_error to x = None -> E st) ->
  (forall a, nth_error to x = Some a -> Q a st) ->
  wp F (@index_slot A U to x) Q E st.
Proof.
  intros HE HQ. unfold wp, index_slot.
  destruct (nth_error to x) eqn:Hn; simpl; auto.
Qed.

Lemma quiet_one st u e r :
  is_stop e = false -> visits [e] = [] ->
  quiet_step st (mkState (st_graph st) (st_visited st) u (st_log st ++ [e]) r).
Proof.
  intros Hs Hv. split; [reflexivity|]. split; [reflexivity|].
  exists [e]. split; [reflexivity|]. split; [exact Hv|].
  constructor; [exact Hs | constructor].
Qed.

Lemma quiet_trans st1 st2 st3 :
  quiet_step st1 st2 -> quiet_step st2 st3 -> quiet_step st1 st3.
Proof.
  intros (G1 & V1 & l1 & L1 & N1 & S1) (G2 & V2 & l2 & L2 & N2 & S2).
  split; [congruence|]. split; [congruence|].
  exists (l1 ++ l2). rewrite L2, L1, app_assoc. repeat split.
  - unfold visits in *. now rewrite flat_map_app, N1, N2.
  - apply Forall_app. split; auto.
Qed.

Lemma pre_node_spec F n st (Q : unit -> St -> Prop) (E : St -> Prop) :
  (forall st', quiet_step st st' -> Q tt st') ->
  wp F (@pre_node A U cf n) Q E st.
Proof.
  intros H. unfold wp, pre_node.
  destruct (nodeVisitor cf); simpl; apply H;
    [now apply quiet_one | apply quiet_refl].
Qed.

Lemma pre_arc_spec F n x st (Q : unit -> St -> Prop) (E : St -> Prop) :
  (forall st', quiet_step st st' -> Q tt st') ->
  wp F (@pre_arc A U cf n x) Q E st.
Proof.
  intros H. unfold wp, pre_arc.
  destruct (arcVisitor cf); simpl; apply H;
    [now apply quiet_one | apply quiet_refl].
Qed.

Lemma stop_one st u e r :
  is_stop e = true -> visits [e] = [] ->
  stop_step st (mkState (st_graph st) (st_visited st) u (st_log st ++ [e]) r).
Proof.
  intros Hs Hv. repeat split. exists e. auto.
Qed.

Lemma pre_node_ok_spec F n st (Q : bool -> St -> Prop) (E : St -> Prop) :
  (forall st', quiet_step st st' -> Q true st') ->
  (forall st', stop_step st st' -> Q false st') ->
  wp F (@pre_node_ok A U cf n) Q E st.
Proof.
  intros HT HS. unfold pre_node_ok.
  destruct (okNodeVisitor cf) as [v|].
  - unfold wp, call_okNodeVisitor. simpl.
    destruct (fst (v n (st_user st))).
    + apply HT. now apply quiet_one.
    + apply HS. now apply stop_one.
  - apply wp_bind. apply pre_node_spec. intros st' Hq. now apply HT.
Qed.

Lemma pre_arc_ok_spec F n x st (Q : bool -> St -> Prop) (E : St -> Prop) :
  (forall st', quiet_step st st' -> Q true st') ->
  (forall st', stop_step st st' -> Q false st') ->
  wp F (@pre_arc_ok A U cf n x) Q E st.
Proof.
  intros HT HS. unfold pre_arc_ok.
  destruct (okArcVisitor cf) as [v|].
  - unfold wp, call_okArcVisitor. simpl.
    destruct (fst (v n x (st_user st))).
    + apply HT. now apply quiet_one.
    + apply HS. now apply stop_one.
  - apply wp_bind. apply pre_arc_spec. intros st' Hq. now apply HT.
Qed.

Lemma order_spec F (to : list A) st (Q : list nat -> St -> Prop) (E : St -> Prop) :
  (forall p st', quiet_step st st' ->
     p = match rand cf with
         | Some r => r (st_rcalls st) (List.length to)
         | None => seq 0 (List.length to)
         end -> Q p st') ->
  wp F (@order A U cf to) Q E st.
Proof.
  intros H. unfold wp, order.
  destruct (rand cf); simpl; apply H; auto; try apply quiet_refl.
  repeat split. exists []. rewrite app_nil_r. repeat split. constructor.
Qed.

End Frame.

(** ** The recursion budget suffices, whatever the input *)

Section Total.

Variables A U : Type.
Variable tgt : A -> Z.
Variable cf : config U.

Local Abbreviation St := (State A U).

(** Each nested call marks one more node of the graph, or faults at once. *)
Lemma traverse_fuel_total fuel : forall n (st : St),
  (unvisited st < fuel)%nat ->
  wp False (traverse_fuel tgt cf fuel n) (fun _ st' => frame st st')
     (fun st' => frame st st') st.
Proof.
  induction fuel as [|k IH]; intros n st Hfuel; [lia|].
  eapply wp_equiv; [apply traverse_fuel_S|]. unfold traverse_std.
  apply wp_bind. apply visitedFunc_spec.
  - intros _. apply frame_refl.
  - intros _ _. apply wp_ret, frame_refl.
  - intros Hn Hbit. pose proof (frame_mark st Hn) as Hfm.
    apply wp_bind. apply emit_spec.
    assert (Hfe : frame st (mkState (st_graph (mark st n)) (st_visited (mark st n))
                     (st_user (mark st n)) (st_log (mark st n) ++ [EvVisit n])
                     (st_rcalls (mark st n)))) by exact Hfm.
    apply wp_bind. apply pre_node_spec. intros st1 Hq1.
    assert (Hf1 : frame st st1)
      by (eapply frame_trans; [exact Hfe | apply (quiet_frame Hq1)]).
    assert (Hv1 : st_visited st1 = Z.setbit (st_visited st) n)
      by (destruct Hq1 as (_ & V & _); exact V).
    assert (Hg1 : st_graph st1 = st_graph st)
      by (destruct Hq1 as (G & _); exact G).
    unfold recurse_std. apply wp_bind. apply index_graph_spec.
    + intros _. exact Hf1.
    + intros to _ Hto.
      assert (Hlt : (unvisited st1 < k)%nat).
      { assert (unvisited st1 = unvisited (mark st n)) as ->
            by (unfold unvisited; now rewrite Hg1, Hv1).
        rewrite Hg1 in Hto.
        pose proof (unvisited_mark st Hn Hto Hbit). lia. }
      apply wp_bind. apply order_spec. intros p st2 Hq2 _.
      pose proof (quiet_unvisited Hq2) as Hu2.
      pose proof (frame_trans Hf1 (quiet_frame Hq2)) as Hf2.
      eapply wp_mono;
        [ | |apply (@wp_for_each A U False nat p _
                     (fun _ s => frame st s /\ (unvisited s < k)%nat)
                     (fun s => frame st s))].
      * intros u' s' [Hs' _]. exact Hs'.
      * auto.
      * intros done x rest s _ [Hfs Hus].
        apply wp_bind. apply pre_arc_spec. intros s1 Hq.
        pose proof (frame_trans Hfs (quiet_frame Hq)) as Hfs1.
        pose proof (quiet_unvisited Hq) as Hus1.
        apply wp_bind. apply index_slot_spec; [intros _; exact Hfs1|].
        intros a _.
        eapply wp_mono; [| |apply (IH (tgt a) s1); lia].
        -- intros u2 s2 Hf. pose proof (frame_unvisited Hf).
           split; [eapply frame_trans; eauto | lia].
        -- intros s2 Hf. eapply frame_trans; eauto.
      * split; [exact Hf2 | lia].
Qed.

Lemma search_fuel_total fuel : forall n (st : St),
  (unvisited st < fuel)%nat ->
  wp False (search_fuel tgt cf fuel n) (fun _ st' => frame st st')
     (fun st' => frame st st') st.
Proof.
  induction fuel as [|k IH]; intros n st Hfuel; [lia|].
  eapply wp_equiv; [apply search_fuel_S|]. unfold search_std.
  apply wp_bind. apply visitedFunc_spec.
  - intros _. apply frame_refl.
  - intros _ _. apply wp_ret, frame_refl.
  - intros Hn Hbit. pose proof (frame_mark st Hn) as Hfm.
    apply wp_bind. apply emit_spec.
    assert (Hfe : frame st (mkState (st_graph (mark st n)) (st_visited (mark st n))
                     (st_user (mark st n)) (st_log (mark st n) ++ [EvVisit n])
                     (st_rcalls (mark st n)))) by exact Hfm.
    apply wp_bind. apply pre_node_ok_spec.
    2:{ intros st1 Hs1. apply wp_ret.
        eapply frame_trans; [exact Hfe | apply (stop_frame Hs1)]. }
    intros st1 Hq1.
    assert (Hf1 : frame st st1)
      by (eapply frame_trans; [exact Hfe | apply (quiet_frame Hq1)]).
    assert (Hv1 : st_visited st1 = Z.setbit (st_visited st) n)
      by (destruct Hq1 as (_ & V & _); exact V).
    assert (Hg1 : st_graph st1 = st_graph st)
      by (destruct Hq1 as (G & _); exact G).
    unfold recurse_ok_std. apply wp_bind. apply index_graph_spec.
    + intros _. exact Hf1.
    + intros to _ Hto.
      assert (Hlt : (unvisited st1 < k)%nat).
      { assert (unvisited st1 = unvisited (mark st n)) as ->
            by (unfold unvisited; now rewrite Hg1, Hv1).
        rewrite Hg1 in Hto.
        pose proof (unvisited_mark st Hn Hto Hbit). lia. }
      apply wp_bind. apply order_spec. intros p st2 Hq2 _.
      pose proof (quiet_unvisited Hq2) as Hu2.
      pose proof (frame_trans Hf1 (quiet_frame Hq2)) as Hf2.
      eapply wp_mono;
        [ | |apply (@wp_for_each_ok A U False nat p _
                     (fun _ s => frame st s /\ (unvisited s < k)%nat)
                     (fun s => frame st s) (fun s => frame st s))].
      * intros [] s' Hs'; [exact (proj1 Hs') | exact Hs'].
      * auto.
      * intros done x rest s _ [Hfs Hus].
        apply wp_bind. apply pre_arc_ok_spec.
        2:{ intros s1 Hs1. apply wp_ret.
            eapply frame_trans; [exact Hfs | apply (stop_frame Hs1)]. }
        intros s1 Hq.
        pose proof (frame_trans Hfs (quiet_frame Hq)) as Hfs1.
        pose proof (quiet_unvisited Hq) as Hus1.
        apply wp_bind. apply index_slot_spec; [intros _; exact Hfs1|].
        intros a _.
        eapply wp_mono; [| |apply (IH (tgt a) s1); lia].
        -- intros ok s2 Hf. pose proof (frame_unvisited Hf).
           destruct ok; [split|]; try (eapply frame_trans; eauto); lia.
        -- intros s2 Hf. eapply frame_trans; eauto.
      * split; [exact Hf2 | lia].
Qed.

End Total.

(** ** Search mode: a stop answer ends the run *)

Section Stop.

Variables A U : Type.
Variable tgt : A -> Z.
Variable cf : config U.

Local Abbreviation St := (State A U).

(** Since [st], no visitor answered stop. *)
Definition clean (st st' : St) : Prop :=
  exists l, st_log st' = st_log st ++ l /\ nostop l.

(** Since [st], one visitor answered stop, and that was the last event. *)
Definition stopped (st st' : St) : Prop :=
  exists l e, st_log st' = st_log st ++ l ++ [e] /\ nostop l /\ is_stop e = true.

Lemma clean_refl st : clean st st.
Proof. exists []. rewrite app_nil_r. split; [reflexivity | constructor]. Qed.

Lemma clean_trans st1 st2 st3 : clean st1 st2 -> clean st2 st3 -> clean st1 st3.
Proof.
  intros (l1 & L1 & N1) (l2 & L2 & N2). exists (l1 ++ l2).
  rewrite L2, L1, app_assoc. split; auto. apply Forall_app. auto.
Qed.

Lemma clean_stopped st1 st2 st3 :
  clean st1 st2 -> stopped st2 st3 -> stopped st1 st3.
Proof.
  intros (l1 & L1 & N1) (l2 & e & L2 & N2 & He). exists (l1 ++ l2), e.
  rewrite L2, L1, !app_assoc. repeat split; auto. apply Forall_app. auto.
Qed.

Lemma quiet_clean st st' : quiet_step st st' -> clean st st'.
Proof. intros (_ & _ & l & L & _ & N). exists l. auto. Qed.

Lemma stop_stopped st st' : stop_step st st' -> stopped st st'.
Proof.
  intros (_ & _ & e & L & _ & He). exists [], e. repeat split; auto.
  constructor.
Qed.

Lemma clean_visit (st : St) n :
  clean st (mkState (st_graph (mark st n)) (st_visited (mark st n))
                    (st_user (mark st n)) (st_log (mark st n) ++ [EvVisit n])
                    (st_rcalls (mark st n))).
Proof.
  exists [EvVisit n]. split; [reflexivity|]. repeat constructor.
Qed.

Lemma search_fuel_stop fuel : forall n (st : St),
  wp True (search_fuel tgt cf fuel n)
     (fun ok st' => if ok then clean st st' else stopped st st')
     (fun st' => clean st st') st.
Proof.
  induction fuel as [|k IH]; intros n st; [exact I|].
  eapply wp_equiv; [apply search_fuel_S|]. unfold search_std.
  apply wp_bind. apply visitedFunc_spec.
  - intros _. apply clean_refl.
  - intros _ _. apply wp_ret, clean_refl.
  - intros Hn Hbit. pose proof (clean_visit st n) as Hv.
    apply wp_bind. apply emit_spec.
    apply wp_bind. apply pre_node_ok_spec.
    2:{ intros st1 Hs1. apply wp_ret.
        eapply clean_stopped; [exact Hv | apply (stop_stopped Hs1)]. }
    intros st1 Hq1.
    pose proof (clean_trans Hv (quiet_clean Hq1)) as Hc1.
    unfold recurse_ok_std. apply wp_bind. apply index_graph_spec.
    + intros _. exact Hc1.
    + intros to _ Hto.
      apply wp_bind. apply order_spec. intros p st2 Hq2 _.
      pose proof (clean_trans Hc1 (quiet_clean Hq2)) as Hc2.
      apply (@wp_for_each_ok A U True nat p _
               (fun _ s => clean st s) (fun s => stopped st s)
               (fun s => clean st s)); [|exact Hc2].
      intros done x rest s _ Hcs.
      apply wp_bind. apply pre_arc_ok_spec.
      2:{ intros s1 Hs1. apply wp_ret.
          eapply clean_stopped; [exact Hcs | apply (stop_stopped Hs1)]. }
      intros s1 Hq.
      pose proof (clean_trans Hcs (quiet_clean Hq)) as Hcs1.
      apply wp_bind. apply index_slot_spec; [intros _; exact Hcs1|].
      intros a _.
      eapply wp_mono; [| |apply (IH (tgt a) s1)].
      * intros [] s2 H2; [eapply clean_trans | eapply clean_stopped]; eauto.
      * intros s2 H2. eapply clean_trans; eauto.
Qed.

(** In a log that is clean up to a final stop, nothing follows a stop. *)
Lemma stop_is_last (l : list Event) e before e' after :
  nostop l -> l ++ [e] = before ++ e' :: after -> is_stop e' = true ->
  after = [].
Proof.
  intros Hl Heq He'.
  destruct (exists_last (l := e' :: after)) as (m & z & Hm); [discriminate|].
  destruct after as [|y after]; auto. exfalso.
  rewrite Hm, app_assoc in Heq. apply app_inj_tail in Heq as [-> _].
  destruct m as [|m0 m]; [discriminate|].
  injection Hm as <- _.
  unfold nostop in Hl. rewrite Forall_app in Hl. destruct Hl as [_ Hl].
  inversion Hl; subst. congruence.
Qed.

Lemma nostop_no_stop (l : list Event) before e' after :
  nostop l -> l = before ++ e' :: after -> is_stop e' = true -> False.
Proof.
  intros Hl -> He'. unfold nostop in Hl. rewrite Forall_app in Hl.
  destruct Hl as [_ Hl]. inversion Hl; subst. congruence.
Qed.

End Stop.

(** ** Traversal mode: the nodes visited are the reachable ones *)

Section Reach.

Variable A : Type.
Variable tgt : A -> Z.

(** [arc g u v]: slot [u] of [g] holds an entry with target [v]. *)
Definition arc (g : list (list A)) (u v : Z) : Prop :=
  0 <= u /\
  exists to, nth_error g (Z.to_nat u) = Some to /\ In v (map tgt to).

(** [reach g V a b]: a path of arcs leads from [a] to [b], none of its
    nodes (ends included) in [V]. *)
Inductive reach (g : list (list A)) (V : Z -> Prop) : Z -> Z -> Prop :=
| reach_here n : ~ V n -> reach g V n n
| reach_arc n m k : ~ V n -> arc g n m -> reach g V m k -> reach g V n k.

(** Every arc leads to a node of the graph. *)
Definition bounds_ok (g : list (list A)) : Prop :=
  forall to a, In to g -> In a to ->
    0 <= tgt a < Z.of_nat (List.length g).

Lemma reach_anti g (V V' : Z -> Prop) a b :
  (forall m, V m -> V' m) -> reach g V' a b -> reach g V a b.
Proof.
  intros HV. induction 1 as [n Hn|n m k Hn Ha _ IH].
  - apply reach_here. auto.
  - eapply reach_arc; eauto.
Qed.

Lemma reach_start g V a b : reach g V a b -> ~ V a.
Proof. now destruct 1. Qed.

Lemma arc_bounds g u v :
  bounds_ok g -> arc g u v -> 0 <= v < Z.of_nat (List.length g).
Proof.
  intros Hb (_ & to & Hto & Hv). apply in_map_iff in Hv as (a & <- & Ha).
  eapply Hb; eauto. eapply nth_error_In; eauto.
Qed.

End Reach.

(** A random source answers [Perm n] with a permutation of [0..n-1]. *)
Definition rand_ok {U} (cf : config U) : Prop :=
  forall r, rand cf = Some r ->
  forall k n, Permutation (r k n) (seq 0 n).

Section Dfs.

Variables A U : Type.
Variable tgt : A -> Z.
Variable cf : config U.
Variable g : list (list A).

Hypothesis g_bounds : bounds_ok tgt g.
Hypothesis cf_rand : rand_ok cf.

Local Abbreviation St := (State A U).

(** Between [st] and [st'] the nodes of [L] were visited, once each; they
    are the nodes newly marked, each is reachable from [root] outside [V0],
    and [Closed] of them have all their successors marked. *)
Definition grown (V0 : Z -> Prop) (root : Z) (st st' : St) (L : list Z) : Prop :=
  frame st st' /\
  visits (st_log st') = visits (st_log st) ++ L /\
  NoDup L /\
  (forall m, In m L <->
             marked (st_visited st') m /\ ~ marked (st_visited st) m) /\
  (forall m, In m L -> reach tgt g V0 root m) /\
  (forall m, In m L -> forall s, arc tgt g m s -> marked (st_visited st') s).

(** What a call [traverse n] from [st] achieves. *)
Definition dfs_post (st : St) (n : Z) (st' : St) : Prop :=
  marked (st_visited st') n /\
  exists L, grown (marked (st_visited st)) n st st' L.

Lemma grown_nil V0 root st st' :
  quiet_step st st' -> grown V0 root st st' [].
Proof.
  intros Hq. pose proof (quiet_frame Hq) as Hf.
  destruct Hq as (G & V & l & L & N & _).
  split; [exact Hf|]. split.
  { rewrite L. unfold visits in *. now rewrite flat_map_app, N, !app_nil_r. }
  split; [constructor|]. split.
  { intros m. rewrite V. simpl. tauto. }
  split; intros m [].
Qed.

(** A quiet step after a growth changes nothing. *)
Lemma grown_quiet V0 root st st1 st2 L :
  grown V0 root st st1 L -> quiet_step st1 st2 -> grown V0 root st st2 L.
Proof.
  intros (Hf & Hv & Hnd & Hin & Hr & Hc) Hq.
  pose proof (quiet_frame Hq) as Hf2.
  destruct Hq as (G & V & l & Ll & N & _).
  split; [eapply frame_trans; eauto|]. split.
  { rewrite Ll. unfold visits in *. rewrite flat_map_app, N, app_nil_r.
    exact Hv. }
  split; [exact Hnd|]. split; [intros m; rewrite V; apply Hin|].
  split; [exact Hr|]. intros m Hm s Hs. rewrite V. eapply Hc; eauto.
Qed.

(** Two growths in a row, the second below a successor [t] of the root. *)
Lemma grown_app (V0 : Z -> Prop) root t st st1 st2 L1 L2 :
  (forall m, V0 m -> marked (st_visited st1) m) ->
  ~ V0 root -> arc tgt g root t ->
  grown V0 root st st1 L1 ->
  grown (marked (st_visited st1)) t st1 st2 L2 ->
  grown V0 root st st2 (L1 ++ L2).
Proof.
  intros HV Hroot Harc (Hf1 & Hv1 & Hnd1 & Hin1 & Hr1 & Hc1)
         (Hf2 & Hv2 & Hnd2 & Hin2 & Hr2 & Hc2).
  split; [eapply frame_trans; eauto|]. split.
  { rewrite Hv2, Hv1. now rewrite app_assoc. }
  split.
  { apply NoDup_app; auto. intros m H1 H2.
    apply Hin1 in H1. apply Hin2 in H2. tauto. }
  split.
  { intros m. rewrite in_app_iff, Hin1, Hin2. split.
    - intros [[H1 H2]|[H1 H2]].
      + split; auto. now apply Hf2.
      + split; auto. intros H. apply H2. now apply Hf1.
    - intros [H1 H2].
      destruct (Z.testbit (st_visited st1) m) eqn:E.
      + left. split; auto.
      + right. split; auto. unfold marked. congruence. }
  split.
  { intros m. rewrite in_app_iff. intros [H|H]; auto.
    eapply reach_arc; eauto. eapply reach_anti; [|apply Hr2; exact H]. auto. }
  intros m. rewrite in_app_iff. intros [H|H] s Hs.
  - apply Hf2. eapply Hc1; eauto.
  - eapply Hc2; eauto.
Qed.

(** The state after [visitedFunc] marked [n] and the visit was logged. *)
Definition entered (st : St) (n : Z) : St :=
  mkState (st_graph st) (Z.setbit (st_visited st) n) (st_user st)
          (st_log st ++ [EvVisit n]) (st_rcalls st).

Lemma visits_app l1 l2 : visits (l1 ++ l2) = visits l1 ++ visits l2.
Proof. unfold visits. apply flat_map_app. Qed.

(** Once every successor of [n] has been dealt with, the call returns with
    [n] and all that grew below it. *)
Lemma grown_close (st st' : St) n to L :
  0 <= n -> Z.testbit (st_visited st) n = false ->
  st_graph st = g ->
  nth_error g (Z.to_nat n) = Some to ->
  grown (marked (st_visited st)) n (entered st n) st' L ->
  (forall a, In a to -> marked (st_visited st') (tgt a)) ->
  dfs_post st n st'.
Proof.
  intros Hn Hbit Hg Hto (Hf & Hv & Hnd & Hin & Hr & Hc) Hall.
  assert (Hme : forall m, marked (st_visited (entered st n)) m <->
                          marked (st_visited st) m \/ m = n)
    by (intros m; apply (marked_mark st); auto).
  assert (Hnn : ~ marked (st_visited st) n)
    by (unfold marked; congruence).
  assert (Hn' : marked (st_visited st') n)
    by (apply Hf, Hme; auto).
  split; [exact Hn'|]. exists (n :: L).
  split.
  { eapply frame_trans; [|exact Hf]. split; auto.
    intros m Hm. apply Hme. auto. }
  split.
  { rewrite Hv. simpl. rewrite visits_app. simpl. now rewrite <- app_assoc. }
  split.
  { constructor; auto. intros H. apply Hin in H. apply (proj2 H).
    apply Hme. auto. }
  split.
  { intros m. simpl. rewrite Hin, Hme. split.
    - intros [<-|[H1 H2]]; split; auto.
    - intros [H1 H2]. destruct (Z.eq_dec n m); [now left|right].
      split; auto. intros [H|H]; auto. }
  split.
  { intros m [<-|H]; [now apply reach_here | auto]. }
  intros m [<-|H] s Hs; [|eapply Hc; eauto].
  destruct Hs as (_ & to' & Hto' & Hs).
  assert (to' = to) as -> by congruence.
  apply in_map_iff in Hs as (a & <- & Ha). auto.
Qed.

Lemma traverse_fuel_dfs fuel : forall n (st : St),
  st_graph st = g -> 0 <= n < Z.of_nat (List.length g) ->
  wp True (traverse_fuel tgt cf fuel n) (fun _ st' => dfs_post st n st')
     (fun _ => False) st.
Proof.
  induction fuel as [|k IH]; intros n st Hg Hn; [exact I|].
  eapply wp_equiv; [apply traverse_fuel_S|]. unfold traverse_std.
  apply wp_bind. apply visitedFunc_spec.
  - lia.
  - intros _ Hbit. apply wp_ret. split; [exact Hbit|].
    exists []. apply grown_nil, quiet_refl.
  - intros Hn0 Hbit.
    apply wp_bind. apply emit_spec.
    apply wp_bind. apply pre_node_spec. intros st1 Hq1.
    change (quiet_step (entered st n) st1) in Hq1.
    unfold recurse_std. apply wp_bind.
    assert (Hg1 : st_graph st1 = g)
      by (destruct Hq1 as (G & _); rewrite G; exact Hg).
    apply index_graph_spec.
    { rewrite Hg1. intros [H|H]; [lia|].
      apply nth_error_None in H. lia. }
    intros to _ Hto. rewrite Hg1 in Hto.
    apply wp_bind. apply order_spec. intros p st2 Hq2 Hp.
    assert (Hperm : Permutation p (seq 0 (List.length to))).
    { rewrite Hp. destruct (rand cf) as [r|] eqn:Hr; [|reflexivity].
      now apply cf_rand. }
    set (V0 := marked (st_visited st)).
    assert (HV0e : forall m, V0 m -> marked (st_visited (entered st n)) m)
      by (intros m Hm; apply (marked_mark st); auto).
    assert (Hroot : ~ V0 n) by (unfold V0, marked; congruence).
    eapply wp_mono;
      [ | |apply (@wp_for_each A U True nat p _
                   (fun done s =>
                      exists L, grown V0 n (entered st n) s L /\
                        forall x a, In x done -> nth_error to x = Some a ->
                                    marked (st_visited s) (tgt a))
                   (fun _ => False))].
    + intros u s' (L & HL & Hdone).
      eapply grown_close; eauto.
      intros a Ha. apply In_nth_error in Ha as (x & Hx).
      apply (Hdone x a); auto.
      apply (Permutation_in _ (Permutation_sym Hperm)).
      apply in_seq. split; [lia|]. simpl. apply nth_error_Some. congruence.
    + auto.
    + intros done x rest s Hitems (L & HL & Hdone).
      apply wp_bind. apply pre_arc_spec. intros s1 Hq.
      pose proof (grown_quiet HL Hq) as HL1.
      assert (Hgs1 : st_graph s1 = g).
      { destruct HL1 as ((G & _) & _). rewrite G. exact Hg. }
      assert (Hv1 : st_visited s1 = st_visited s)
        by (destruct Hq as (_ & V & _); exact V).
      apply wp_bind. apply index_slot_spec.
      { intros Hnone. apply nth_error_None in Hnone.
        assert (In x (seq 0 (List.length to))) as Hx.
        { apply (Permutation_in _ Hperm). rewrite Hitems.
          apply in_or_app. right. now left. }
        apply in_seq in Hx. lia. }
      intros a Ha.
      assert (Harc : arc tgt g n (tgt a)).
      { split; [lia|]. exists to. split; auto. apply in_map.
        eapply nth_error_In; eauto. }
      eapply wp_mono; [| |apply (IH (tgt a) s1 Hgs1)].
      * intros u s2 (Hma & L2 & HL2). exists (L ++ L2). split.
        -- apply (@grown_app V0 n (tgt a) (entered st n) s1 s2 L L2);
             [ | exact Hroot | exact Harc | exact HL1 | exact HL2 ].
           intros m Hm. destruct HL1 as ((_ & Hfm) & _). auto.
        -- intros x' a' Hx' Ha'. apply in_app_or in Hx' as [Hx'|[<-|[]]].
           ++ destruct HL2 as ((_ & Hfm) & _). apply Hfm.
              rewrite Hv1. eapply Hdone; eauto.
           ++ assert (a' = a) as -> by congruence. exact Hma.
      * auto.
      * eapply arc_bounds; eauto.
    + exists []. split; [|intros x a []].
      apply grown_nil. eapply quiet_trans; eauto.
Qed.

(** From a start node, what is visited is what can be reached without
    passing a node marked beforehand. *)
Lemma grown_reach (st st' : St) n L :
  grown (marked (st_visited st)) n st st' L ->
  marked (st_visited st') n ->
  forall m, In m L <-> reach tgt g (marked (st_visited st)) n m.
Proof.
  intros (Hf & Hv & Hnd & Hin & Hr & Hc) Hn m. split; [apply Hr|].
  intros H.
  assert (G : forall a b, reach tgt g (marked (st_visited st)) a b ->
                          In a L -> In b L).
  { clear m H. induction 1 as [a Ha|a b c Ha Hab Hbc IH]; auto.
    intros HaL. apply IH. apply Hin. split.
    - eapply Hc; eauto.
    - eapply reach_start; eauto. }
  apply (G n m H). apply Hin. split; auto. eapply reach_start; eauto.
Qed.

(** With arcs and start in range, search mode does not fault either. *)
Lemma search_fuel_safe fuel : forall n (st : St),
  st_graph st = g -> 0 <= n < Z.of_nat (List.length g) ->
  wp True (search_fuel tgt cf fuel n) (fun _ st' => st_graph st' = g)
     (fun _ => False) st.
Proof.
  induction fuel as [|k IH]; intros n st Hg Hn; [exact I|].
  eapply wp_equiv; [apply search_fuel_S|]. unfold search_std.
  apply wp_bind. apply visitedFunc_spec.
  - lia.
  - intros _ _. apply wp_ret. exact Hg.
  - intros Hn0 Hbit.
    apply wp_bind. apply emit_spec.
    apply wp_bind. apply pre_node_ok_spec.
    2:{ intros st1 (G & _). apply wp_ret. rewrite G. exact Hg. }
    intros st1 Hq1.
    assert (Hg1 : st_graph st1 = g)
      by (destruct Hq1 as (G & _); rewrite G; exact Hg).
    unfold recurse_ok_std. apply wp_bind. apply index_graph_spec.
    { rewrite Hg1. intros [H|H]; [lia|].
      apply nth_error_None in H. lia. }
    intros to _ Hto. rewrite Hg1 in Hto.
    apply wp_bind. apply order_spec. intros p st2 Hq2 Hp.
    assert (Hperm : Permutation p (seq 0 (List.length to))).
    { rewrite Hp. destruct (rand cf) as [r|] eqn:Hr; [|reflexivity].
      now apply cf_rand. }
    eapply wp_mono;
      [ | |apply (@wp_for_each_ok A U True nat p _
                   (fun _ s => st_graph s = g) (fun s => st_graph s = g)
                   (fun _ => False))].
    + intros [] s' Hs'; exact Hs'.
    + auto.
    + intros done x rest s Hitems Hgs.
      apply wp_bind. apply pre_arc_ok_spec.
      2:{ intros s1 (G & _). apply wp_ret. rewrite G. exact Hgs. }
      intros s1 (G & _).
      apply wp_bind. apply index_slot_spec.
      { intros Hnone. apply nth_error_None in Hnone.
        assert (In x (seq 0 (List.length to))) as Hx.
        { apply (Permutation_in _ Hperm). rewrite Hitems.
          apply in_or_app. right. now left. }
        apply in_seq in Hx. lia. }
      intros a Ha.
      eapply wp_mono; [| |apply (IH (tgt a) s1)].
      * intros [] s2 H2; exact H2.
      * auto.
      * rewrite G. exact Hgs.
      * eapply g_bounds; eapply nth_error_In; eauto.
    + destruct Hq2 as (G & _). rewrite G. exact Hg1.
Qed.

End Dfs.

(** ** What the engine does not depend on, and does not touch *)

Section Independence.

Variables A U : Type.
Variable tgt : A -> Z.

Local Abbreviation St := (State A U).

(** Modelled from the spec: the option supplying an external visited
    bitset (the option constructors are declared outside df.go). *)
Definition set_visited (b : Z) (cf : config U) : config U :=
  mkConfig (nodeVisitor cf) (okNodeVisitor cf) (arcVisitor cf)
           (okArcVisitor cf) (Some b) (rand cf).

(** The closures never look at [cf.visited]: the bitset is read from the
    store. *)
Lemma traverse_fuel_set_visited b (cf : config U) fuel :
  traverse_fuel tgt (set_visited b cf) fuel = traverse_fuel tgt cf fuel.
Proof.
  induction fuel as [|k IH]; simpl; [reflexivity|]. now rewrite IH.
Qed.

Lemma search_fuel_set_visited b (cf : config U) fuel :
  search_fuel tgt (set_visited b cf) fuel = search_fuel tgt cf fuel.
Proof.
  induction fuel as [|k IH]; simpl; [reflexivity|]. now rewrite IH.
Qed.

Lemma func_set_visited b (cf : config U) fuel :
  func tgt (set_visited b cf) fuel = func tgt cf fuel.
Proof.
  unfold func. simpl.
  now rewrite traverse_fuel_set_visited, search_fuel_set_visited.
Qed.

(** No visitor configured at all. *)
Definition no_visitors (cf : config U) : Prop :=
  nodeVisitor cf = None /\ okNodeVisitor cf = None /\
  arcVisitor cf = None /\ okArcVisitor cf = None.

(** Without visitors the caller's state is out of reach of the engine. *)
Lemma traverse_fuel_user (cf : config U) fuel : no_visitors cf ->
  forall n (st : St),
  wp True (traverse_fuel tgt cf fuel n)
     (fun _ st' => st_user st' = st_user st)
     (fun st' => st_user st' = st_user st) st.
Proof.
  intros (Hnv & _ & Hav & _).
  induction fuel as [|k IH]; intros n st; [exact I|].
  eapply wp_equiv; [apply traverse_fuel_S|]. unfold traverse_std.
  apply wp_bind. apply visitedFunc_spec; try reflexivity.
  intros _ _. apply wp_bind. apply emit_spec.
  apply wp_bind. unfold pre_node. rewrite Hnv. apply wp_ret.
  unfold recurse_std. apply wp_bind. apply index_graph_spec; [reflexivity|].
  intros to _ _. apply wp_bind.
  assert (Hord : forall (Q : list nat -> St -> Prop) s,
             (forall p s', st_user s' = st_user s -> Q p s') ->
             wp True (order cf to) Q (fun _ => False) s).
  { intros Q s HQ. unfold wp, order. destruct (rand cf); simpl; apply HQ; auto. }
  eapply wp_mono; [| |apply Hord]; [intros ? ? H; exact H|contradiction|].
  intros p s' Hs'.
  eapply wp_mono;
    [ | |apply (@wp_for_each A U True nat p _
                 (fun _ s => st_user s = st_user st)
                 (fun s => st_user s = st_user st))].
  - intros ? ? H. exact H.
  - auto.
  - intros done x rest s _ Hs. apply wp_bind. unfold pre_arc. rewrite Hav.
    apply wp_ret. apply wp_bind. apply index_slot_spec; [auto|].
    intros a _. eapply wp_mono; [| |apply IH]; simpl; intros; congruence.
  - exact Hs'.
Qed.

End Independence.

(** ** The closure handed to [Search] *)

Section Run.

Variables A U : Type.
Variable tgt : A -> Z.
Variable cf : config U.
Variable t : list (list A).
Variable b : Z.
Variable u0 : U.
Variable start : Z.

Local Abbreviation St := (State A U).

Let st0 : St := mkState t b u0 [] 0.

Lemma unvisited_init : (unvisited st0 < S (List.length t))%nat.
Proof.
  unfold unvisited. simpl.
  pose proof (filter_length_le
                (fun k => negb (Z.testbit b (Z.of_nat k)))
                (seq 0 (List.length t))) as H.
  rewrite length_seq in H. lia.
Qed.

Lemma func_total :
  wp False (func tgt cf (S (List.length t)) start)
     (fun _ st' => frame st0 st') (fun st' => frame st0 st') st0.
Proof.
  pose proof unvisited_init as Hu. unfold func.
  destruct (okNodeVisitor cf); [|destruct (okArcVisitor cf)];
    try (apply wp_bind;
         eapply wp_mono; [| |apply search_fuel_total; exact Hu]; auto;
         intros ? ? H; apply wp_ret; exact H).
  apply traverse_fuel_total. exact Hu.
Qed.

Lemma func_stop :
  okNodeVisitor cf <> None \/ okArcVisitor cf <> None ->
  wp True (func tgt cf (S (List.length t)) start)
     (fun _ st' => clean st0 st' \/ stopped st0 st')
     (fun st' => clean st0 st') st0.
Proof.
  intros Hmode. unfold func.
  destruct (okNodeVisitor cf); [|destruct (okArcVisitor cf)];
    try (apply wp_bind;
         eapply wp_mono; [| |apply search_fuel_stop]; auto;
         intros [] ? H; apply wp_ret; auto).
  destruct Hmode; congruence.
Qed.

Lemma func_user :
  no_visitors cf ->
  wp True (func tgt cf (S (List.length t)) start)
     (fun _ st' => st_user st' = u0) (fun st' => st_user st' = u0) st0.
Proof.
  intros Hnv. pose proof Hnv as (_ & Hon & _ & Hoa). unfold func.
  rewrite Hon, Hoa. now apply traverse_fuel_user.
Qed.

Hypothesis t_bounds : bounds_ok tgt t.
Hypothesis cf_rand : rand_ok cf.
Hypothesis start_range : 0 <= start < Z.of_nat (List.length t).

Lemma func_safe :
  wp True (func tgt cf (S (List.length t)) start)
     (fun _ _ => True) (fun _ => False) st0.
Proof.
  unfold func.
  destruct (okNodeVisitor cf); [|destruct (okArcVisitor cf)];
    try (apply wp_bind;
         eapply wp_mono; [| |apply (@search_fuel_safe A U tgt cf t)]; auto;
         intros ? ? H; apply wp_ret; exact I).
  eapply wp_mono; [| |apply (@traverse_fuel_dfs A U tgt cf t)]; auto.
Qed.

Lemma func_dfs :
  okNodeVisitor cf = None -> okArcVisitor cf = None ->
  wp True (func tgt cf (S (List.length t)) start)
     (fun _ st' =>
        exists L, visits (st_log st') = L /\ NoDup L /\
          (forall n, In n L <-> reach tgt t (marked b) start n) /\
          (forall n, marked (st_visited st') n <-> marked b n \/ In n L))
     (fun _ => False) st0.
Proof.
  intros Hon Hoa. unfold func. rewrite Hon, Hoa.
  eapply wp_mono; [| |apply (@traverse_fuel_dfs A U tgt cf t)]; auto.
  intros _ st' (Hm & L & HL). exists L.
  pose proof (grown_reach HL Hm) as Hreach.
  destruct HL as ((_ & Hf) & Hv & Hnd & Hin & _). simpl in *.
  repeat split; auto; try apply Hreach.
  - intros H. destruct (Z.testbit b n) eqn:E; [now left|right].
    apply Hin. split; auto. unfold marked. congruence.
  - intros [H|H]; [now apply Hf | now apply Hin].
Qed.

End Run.

(** Plain reachability is reachability that avoids marks, when no
    reachable node is marked. *)
Lemma reach_clear A (tgt : A -> Z) (g : list (list A)) (V : Z -> Prop) a :
  (forall n, reach tgt g (fun _ => False) a n -> ~ V n) ->
  forall n, reach tgt g V a n <-> reach tgt g (fun _ => False) a n.
Proof.
  intros Hclear n. split.
  - apply reach_anti. contradiction.
  - intros H. revert Hclear.
    induction H as [x _|x y z _ Hxy Hyz IH]; intros Hclear.
    + apply reach_here. apply Hclear. now apply reach_here.
    + apply reach_arc with y; auto.
      * apply Hclear. now apply reach_here.
      * apply IH. intros w Hw. apply Hclear.
        apply reach_arc with y; auto.
Qed.

(** ** Graphs as [Search] receives them *)

Definition Order (g : GraphArg) : nat :=
  match g with
  | AdjArg t => List.length t
  | LabArg t => List.length t
  | OtherArg => O
  end.

Definition InRange (g : GraphArg) (n : Z) : Prop :=
  0 <= n < Z.of_nat (Order g).

Definition BoundsOk (g : GraphArg) : Prop :=
  match g with
  | AdjArg t => bounds_ok adjTo t
  | LabArg t => bounds_ok To t
  | OtherArg => True
  end.

(** [Reach g V a b]: [b] can be reached from [a] along arcs of [g] without
    meeting a node of [V]. *)
Definition Reach (g : GraphArg) (V : Z -> Prop) (a b : Z) : Prop :=
  match g with
  | AdjArg t => reach adjTo t V a b
  | LabArg t => reach To t V a b
  | OtherArg => False
  end.

Definition Reachable (g : GraphArg) (a b : Z) : Prop :=
  Reach g (fun _ => False) a b.

(** The visitor configuration is contradictory. *)
Definition conflicting {U} (cf : config U) : Prop :=
  (nodeVisitor cf <> None /\ okNodeVisitor cf <> None) \/
  (arcVisitor cf <> None /\ okArcVisitor cf <> None).

Lemma Search_cf_conflict U (g : GraphArg) start (cf : config U) u0 :
  conflicting cf ->
  exists msg,
    Search_cf g start cf u0
    = mkResult (Returned (Some msg)) g (bits_in_use cf) u0 [].
Proof.
  unfold conflicting, Search_cf, errors_New.
  destruct (nodeVisitor cf), (okNodeVisitor cf), (arcVisitor cf),
    (okArcVisitor cf); intros [[H1 H2]|[H1 H2]]; try congruence; eauto.
Qed.

Lemma Search_cf_run U (g : GraphArg) start (cf : config U) u0 :
  ~ conflicting cf ->
  Search_cf g start cf u0
  = match g with
    | AdjArg t =>
        finish AdjArg
          (adjFunc cf (S (List.length t)) start
                   (mkState t (bits_in_use cf) u0 [] 0))
          (mkState t (bits_in_use cf) u0 [] 0)
    | LabArg t =>
        finish LabArg
          (labFunc cf (S (List.length t)) start
                   (mkState t (bits_in_use cf) u0 [] 0))
          (mkState t (bits_in_use cf) u0 [] 0)
    | OtherArg =>
        mkResult (Returned (errors_New "invalid graph type"))
                 g (bits_in_use cf) u0 []
    end.
Proof.
  unfold conflicting, Search_cf, bits_in_use. intros Hc.
  destruct (nodeVisitor cf), (okNodeVisitor cf), (arcVisitor cf),
    (okArcVisitor cf); try reflexivity;
    exfalso; apply Hc; (left + right); split; congruence.
Qed.

Lemma conflicting_dec U (cf : config U) : conflicting cf \/ ~ conflicting cf.
Proof.
  unfold conflicting.
  destruct (nodeVisitor cf), (okNodeVisitor cf), (arcVisitor cf),
    (okArcVisitor cf);
    solve [ left; left; split; discriminate
          | left; right; split; discriminate
          | right; intros [[H1 H2]|[H1 H2]]; congruence ].
Qed.

Section RunFacts.

Variables A U : Type.
Variable tgt : A -> Z.
Variable wrap : list (list A) -> GraphArg.
Variable cf : config U.
Variable t : list (list A).
Variable b : Z.
Variable u0 : U.
Variable start : Z.

Let st0 : State A U := mkState t b u0 [] 0.
Let r : Result U := finish wrap (func tgt cf (S (List.length t)) start st0) st0.

Lemma run_frame :
  res_status r <> Exhausted /\
  res_graph r = wrap t /\
  (forall n, marked b n -> marked (res_visited r) n) /\
  (no_visitors cf -> res_user r = u0).
Proof.
  pose proof (@func_total A U tgt cf t b u0 start) as Ht.
  assert (Hu : no_visitors cf ->
               wp True (func tgt cf (S (List.length t)) start)
                  (fun _ st' => st_user st' = u0)
                  (fun st' => st_user st' = u0) st0)
    by (apply func_user).
  unfold wp in Ht, Hu. subst r. unfold finish. fold st0 in Ht.
  destruct (func tgt cf (S (List.length t)) start st0) as [[] st'|st'|];
    simpl; [| |contradiction];
    (destruct Ht as [G Hm]; rewrite G; repeat split; auto; discriminate).
Qed.

Lemma run_stop :
  okNodeVisitor cf <> None \/ okArcVisitor cf <> None ->
  forall before e after,
    res_log r = before ++ e :: after -> is_stop e = true ->
    after = [] /\ res_status r = Returned None.
Proof.
  intros Hmode before e after.
  pose proof (@func_total A U tgt cf t b u0 start) as Ht.
  pose proof (@func_stop A U tgt cf t b u0 start Hmode) as Hs.
  unfold wp in Ht, Hs. subst r. unfold finish. fold st0 in Ht, Hs.
  destruct (func tgt cf (S (List.length t)) start st0) as [[] st'|st'|];
    simpl; [| |contradiction]; intros Hlog He.
  - split; auto. destruct Hs as [(l & L & N)|(l & e0 & L & N & He0)];
      simpl in L; rewrite Hlog in L.
    + exfalso. eapply nostop_no_stop; eauto.
    + eapply stop_is_last; eauto.
  - exfalso. destruct Hs as (l & L & N). simpl in L. rewrite Hlog in L.
    eapply nostop_no_stop; eauto.
Qed.

Hypothesis t_bounds : bounds_ok tgt t.
Hypothesis cf_rand : rand_ok cf.
Hypothesis start_range : 0 <= start < Z.of_nat (List.length t).

Lemma run_safe : res_status r = Returned None.
Proof.
  pose proof (@func_total A U tgt cf t b u0 start) as Ht.
  pose proof (@func_safe A U tgt cf t b u0 start t_bounds cf_rand start_range) as Hs.
  unfold wp in Ht, Hs. subst r. unfold finish. fold st0 in Ht, Hs.
  destruct (func tgt cf (S (List.length t)) start st0) as [[] st'|st'|];
    simpl; auto; contradiction.
Qed.

Lemma run_dfs :
  okNodeVisitor cf = None -> okArcVisitor cf = None ->
  NoDup (visits (res_log r)) /\
  (forall n, In n (visits (res_log r)) <-> reach tgt t (marked b) start n) /\
  (forall n, marked (res_visited r) n <->
             marked b n \/ reach tgt t (marked b) start n).
Proof.
  intros Hon Hoa.
  pose proof (@func_total A U tgt cf t b u0 start) as Ht.
  pose proof (@func_dfs A U tgt cf t b u0 start t_bounds cf_rand start_range Hon Hoa) as Hd.
  unfold wp in Ht, Hd. subst r. unfold finish. fold st0 in Ht, Hd.
  destruct (func tgt cf (S (List.length t)) start st0) as [[] st'|st'|];
    simpl; try contradiction.
  destruct Hd as (L & <- & Hnd & HL & Hm). repeat split; auto; try apply HL.
  - intros H. apply Hm in H. now rewrite <- HL.
  - intros H. apply Hm. now rewrite HL.
Qed.

End RunFacts.

(** Bounds of a literal graph, by enumeration. *)
Ltac literal_bounds :=
  let to := fresh "to" in
  let a := fresh "a" in
  let Hto := fresh "Hto" in
  let Ha := fresh "Ha" in
  intros to a Hto Ha; simpl in Hto;
  repeat (destruct Hto as [<-|Hto];
          [simpl in Ha;
           repeat (destruct Ha as [<-|Ha]; [unfold adjTo; simpl; lia|]); destruct Ha|]);
  destruct Hto.

(** ** The statements about [Search] *)

(** C9.  Whatever the graph and the options, the graph [Search] was given
    is the graph the caller finds afterwards; marks of the visited bitset
    are only added; and unless a visitor is configured the caller's own
    state is as it was. *)
Theorem Search_leaves_graph U (g : GraphArg) (start : Z)
    (options : list (config U -> config U)) (u0 : U) :
  let cf := configure options in
  let r := Search g start options u0 in
  res_graph r = g /\
  (forall n, marked (bits_in_use cf) n -> marked (res_visited r) n) /\
  (no_visitors cf -> res_user r = u0).
Proof.
  intros cf r. subst r. unfold Search. fold cf.
  destruct (conflicting_dec cf) as [Hc|Hc].
  - destruct (Search_cf_conflict g start u0 Hc) as (msg & ->). simpl. auto.
  - rewrite Search_cf_run by auto. destruct g as [t|t|]; simpl; auto.
    + destruct (@run_frame Z U adjTo AdjArg cf t (bits_in_use cf)
                  u0 start) as (_ & G & M & Us). auto.
    + destruct (@run_frame Half U To LabArg cf t (bits_in_use cf)
                  u0 start) as (_ & G & M & Us). auto.
Qed.

Lemma Search_leaves_graph_witness :
  let g := AdjArg [[1; 2]; [2]; [0]] in
  let r := Search g 0 (@nil (config unit -> config unit)) tt in
  res_graph r = g /\
  (forall n, marked (bits_in_use (configure (@nil (config unit -> config unit)))) n ->
             marked (res_visited r) n) /\
  (no_visitors (configure (@nil (config unit -> config unit))) ->
   res_user r = tt).
Proof.
  exact (@Search_leaves_graph unit (AdjArg [[1; 2]; [2]; [0]]) 0 [] tt).
Defined.

(** C4 (as the code has it).  A contradictory visitor configuration or a
    graph of another type makes [Search] return an error with nothing
    visited, no visitor called and nothing changed.  Otherwise no error is
    ever returned; the call returns [nil] when arcs and start are in range
    and the random source deals permutations, and it may fault when they
    are not. *)
Theorem Search_errors U (g : GraphArg) (start : Z)
    (options : list (config U -> config U)) (u0 : U) :
  let cf := configure options in
  let r := Search g start options u0 in
  ((conflicting cf \/ g = OtherArg) ->
     (exists msg, res_status r = Returned (Some msg)) /\
     res_log r = [] /\ res_user r = u0 /\
     res_visited r = bits_in_use cf /\ res_graph r = g) /\
  (~ (conflicting cf \/ g = OtherArg) ->
     (forall msg, res_status r <> Returned (Some msg)) /\
     res_status r <> Exhausted /\
     (BoundsOk g -> InRange g start -> rand_ok cf ->
      res_status r = Returned None)).
Proof.
  intros cf r. subst r. unfold Search. fold cf. split.
  - intros Herr. destruct (conflicting_dec cf) as [Hc|Hc].
    + destruct (Search_cf_conflict g start u0 Hc) as (msg & ->). simpl.
      repeat split; eauto.
    + destruct Herr as [Hc'| ->]; [contradiction|].
      rewrite Search_cf_run by auto. simpl. repeat split; eauto.
  - intros Hok.
    assert (Hc : ~ conflicting cf) by tauto.
    rewrite Search_cf_run by auto.
    destruct g as [t|t|]; [| |tauto].
    + split; [|split].
      * intros msg. unfold finish.
        destruct (adjFunc cf (S (List.length t)) start _) as [[] ?|?|];
          discriminate.
      * apply (@run_frame Z U adjTo AdjArg cf t (bits_in_use cf)
                 u0 start).
      * intros Hb Hr Hrand. now apply run_safe.
    + split; [|split].
      * intros msg. unfold finish.
        destruct (labFunc cf (S (List.length t)) start _) as [[] ?|?|];
          discriminate.
      * apply (@run_frame Half U To LabArg cf t (bits_in_use cf) u0 start).
      * intros Hb Hr Hrand. now apply run_safe.
Qed.

Lemma configure_app U (options : list (config U -> config U)) o :
  configure (options ++ [o]) = o (configure options).
Proof. unfold configure. now rewrite fold_left_app. Qed.

Lemma Search_cf_set_visited U (g : GraphArg) start (cf : config U) u0 :
  visited cf = None ->
  Search_cf g start cf u0 = Search_cf g start (set_visited Bits_zero cf) u0.
Proof.
  intros Hv. unfold Search_cf, bits_in_use, adjFunc, labFunc.
  destruct g as [t|t|]; rewrite ?func_set_visited;
    cbn [set_visited nodeVisitor okNodeVisitor arcVisitor okArcVisitor visited];
    now rewrite Hv.
Qed.

(** C2.  In search mode nothing follows a stop: once a conditional node
    or arc visitor has answered stop, the log of the call holds no further
    visit and no further visitor call, and [Search] has returned.  The call
    ends in every case. *)
Theorem Search_stop_final U (g : GraphArg) (start : Z)
    (options : list (config U -> config U)) (u0 : U) :
  let cf := configure options in
  let r := Search g start options u0 in
  okNodeVisitor cf <> None \/ okArcVisitor cf <> None ->
  res_status r <> Exhausted /\
  forall before e after,
    res_log r = before ++ e :: after -> is_stop e = true ->
    after = [] /\ res_status r = Returned None.
Proof.
  intros cf r Hmode. subst r. unfold Search. fold cf.
  destruct (conflicting_dec cf) as [Hc|Hc].
  - destruct (Search_cf_conflict g start u0 Hc) as (msg & ->). simpl.
    split; [discriminate|]. intros [|? ?] ? ? H; discriminate.
  - rewrite Search_cf_run by auto. destruct g as [t|t|].
    + split.
      * apply (@run_frame Z U adjTo AdjArg cf t (bits_in_use cf)
                 u0 start).
      * now apply run_stop.
    + split.
      * apply (@run_frame Half U To LabArg cf t (bits_in_use cf) u0 start).
      * now apply run_stop.
    + simpl. split; [discriminate|]. intros [|? ?] ? ? H; discriminate.
Qed.

(** Modelled from the spec: the options naming the visitors (the error
    texts of [Search] give their names; they are declared outside df.go). *)
Definition NodeVisitor {U} (v : Z -> U -> U) (cf : config U) : config U :=
  mkConfig (Some v) (okNodeVisitor cf) (arcVisitor cf) (okArcVisitor cf)
           (visited cf) (rand cf).

Definition OkNodeVisitor {U} (v : Z -> U -> bool * U) (cf : config U)
  : config U :=
  mkConfig (nodeVisitor cf) (Some v) (arcVisitor cf) (okArcVisitor cf)
           (visited cf) (rand cf).

Definition ArcVisitor {U} (v : Z -> nat -> U -> U) (cf : config U) : config U :=
  mkConfig (nodeVisitor cf) (okNodeVisitor cf) (Some v) (okArcVisitor cf)
           (visited cf) (rand cf).

Definition OkArcVisitor {U} (v : Z -> nat -> U -> bool * U) (cf : config U)
  : config U :=
  mkConfig (nodeVisitor cf) (okNodeVisitor cf) (arcVisitor cf) (Some v)
           (visited cf) (rand cf).

(** Modelled from the spec: the option configuring a random source. *)
Definition Rand {U} (r : nat -> nat -> list nat) (cf : config U) : config U :=
  mkConfig (nodeVisitor cf) (okNodeVisitor cf) (arcVisitor cf)
           (okArcVisitor cf) (visited cf) (Some r).

Example Search_random_order :
  visits (res_log (Search (AdjArg [[1; 2]; [2]; [0]; [1]]) 0
                     [Rand (fun _ n => rev (seq 0 n))] tt))
  = [0; 2; 1].
Proof. reflexivity. Qed.

Example Search_arc_stop :
  res_log (Search (AdjArg [[1; 2]; []; []]) 0
             [OkArcVisitor (fun _ x (u : unit) => (Nat.eqb x 0, u))] tt)
  = [EvVisit 0; EvOkArcVisitor 0 0 true; EvVisit 1; EvOkArcVisitor 0 1 false].
Proof. reflexivity. Qed.

Example Search_conflict :
  res_status (Search (AdjArg [[]]) 0
                [NodeVisitor (fun _ u => u); OkNodeVisitor (fun _ u => (true, u))]
                tt)
  = Returned (Some "NodeVisitor and OkNodeVisitor cannot both be specified"%string).
Proof. reflexivity. Qed.

Lemma Search_stop_final_witness :
  let g := AdjArg [[1; 3]; [2]; []; []] in
  let stop_at_1 := OkNodeVisitor (fun n (u : unit) => (negb (n =? 1), u)) in
  let r := Search g 0 [stop_at_1] tt in
  res_log r = [EvVisit 0; EvOkNodeVisitor 0 true; EvVisit 1]
              ++ EvOkNodeVisitor 1 false :: [] /\
  (@nil Event = [] /\ res_status r = Returned None).
Proof.
  intros g stop_at_1 r. split; [reflexivity|].
  apply (proj2 (@Search_stop_final unit g 0 [stop_at_1] tt
                  (or_introl (fun H => eq_ind (Some (fun n u => (negb (n =? 1), u)))
                                         (fun o => match o with Some _ => True | None => False end)
                                         I None H)))
               [EvVisit 0; EvOkNodeVisitor 0 true; EvVisit 1]
               (EvOkNodeVisitor 1 false) []); reflexivity.
Defined.

Lemma Search_errors_witness :
  let g := AdjArg [[1]; [0]] in
  let both := [NodeVisitor (fun (n : Z) (u : nat) => S u);
               OkNodeVisitor (fun (n : Z) (u : nat) => (true, S u))] in
  let arcs := [OkArcVisitor (fun (n : Z) (x : nat) (u : nat) => (true, S u));
               ArcVisitor (fun (n : Z) (x : nat) (u : nat) => S u)] in
  let none : list (config nat -> config nat) := [] in
  (* both node visitors *)
  ((exists msg, res_status (Search g 0 both 7%nat) = Returned (Some msg)) /\
   res_log (Search g 0 both 7%nat) = [] /\
   res_user (Search g 0 both 7%nat) = 7%nat /\
   res_visited (Search g 0 both 7%nat) = bits_in_use (configure both) /\
   res_graph (Search g 0 both 7%nat) = g) /\
  (* both arc visitors *)
  ((exists msg, res_status (Search g 0 arcs 7%nat) = Returned (Some msg)) /\
   res_log (Search g 0 arcs 7%nat) = [] /\
   res_user (Search g 0 arcs 7%nat) = 7%nat /\
   res_visited (Search g 0 arcs 7%nat) = bits_in_use (configure arcs) /\
   res_graph (Search g 0 arcs 7%nat) = g) /\
  (* a graph of another type *)
  ((exists msg, res_status (Search OtherArg 0 none 7%nat) = Returned (Some msg)) /\
   res_log (Search OtherArg 0 none 7%nat) = [] /\
   res_user (Search OtherArg 0 none 7%nat) = 7%nat /\
   res_visited (Search OtherArg 0 none 7%nat) = bits_in_use (configure none) /\
   res_graph (Search OtherArg 0 none 7%nat) = OtherArg) /\
  (* none of these *)
  res_status (Search g 0 none 7%nat) = Returned None.
Proof.
  intros g both arcs none.
  split; [|split; [|split]].
  - apply (proj1 (@Search_errors nat g 0 both 7%nat)).
    left. left. split; discriminate.
  - apply (proj1 (@Search_errors nat g 0 arcs 7%nat)).
    left. right. split; discriminate.
  - apply (proj1 (@Search_errors nat OtherArg 0 none 7%nat)).
    right. reflexivity.
  - apply (proj2 (@Search_errors nat g 0 none 7%nat)).
    + intros [[[H _]|[H _]]|H];
        [apply H; reflexivity | apply H; reflexivity | discriminate].
    + simpl. literal_bounds.
    + unfold InRange. simpl. lia.
    + intros rr Hrr. discriminate.
Defined.

(** The claim as first stated fails on an arc that leaves the graph: the
    options are consistent and the graph is an adjacency list, yet the call
    does not return [nil]; it faults on the index 5 after visiting it. *)
Lemma Search_errors_counterexample :
  let g := AdjArg [[5]] in
  let opts : list (config unit -> config unit) := [] in
  let r := Search g 0 opts tt in
  ~ conflicting (configure opts) /\ g <> OtherArg /\
  res_status r <> Returned None /\
  res_status r = Panicked /\ visits (res_log r) = [0; 5].
Proof.
  intros g opts r. split; [|split; [|split; [|split]]].
  - intros [[H _]|[H _]]; apply H; reflexivity.
  - discriminate.
  - discriminate.
  - reflexivity.
  - reflexivity.
Qed.

(** C1 (as the code has it).  In traversal mode, on a graph whose arcs and
    start node are in range, [Search] returns, visits no node twice, and
    visits exactly the nodes that can be reached from the start without
    passing a node already marked in the bitset it was given; the marks
    afterwards are the old ones and those nodes.  With no bitset given, or
    one in which no reachable node is marked, these are exactly the nodes
    reachable from the start.  Plain and labeled graphs, stored order or a
    random source alike. *)
Theorem Search_visits_reachable U (g : GraphArg) (start : Z)
    (options : list (config U -> config U)) (u0 : U) :
  let cf := configure options in
  let r := Search g start options u0 in
  okNodeVisitor cf = None -> okArcVisitor cf = None ->
  g <> OtherArg -> BoundsOk g -> InRange g start -> rand_ok cf ->
  res_status r = Returned None /\
  NoDup (visits (res_log r)) /\
  (forall n, In n (visits (res_log r)) <->
             Reach g (marked (bits_in_use cf)) start n) /\
  (forall n, marked (res_visited r) n <->
             marked (bits_in_use cf) n \/
             Reach g (marked (bits_in_use cf)) start n) /\
  ((forall n, Reachable g start n -> ~ marked (bits_in_use cf) n) ->
   forall n, In n (visits (res_log r)) <-> Reachable g start n).
Proof.
  intros cf r Hon Hoa Hg Hb Hr Hrand. subst r. unfold Search. fold cf.
  assert (Hc : ~ conflicting cf).
  { intros [[_ H]|[_ H]]; congruence. }
  rewrite Search_cf_run by auto.
  destruct g as [t|t|]; [| |congruence]; unfold Reachable; simpl in *.
  - pose proof (@run_safe Z U adjTo AdjArg cf t (bits_in_use cf)
                  u0 start Hb Hrand Hr) as Hs.
    destruct (@run_dfs Z U adjTo AdjArg cf t (bits_in_use cf)
                u0 start Hb Hrand Hr Hon Hoa) as (Hnd & Hv & Hm).
    split; [exact Hs|]. split; [exact Hnd|]. split; [exact Hv|].
    split; [exact Hm|]. intros Hclear n. rewrite Hv.
    now apply reach_clear.
  - pose proof (@run_safe Half U To LabArg cf t (bits_in_use cf)
                  u0 start Hb Hrand Hr) as Hs.
    destruct (@run_dfs Half U To LabArg cf t (bits_in_use cf)
                u0 start Hb Hrand Hr Hon Hoa) as (Hnd & Hv & Hm).
    split; [exact Hs|]. split; [exact Hnd|]. split; [exact Hv|].
    split; [exact Hm|]. intros Hclear n. rewrite Hv.
    now apply reach_clear.
Qed.

Lemma Search_visits_reachable_witness :
  let g := LabArg [[mkHalf 1 5; mkHalf 2 6]; [mkHalf 2 7]; [mkHalf 0 8]; [mkHalf 1 9]] in
  let cf := configure (@nil (config unit -> config unit)) in
  let r := Search g 0 (@nil (config unit -> config unit)) tt in
  res_status r = Returned None /\
  NoDup (visits (res_log r)) /\
  (forall n, In n (visits (res_log r)) <->
             Reach g (marked (bits_in_use cf)) 0 n) /\
  (forall n, marked (res_visited r) n <->
             marked (bits_in_use cf) n \/
             Reach g (marked (bits_in_use cf)) 0 n) /\
  ((forall n, Reachable g 0 n -> ~ marked (bits_in_use cf) n) ->
   forall n, In n (visits (res_log r)) <-> Reachable g 0 n).
Proof.
  intros g cf r.
  apply (@Search_visits_reachable unit g 0 [] tt).
  - reflexivity.
  - reflexivity.
  - discriminate.
  - simpl. literal_bounds.
  - unfold InRange. simpl. lia.
  - intros rr Hrr. discriminate.
Defined.

(** The claim as first stated fails when the caller's bitset already holds
    a mark: node 1 is reachable from node 0, yet it is not visited. *)
Lemma Search_premarked_counterexample :
  let g := AdjArg [[1]; []] in
  let opts : list (config unit -> config unit) := [set_visited 2] in
  let cf := configure opts in
  let r := Search g 0 opts tt in
  okNodeVisitor cf = None /\ okArcVisitor cf = None /\
  BoundsOk g /\ InRange g 0 /\
  Reachable g 0 1 /\ ~ In 1 (visits (res_log r)).
Proof.
  intros g opts cf r.
  split; [reflexivity|]. split; [reflexivity|].
  split; [simpl; literal_bounds|].
  split; [unfold InRange; simpl; lia|].
  split.
  - unfold Reachable. simpl. apply reach_arc with 1; auto.
    + split; [lia|]. exists [1]. split; [reflexivity | now left].
    + apply reach_here. auto.
  - simpl. intros [H|[]]. discriminate.
Qed.

(* ------------------------------------------------------------------ *)
(** ** Further properties of the engine *)
(* ------------------------------------------------------------------ *)

(** *** A rule for invariants

    Whatever holds across marking a node and showing it to the node
    visitor, across an arc visitor call and across a draw from the random
    source, and is reflexive and transitive, holds across a whole run,
    however it ends. *)

Lemma wp_of_ok S A F (c : M S A) (Q : A -> S -> Prop) (E : S -> Prop) s :
  wp False c (fun _ _ => True) (fun _ => False) s ->
  (forall a s', c s = Ok a s' -> Q a s') ->
  wp F c Q E s.
Proof.
  unfold wp. destruct (c s); intros H HQ; auto; contradiction.
Qed.

Section Invariant.

Variables A U : Type.
Variable tgt : A -> Z.
Variable cf : config U.

Local Abbreviation St := (State A U).

Variable P : St -> St -> Prop.

Hypothesis P_refl : forall st, P st st.
Hypothesis P_trans : forall st1 st2 st3, P st1 st2 -> P st2 st3 -> P st1 st3.
Hypothesis P_draw : forall to st p st',
  order cf to st = Ok p st' -> P st st'.

Lemma order_runs (to : list A) (st : St) :
  wp False (order cf to) (fun _ _ => True) (fun _ => False) st.
Proof. apply order_spec. auto. Qed.

Section Traverse.

Hypothesis P_visit : forall n st st',
  0 <= n -> Z.testbit (st_visited st) n = false ->
  pre_node cf n (entered st n) = Ok tt st' -> P st st'.
Hypothesis P_arc : forall n x st st', pre_arc cf n x st = Ok tt st' -> P st st'.

Lemma traverse_fuel_inv fuel : forall n (st : St),
  wp True (traverse_fuel tgt cf fuel n) (fun _ st' => P st st')
     (fun st' => P st st') st.
Proof.
  induction fuel as [|k IH]; intros n st; [exact I|].
  eapply wp_equiv; [apply traverse_fuel_S|]. unfold traverse_std.
  apply wp_bind. apply visitedFunc_spec; auto.
  - intros _ _. apply wp_ret. auto.
  - intros Hn Hbit.
    apply wp_bind. apply emit_spec. change (mkState _ _ _ _ _) with (entered st n).
    apply wp_bind. apply wp_of_ok; [apply pre_node_spec; auto|].
    intros [] st1 H1. pose proof (P_visit _ Hn Hbit H1) as P1.
    unfold recurse_std. apply wp_bind. apply index_graph_spec; auto.
    intros to _ _. apply wp_bind. apply wp_of_ok; [apply order_runs|].
    intros p st2 H2. pose proof (P_trans P1 (P_draw _ _ H2)) as P2.
    apply (@wp_for_each A U True nat p _ (fun _ s => P st s) (fun s => P st s));
      [|exact P2].
    intros done x rest s _ Ps.
    apply wp_bind. apply wp_of_ok; [apply pre_arc_spec; auto|].
    intros [] s1 Hs1. pose proof (P_trans Ps (P_arc _ _ _ Hs1)) as Ps1.
    apply wp_bind. apply index_slot_spec; auto.
    intros a _. eapply wp_mono; [| |apply IH]; simpl; eauto.
Qed.

End Traverse.

Section Search.

Hypothesis P_visit_ok : forall n st ok st',
  0 <= n -> Z.testbit (st_visited st) n = false ->
  pre_node_ok cf n (entered st n) = Ok ok st' -> P st st'.
Hypothesis P_arc_ok : forall n x st ok st',
  pre_arc_ok cf n x st = Ok ok st' -> P st st'.

Lemma search_fuel_inv fuel : forall n (st : St),
  wp True (search_fuel tgt cf fuel n) (fun _ st' => P st st')
     (fun st' => P st st') st.
Proof.
  induction fuel as [|k IH]; intros n st; [exact I|].
  eapply wp_equiv; [apply search_fuel_S|]. unfold search_std.
  apply wp_bind. apply visitedFunc_spec; auto.
  - intros _ _. apply wp_ret. auto.
  - intros Hn Hbit.
    apply wp_bind. apply emit_spec. change (mkState _ _ _ _ _) with (entered st n).
    apply wp_bind. apply wp_of_ok; [apply pre_node_ok_spec; auto|].
    intros ok st1 H1. pose proof (P_visit_ok _ Hn Hbit H1) as P1.
    destruct ok; [|apply wp_ret; exact P1].
    unfold recurse_ok_std. apply wp_bind. apply index_graph_spec; auto.
    intros to _ _. apply wp_bind. apply wp_of_ok; [apply order_runs|].
    intros p st2 H2. pose proof (P_trans P1 (P_draw _ _ H2)) as P2.
    eapply wp_mono;
      [| |apply (@wp_for_each_ok A U True nat p _ (fun _ s => P st s)
                   (fun s => P st s) (fun s => P st s)); [|exact P2]].
    + intros [] s' Hs'; exact Hs'.
    + auto.
    + intros done x rest s _ Ps.
      apply wp_bind. apply wp_of_ok; [apply pre_arc_ok_spec; auto|].
      intros ok s1 Hs1. pose proof (P_trans Ps (P_arc_ok _ _ _ Hs1)) as Ps1.
      destruct ok; [|apply wp_ret; exact Ps1].
      apply wp_bind. apply index_slot_spec; auto.
      intros a _. eapply wp_mono; [| |apply IH]; simpl.
      * intros [] s2 H; eauto.
      * eauto.
Qed.

End Search.

End Invariant.

(** What the caller can tell of a store: bitset, own state, log. *)
Definition obs {A U} (st : State A U) : Z * U * list Event :=
  (st_visited st, st_user st, st_log st).

Definition obs_result {U} (r : Result U) : Z * U * list Event :=
  (res_visited r, res_user r, res_log r).

Section SearchInvariant.

Variable U : Type.
Variable cf : config U.
Variable R : Z * U * list Event -> Z * U * list Event -> Prop.

Hypothesis R_refl : forall o, R o o.
Hypothesis R_trans : forall o1 o2 o3, R o1 o2 -> R o2 o3 -> R o1 o3.
Hypothesis R_draw : forall A (to : list A) (st st' : State A U) p,
  order cf to st = Ok p st' -> R (obs st) (obs st').
Hypothesis R_visit : forall A n (st st' : State A U) ok,
  0 <= n -> Z.testbit (st_visited st) n = false ->
  pre_node_ok cf n (entered st n) = Ok ok st' -> R (obs st) (obs st').
Hypothesis R_arc : forall A n x (st st' : State A U) ok,
  pre_arc_ok cf n x st = Ok ok st' -> R (obs st) (obs st').

Lemma func_inv A (tgt : A -> Z) fuel start (st : State A U) :
  wp True (func tgt cf fuel start) (fun _ st' => R (obs st) (obs st'))
     (fun st' => R (obs st) (obs st')) st.
Proof.
  unfold func.
  destruct (okNodeVisitor cf) as [w|] eqn:Hon;
    [|destruct (okArcVisitor cf) as [w|] eqn:Hoa].
  1,2: apply wp_bind;
       eapply wp_mono;
         [| |apply (@search_fuel_inv A U tgt cf
                     (fun s s' => R (obs s) (obs s')))]; eauto;
       intros ? ? H; apply wp_ret; exact H.
  apply (@traverse_fuel_inv A U tgt cf (fun s s' => R (obs s) (obs s')));
    eauto.
  - intros n s s' Hn Hbit H. apply (@R_visit A n s s' true Hn Hbit).
    unfold pre_node_ok. rewrite Hon. unfold bind. now rewrite H.
  - intros n x s s' H. apply (@R_arc A n x s s' true).
    unfold pre_arc_ok. rewrite Hoa. unfold bind. now rewrite H.
Qed.

Lemma finish_inv A (tgt : A -> Z) (wrap : list (list A) -> GraphArg)
    fuel start (st0 : State A U) :
  R (obs st0) (obs_result (finish wrap (func tgt cf fuel start st0) st0)).
Proof.
  pose proof (func_inv tgt fuel start st0) as H. unfold wp in H.
  unfold finish. destruct (func tgt cf fuel start st0) as [[] s|s|];
    try exact H. apply R_refl.
Qed.

Lemma Search_cf_inv (g : GraphArg) start u0 :
  R (bits_in_use cf, u0, []) (obs_result (Search_cf g start cf u0)).
Proof.
  destruct (conflicting_dec cf) as [Hc|Hc].
  - destruct (Search_cf_conflict g start u0 Hc) as (msg & ->). apply R_refl.
  - rewrite Search_cf_run by auto. destruct g as [t|t|].
    + exact (@finish_inv Z adjTo AdjArg (S (List.length t)) start
               (mkState t (bits_in_use cf) u0 [] 0)).
    + exact (@finish_inv Half To LabArg (S (List.length t)) start
               (mkState t (bits_in_use cf) u0 [] 0)).
    + apply R_refl.
Qed.

End SearchInvariant.

(** *** The node visitor sees each visit *)

(** The nodes shown to a node visitor, conditional or not, in order. *)
Definition node_calls (l : list Event) : list Z :=
  flat_map (fun e => match e with
                     | EvNodeVisitor n => [n]
                     | EvOkNodeVisitor n _ => [n]
                     | _ => []
                     end) l.

Lemma node_calls_app l1 l2 : node_calls (l1 ++ l2) = node_calls l1 ++ node_calls l2.
Proof. unfold node_calls. apply flat_map_app. Qed.

(** Since the left store the log grew by [L]. *)
Definition log_grew {U} (o o' : Z * U * list Event) (L : list Event) : Prop :=
  snd o' = snd o ++ L.

Lemma order_log A U (cf : config U) (to : list A) (st st' : State A U) p :
  order cf to st = Ok p st' ->
  st_log st' = st_log st /\ st_user st' = st_user st /\
  st_visited st' = st_visited st.
Proof.
  unfold order. destruct (rand cf); intros H; injection H as _ <-; auto.
Qed.

(** X7.  With a node visitor configured, it is called on every node visited,
    when it is visited, and on nothing else: the nodes it was shown are the
    nodes visited, in the same order.  In every mode and however the call
    ends. *)
Theorem Search_node_visitor_calls U (g : GraphArg) (start : Z)
    (options : list (config U -> config U)) (u0 : U) :
  let cf := configure options in
  let r := Search g start options u0 in
  nodeVisitor cf <> None \/ okNodeVisitor cf <> None ->
  node_calls (res_log r) = visits (res_log r).
Proof.
  intros cf r Hcfg. subst r. unfold Search. fold cf.
  pose proof (@Search_cf_inv U cf
                (fun o o' => exists L, log_grew o o' L /\
                                       node_calls L = visits L)) as H.
  destruct (H) with (g := g) (start := start) (u0 := u0)
    as (L & HL & Heq); [| | | | |unfold log_grew in HL; simpl in HL;
                                 rewrite HL; exact Heq].
  - intros o. exists []. split; [unfold log_grew; now rewrite app_nil_r | reflexivity].
  - intros o1 o2 o3 (L1 & H1 & E1) (L2 & H2 & E2). exists (L1 ++ L2). split.
    + unfold log_grew in *. now rewrite H2, H1, app_assoc.
    + now rewrite node_calls_app, visits_app, E1, E2.
  - intros A to st st' p Ho. apply order_log in Ho as (Hl & _).
    exists []. split; [unfold log_grew; simpl; now rewrite app_nil_r | reflexivity].
  - intros A n st st' ok Hn Hbit Hv. unfold pre_node_ok, pre_node in Hv.
    destruct (okNodeVisitor cf) as [w|] eqn:Hon.
    + injection Hv as _ <-. exists [EvVisit n; EvOkNodeVisitor n (fst (w n (st_user st)))].
      split; [unfold log_grew; simpl; now rewrite <- app_assoc | reflexivity].
    + destruct (nodeVisitor cf) as [v|] eqn:Hnv; [|destruct Hcfg; congruence].
      injection Hv as _ <-. exists [EvVisit n; EvNodeVisitor n].
      split; [unfold log_grew; simpl; now rewrite <- app_assoc | reflexivity].
  - intros A n x st st' ok Hv. unfold pre_arc_ok, pre_arc in Hv.
    destruct (okArcVisitor cf) as [w|]; [|destruct (arcVisitor cf) as [v|]];
      injection Hv as _ <-.
    + exists [EvOkArcVisitor n x (fst (w n x (st_user st)))].
      split; [reflexivity | reflexivity].
    + exists [EvArcVisitor n x]. split; reflexivity.
    + exists []. split; [unfold log_grew; simpl; now rewrite app_nil_r | reflexivity].
Qed.

Lemma Search_node_visitor_calls_witness :
  let r := Search (AdjArg [[1; 2]; [2]; [0; 7]]) 0
                  [OkNodeVisitor (fun n (u : unit) => (true, u))] tt in
  res_status r = Panicked /\
  visits (res_log r) = [0; 1; 2; 7] /\
  node_calls (res_log r) = visits (res_log r).
Proof.
  intros r. split; [reflexivity|]. split; [reflexivity|].
  apply (@Search_node_visitor_calls unit (AdjArg [[1; 2]; [2]; [0; 7]]) 0
           [OkNodeVisitor (fun n (u : unit) => (true, u))] tt).
  right. discriminate.
Defined.

(** *** What is visited, in any mode and on any input *)

Section Sound.

Variables A U : Type.
Variable tgt : A -> Z.
Variable cf : config U.
Variable g : list (list A).

Local Abbreviation St := (State A U).

(** A step that leaves graph and marks alone and visits nothing. *)
Definition silent (st st' : St) : Prop :=
  st_graph st' = st_graph st /\
  st_visited st' = st_visited st /\
  visits (st_log st') = visits (st_log st).

(** [grown] without the promise that successors were dealt with: what
    holds of a run that was cut short. *)
Definition weak (V0 : Z -> Prop) (root : Z) (st st' : St) (L : list Z) : Prop :=
  frame st st' /\
  visits (st_log st') = visits (st_log st) ++ L /\
  NoDup L /\
  (forall m, In m L <->
             marked (st_visited st') m /\ ~ marked (st_visited st) m) /\
  (forall m, In m L -> reach tgt g V0 root m).

(** Every successor of a node of [L] is marked. *)
Definition closed (L : list Z) (st' : St) : Prop :=
  forall m, In m L -> forall s, arc tgt g m s -> marked (st_visited st') s.

Lemma weak_closed_grown V0 root st st' L :
  weak V0 root st st' L -> closed L st' -> grown tgt g V0 root st st' L.
Proof.
  intros (Hf & Hv & Hnd & Hin & Hr) Hc. repeat (split; [assumption|]).
  exact Hc.
Qed.

Lemma grown_weak V0 root st st' L :
  grown tgt g V0 root st st' L -> weak V0 root st st' L /\ closed L st'.
Proof.
  intros (Hf & Hv & Hnd & Hin & Hr & Hc). split; [|exact Hc].
  repeat (split; [assumption|]). exact Hr.
Qed.

Lemma quiet_silent st st' : quiet_step st st' -> silent st st'.
Proof.
  intros (G & V & l & L & N & _). split; [exact G|]. split; [exact V|].
  now rewrite L, visits_app, N, app_nil_r.
Qed.

Lemma stop_silent st st' : stop_step st st' -> silent st st'.
Proof.
  intros (G & V & e & L & N & _). split; [exact G|]. split; [exact V|].
  now rewrite L, visits_app, N, app_nil_r.
Qed.

Lemma silent_refl st : silent st st.
Proof. repeat split. Qed.

Lemma weak_nil V0 root st st' : silent st st' -> weak V0 root st st' [].
Proof.
  intros (G & V & N). split.
  { split; [exact G|]. intros n. now rewrite V. }
  split; [now rewrite N, app_nil_r|]. split; [constructor|]. split.
  - intros m. rewrite V. simpl. tauto.
  - intros m [].
Qed.

Lemma weak_silent V0 root st st1 st2 L :
  weak V0 root st st1 L -> silent st1 st2 -> weak V0 root st st2 L.
Proof.
  intros ((Gf & Mf) & Hv & Hnd & Hin & Hr) (G & V & N). split.
  { split; [congruence|]. intros n Hn. rewrite V. auto. }
  split; [now rewrite N|]. split; [exact Hnd|]. split; [|exact Hr].
  intros m. rewrite V. apply Hin.
Qed.

Lemma closed_silent L st1 st2 : closed L st1 -> silent st1 st2 -> closed L st2.
Proof.
  intros Hc (_ & V & _) m Hm s Hs. rewrite V. eapply Hc; eauto.
Qed.

Lemma weak_app (V0 : Z -> Prop) root t st st1 st2 L1 L2 :
  (forall m, V0 m -> marked (st_visited st1) m) ->
  ~ V0 root -> arc tgt g root t ->
  weak V0 root st st1 L1 ->
  weak (marked (st_visited st1)) t st1 st2 L2 ->
  weak V0 root st st2 (L1 ++ L2).
Proof.
  intros HV Hroot Harc (Hf1 & Hv1 & Hnd1 & Hin1 & Hr1)
         (Hf2 & Hv2 & Hnd2 & Hin2 & Hr2).
  split; [eapply frame_trans; eauto|]. split.
  { rewrite Hv2, Hv1. now rewrite app_assoc. }
  split.
  { apply NoDup_app; auto. intros m H1 H2.
    apply Hin1 in H1. apply Hin2 in H2. tauto. }
  split.
  { intros m. rewrite in_app_iff, Hin1, Hin2. split.
    - intros [[H1 H2]|[H1 H2]].
      + split; auto. now apply Hf2.
      + split; auto. intros H. apply H2. now apply Hf1.
    - intros [H1 H2].
      destruct (Z.testbit (st_visited st1) m) eqn:E.
      + left. split; auto.
      + right. split; auto. unfold marked. congruence. }
  intros m. rewrite in_app_iff. intros [H|H]; auto.
  eapply reach_arc; eauto. eapply reach_anti; [|apply Hr2; exact H]. auto.
Qed.

Lemma closed_app L1 L2 st1 st2 :
  closed L1 st1 -> frame st1 st2 -> closed L2 st2 -> closed (L1 ++ L2) st2.
Proof.
  intros H1 (_ & Hf) H2 m Hm s Hs. apply in_app_or in Hm as [Hm|Hm].
  - apply Hf. eapply H1; eauto.
  - eapply H2; eauto.
Qed.

Lemma weak_close (st st' : St) n L :
  0 <= n -> Z.testbit (st_visited st) n = false ->
  weak (marked (st_visited st)) n (entered st n) st' L ->
  marked (st_visited st') n /\
  weak (marked (st_visited st)) n st st' (n :: L).
Proof.
  intros Hn Hbit (Hf & Hv & Hnd & Hin & Hr).
  assert (Hme : forall m, marked (st_visited (entered st n)) m <->
                          marked (st_visited st) m \/ m = n)
    by (intros m; apply (marked_mark st); auto).
  assert (Hnn : ~ marked (st_visited st) n)
    by (unfold marked; congruence).
  assert (Hn' : marked (st_visited st') n)
    by (apply Hf, Hme; auto).
  split; [exact Hn'|]. split.
  { eapply frame_trans; [|exact Hf]. split; auto.
    intros m Hm. apply Hme. auto. }
  split.
  { rewrite Hv. simpl. rewrite visits_app. simpl. now rewrite <- app_assoc. }
  split.
  { constructor; auto. intros H. apply Hin in H. apply (proj2 H).
    apply Hme. auto. }
  split.
  { intros m. simpl. rewrite Hin, Hme. split.
    - intros [<-|[H1 H2]]; split; auto.
    - intros [H1 H2]. destruct (Z.eq_dec n m); [now left|right].
      split; auto. intros [H|H]; auto. }
  intros m [<-|H]; [now apply reach_here | auto].
Qed.

Lemma closed_close (st' : St) n to L :
  nth_error g (Z.to_nat n) = Some to ->
  (forall a, In a to -> marked (st_visited st') (tgt a)) ->
  closed L st' -> closed (n :: L) st'.
Proof.
  intros Hto Hall Hc m [<-|H] s Hs; [|eapply Hc; eauto].
  destruct Hs as (_ & to' & Hto' & Hs).
  assert (to' = to) as -> by congruence.
  apply in_map_iff in Hs as (a & <- & Ha). auto.
Qed.

(** What a call on [n] from [st] has done when control leaves it, in
    whatever way. *)
Definition sound (st : St) (n : Z) (st' : St) : Prop :=
  exists L, weak (marked (st_visited st)) n st st' L.

Lemma sound_refl st n : sound st n st.
Proof. exists []. apply weak_nil, silent_refl. Qed.

Lemma traverse_fuel_sound fuel : forall n (st : St),
  st_graph st = g ->
  wp True (traverse_fuel tgt cf fuel n) (fun _ st' => sound st n st')
     (fun st' => sound st n st') st.
Proof.
  induction fuel as [|k IH]; intros n st Hg; [exact I|].
  eapply wp_equiv; [apply traverse_fuel_S|]. unfold traverse_std.
  apply wp_bind. apply visitedFunc_spec.
  - intros _. apply sound_refl.
  - intros _ _. apply wp_ret, sound_refl.
  - intros Hn0 Hbit.
    apply wp_bind. apply emit_spec. change (mkState _ _ _ _ _) with (entered st n).
    set (V0 := marked (st_visited st)).
    assert (Hout : forall s L, weak V0 n (entered st n) s L -> sound st n s).
    { intros s L HL. exists (n :: L). now apply weak_close. }
    assert (HV0e : forall m, V0 m -> marked (st_visited (entered st n)) m)
      by (intros m Hm; apply (marked_mark st); auto).
    assert (Hroot : ~ V0 n) by (unfold V0, marked; congruence).
    apply wp_bind. apply pre_node_spec. intros st1 Hq1.
    pose proof (weak_nil V0 n (quiet_silent Hq1)) as W1.
    assert (Hg1 : st_graph st1 = g)
      by (destruct Hq1 as (G & _); rewrite G; exact Hg).
    unfold recurse_std. apply wp_bind. apply index_graph_spec.
    { intros _. eapply Hout; eauto. }
    intros to _ Hto. rewrite Hg1 in Hto.
    apply wp_bind. apply order_spec. intros p st2 Hq2 _.
    pose proof (weak_silent W1 (quiet_silent Hq2)) as W2.
    eapply wp_mono;
      [ | |apply (@wp_for_each A U True nat p _
                   (fun _ s => exists L, weak V0 n (entered st n) s L)
                   (fun s => exists L, weak V0 n (entered st n) s L))].
    + intros u s' (L & HL). eapply Hout; eauto.
    + intros s' (L & HL). eapply Hout; eauto.
    + intros done x rest s _ (L & HL).
      apply wp_bind. apply pre_arc_spec. intros s1 Hq.
      pose proof (weak_silent HL (quiet_silent Hq)) as HL1.
      assert (Hgs1 : st_graph s1 = g).
      { destruct HL1 as ((G & _) & _). rewrite G. exact Hg. }
      apply wp_bind. apply index_slot_spec; [intros _; eauto|].
      intros a Ha.
      assert (Harc : arc tgt g n (tgt a)).
      { split; [lia|]. exists to. split; auto. apply in_map.
        eapply nth_error_In; eauto. }
      assert (Hstep : forall s2, sound s1 (tgt a) s2 ->
                exists L', weak V0 n (entered st n) s2 L').
      { intros s2 (L2 & HL2). exists (L ++ L2).
        apply (@weak_app V0 n (tgt a) (entered st n) s1 s2 L L2); auto.
        intros m Hm. destruct HL1 as ((_ & Hfm) & _). auto. }
      eapply wp_mono; [| |apply (IH (tgt a) s1 Hgs1)]; simpl; auto.
    + exists []. exact W2.
Qed.

(** In search mode the same holds, and a call that answers "go on" has
    also dealt with every successor of the nodes it visited, provided the
    random source deals permutations. *)
Lemma search_fuel_sound fuel : forall n (st : St),
  st_graph st = g ->
  wp True (search_fuel tgt cf fuel n)
     (fun ok st' =>
        exists L, weak (marked (st_visited st)) n st st' L /\
          (ok = true -> marked (st_visited st') n /\
                        (rand_ok cf -> closed L st')))
     (fun st' => sound st n st') st.
Proof.
  induction fuel as [|k IH]; intros n st Hg; [exact I|].
  eapply wp_equiv; [apply search_fuel_S|]. unfold search_std.
  apply wp_bind. apply visitedFunc_spec.
  - intros _. apply sound_refl.
  - intros _ Hbit. apply wp_ret. exists []. split.
    + apply weak_nil, silent_refl.
    + intros _. split; [exact Hbit|]. intros _ m [].
  - intros Hn0 Hbit.
    apply wp_bind. apply emit_spec. change (mkState _ _ _ _ _) with (entered st n).
    set (V0 := marked (st_visited st)).
    assert (Hout : forall s L, weak V0 n (entered st n) s L -> sound st n s).
    { intros s L HL. exists (n :: L). now apply weak_close. }
    assert (HV0e : forall m, V0 m -> marked (st_visited (entered st n)) m)
      by (intros m Hm; apply (marked_mark st); auto).
    assert (Hroot : ~ V0 n) by (unfold V0, marked; congruence).
    apply wp_bind. apply pre_node_ok_spec.
    2:{ intros st1 Hs1. apply wp_ret.
        destruct (Hout st1 [] (weak_nil V0 n (stop_silent Hs1))) as (L & HL).
        exists L. split; [exact HL | discriminate]. }
    intros st1 Hq1.
    pose proof (weak_nil V0 n (quiet_silent Hq1)) as W1.
    assert (Hg1 : st_graph st1 = g)
      by (destruct Hq1 as (G & _); rewrite G; exact Hg).
    unfold recurse_ok_std. apply wp_bind. apply index_graph_spec.
    { intros _. eapply Hout; eauto. }
    intros to _ Hto. rewrite Hg1 in Hto.
    apply wp_bind. apply order_spec. intros p st2 Hq2 Hp.
    pose proof (weak_silent W1 (quiet_silent Hq2)) as W2.
    eapply wp_mono;
      [ | |apply (@wp_for_each_ok A U True nat p _
                   (fun done s =>
                      exists L, weak V0 n (entered st n) s L /\
                        (rand_ok cf -> closed L s) /\
                        forall x a, In x done -> nth_error to x = Some a ->
                                    marked (st_visited s) (tgt a))
                   (fun s => exists L, weak V0 n (entered st n) s L)
                   (fun s => exists L, weak V0 n (entered st n) s L))].
    + intros [] s'.
      * intros (L & HL & Hcl & Hdone). exists (n :: L).
        destruct (weak_close Hn0 Hbit HL) as (Hm & HW).
        split; [exact HW|]. intros _. split; [exact Hm|]. intros Hrand.
        apply (closed_close (to := to)); auto.
        intros a Ha. apply In_nth_error in Ha as (x & Hx).
        apply (Hdone x a); auto.
        assert (Hperm : Permutation p (seq 0 (List.length to))).
        { rewrite Hp. destruct (rand cf) as [r|] eqn:Hr; [|reflexivity].
          now apply Hrand. }
        apply (Permutation_in _ (Permutation_sym Hperm)).
        apply in_seq. split; [lia|]. simpl. apply nth_error_Some. congruence.
      * intros (L & HL). destruct (Hout _ _ HL) as (L' & HL').
        exists L'. split; [exact HL' | discriminate].
    + intros s' (L & HL). eapply Hout; eauto.
    + intros done x rest s _ (L & HL & Hcl & Hdone).
      apply wp_bind. apply pre_arc_ok_spec.
      2:{ intros s1 Hs1. apply wp_ret. exists L.
          exact (weak_silent HL (stop_silent Hs1)). }
      intros s1 Hq.
      pose proof (weak_silent HL (quiet_silent Hq)) as HL1.
      assert (Hgs1 : st_graph s1 = g).
      { destruct HL1 as ((G & _) & _). rewrite G. exact Hg. }
      assert (Hv1 : st_visited s1 = st_visited s)
        by (destruct Hq as (_ & V & _); exact V).
      apply wp_bind. apply index_slot_spec; [intros _; eauto|].
      intros a Ha.
      assert (Harc : arc tgt g n (tgt a)).
      { split; [lia|]. exists to. split; auto. apply in_map.
        eapply nth_error_In; eauto. }
      assert (Hstep : forall s2 L2,
                weak (marked (st_visited s1)) (tgt a) s1 s2 L2 ->
                weak V0 n (entered st n) s2 (L ++ L2)).
      { intros s2 L2 HL2.
        apply (@weak_app V0 n (tgt a) (entered st n) s1 s2 L L2); auto.
        intros m Hm. destruct HL1 as ((_ & Hfm) & _). auto. }
      eapply wp_mono; [| |apply (IH (tgt a) s1 Hgs1)]; simpl.
      * intros [] s2 (L2 & HL2 & Hok).
        -- destruct (Hok eq_refl) as (Hma & Hcl2).
           exists (L ++ L2). split; [now apply Hstep|]. split.
           ++ intros Hrand. apply (closed_app (st1 := s1)); auto.
              ** eapply closed_silent; [apply Hcl; auto|].
                 apply (quiet_silent Hq).
              ** destruct HL2 as (Hf2 & _). exact Hf2.
           ++ intros x' a' Hx' Ha'. apply in_app_or in Hx' as [Hx'|[<-|[]]].
              ** destruct HL2 as ((_ & Hfm) & _). apply Hfm.
                 rewrite Hv1. eapply Hdone; eauto.
              ** assert (a' = a) as -> by congruence. exact Hma.
        -- exists (L ++ L2). now apply Hstep.
      * intros s2 (L2 & HL2). exists (L ++ L2). now apply Hstep.
    + exists []. split; [exact W2|]. split; [intros _ m []|intros x a []].
Qed.

(** In traversal mode a call that returns has dealt with every successor
    of the nodes it visited. *)
Lemma traverse_fuel_complete fuel : forall n (st : St),
  st_graph st = g ->
  wp True (traverse_fuel tgt cf fuel n)
     (fun _ st' =>
        exists L, weak (marked (st_visited st)) n st st' L /\
          marked (st_visited st') n /\ (rand_ok cf -> closed L st'))
     (fun _ => True) st.
Proof.
  induction fuel as [|k IH]; intros n st Hg; [exact I|].
  eapply wp_equiv; [apply traverse_fuel_S|]. unfold traverse_std.
  apply wp_bind. apply visitedFunc_spec.
  - intros _. exact I.
  - intros _ Hbit. apply wp_ret. exists []. split.
    + apply weak_nil, silent_refl.
    + split; [exact Hbit|]. intros _ m [].
  - intros Hn0 Hbit.
    apply wp_bind. apply emit_spec. change (mkState _ _ _ _ _) with (entered st n).
    set (V0 := marked (st_visited st)).
    assert (HV0e : forall m, V0 m -> marked (st_visited (entered st n)) m)
      by (intros m Hm; apply (marked_mark st); auto).
    assert (Hroot : ~ V0 n) by (unfold V0, marked; congruence).
    apply wp_bind. apply pre_node_spec. intros st1 Hq1.
    pose proof (weak_nil V0 n (quiet_silent Hq1)) as W1.
    assert (Hg1 : st_graph st1 = g)
      by (destruct Hq1 as (G & _); rewrite G; exact Hg).
    unfold recurse_std. apply wp_bind. apply index_graph_spec.
    { intros _. exact I. }
    intros to _ Hto. rewrite Hg1 in Hto.
    apply wp_bind. apply order_spec. intros p st2 Hq2 Hp.
    pose proof (weak_silent W1 (quiet_silent Hq2)) as W2.
    eapply wp_mono;
      [ | |apply (@wp_for_each A U True nat p _
                   (fun done s =>
                      exists L, weak V0 n (entered st n) s L /\
                        (rand_ok cf -> closed L s) /\
                        forall x a, In x done -> nth_error to x = Some a ->
                                    marked (st_visited s) (tgt a))
                   (fun _ => True))].
    + intros u s' (L & HL & Hcl & Hdone). exists (n :: L).
      destruct (weak_close Hn0 Hbit HL) as (Hm & HW).
      split; [exact HW|]. split; [exact Hm|]. intros Hrand.
      apply (closed_close (to := to)); auto.
      intros a Ha. apply In_nth_error in Ha as (x & Hx).
      apply (Hdone x a); auto.
      assert (Hperm : Permutation p (seq 0 (List.length to))).
      { rewrite Hp. destruct (rand cf) as [r|] eqn:Hr; [|reflexivity].
        now apply Hrand. }
      apply (Permutation_in _ (Permutation_sym Hperm)).
      apply in_seq. split; [lia|]. simpl. apply nth_error_Some. congruence.
    + auto.
    + intros done x rest s _ (L & HL & Hcl & Hdone).
      apply wp_bind. apply pre_arc_spec. intros s1 Hq.
      pose proof (weak_silent HL (quiet_silent Hq)) as HL1.
      assert (Hgs1 : st_graph s1 = g).
      { destruct HL1 as ((G & _) & _). rewrite G. exact Hg. }
      assert (Hv1 : st_visited s1 = st_visited s)
        by (destruct Hq as (_ & V & _); exact V).
      apply wp_bind. apply index_slot_spec; [intros _; exact I|].
      intros a Ha.
      assert (Harc : arc tgt g n (tgt a)).
      { split; [lia|]. exists to. split; auto. apply in_map.
        eapply nth_error_In; eauto. }
      eapply wp_mono; [| |apply (IH (tgt a) s1 Hgs1)]; simpl; auto.
      intros u s2 (L2 & HL2 & Hma & Hcl2).
      exists (L ++ L2). split.
      * apply (@weak_app V0 n (tgt a) (entered st n) s1 s2 L L2); auto.
        intros m Hm. destruct HL1 as ((_ & Hfm) & _). auto.
      * split.
        -- intros Hrand. apply (closed_app (st1 := s1)); auto.
           ++ eapply closed_silent; [apply Hcl; auto|].
              apply (quiet_silent Hq).
           ++ destruct HL2 as (Hf2 & _). exact Hf2.
        -- intros x' a' Hx' Ha'. apply in_app_or in Hx' as [Hx'|[<-|[]]].
           ++ destruct HL2 as ((_ & Hfm) & _). apply Hfm.
              rewrite Hv1. eapply Hdone; eauto.
           ++ assert (a' = a) as -> by congruence. exact Hma.
    + exists []. split; [exact W2|]. split; [intros _ m []|intros x a []].
Qed.

End Sound.

Section RunSound.

Variables A U : Type.
Variable tgt : A -> Z.
Variable wrap : list (list A) -> GraphArg.
Variable cf : config U.
Variable t : list (list A).
Variable b : Z.
Variable u0 : U.
Variable start : Z.

Let st0 : State A U := mkState t b u0 [] 0.
Let r : Result U := finish wrap (func tgt cf (S (List.length t)) start st0) st0.

Lemma sound_facts (st' : State A U) :
  sound tgt t st0 start st' ->
  NoDup (visits (st_log st')) /\
  (forall n, In n (visits (st_log st')) -> reach tgt t (marked b) start n) /\
  (forall n, marked (st_visited st') n <->
             marked b n \/ In n (visits (st_log st'))).
Proof.
  intros (L & (_ & Hf) & Hv & Hnd & Hin & Hr).
  simpl in Hf, Hv, Hin, Hr. rewrite Hv. split; [exact Hnd|]. split; [exact Hr|].
  intros n. split.
  - intros H. destruct (Z.testbit b n) eqn:E; [now left|right].
    apply Hin. split; auto. unfold marked. congruence.
  - intros [H|H]; [now apply Hf | now apply Hin].
Qed.

Lemma func_sound :
  wp True (func tgt cf (S (List.length t)) start)
     (fun _ st' => sound tgt t st0 start st')
     (fun st' => sound tgt t st0 start st') st0.
Proof.
  unfold func.
  destruct (okNodeVisitor cf); [|destruct (okArcVisitor cf)];
    try (apply wp_bind;
         eapply wp_mono;
           [| |apply (@search_fuel_sound A U tgt cf t); reflexivity]; auto;
         intros ? ? (L & HL & _); apply wp_ret; exists L; exact HL).
  apply traverse_fuel_sound. reflexivity.
Qed.

Lemma run_sound :
  NoDup (visits (res_log r)) /\
  (forall n, In n (visits (res_log r)) -> reach tgt t (marked b) start n) /\
  (forall n, marked (res_visited r) n <->
             marked b n \/ In n (visits (res_log r))).
Proof.
  pose proof func_sound as H. unfold wp in H. subst r. unfold finish.
  fold st0 in H.
  destruct (func tgt cf (S (List.length t)) start st0) as [[] st'|st'|];
    simpl; try (now apply sound_facts).
  split; [constructor|]. split; [intros n []|]. intros n. tauto.
Qed.

Lemma search_complete (ok : bool) (st' : State A U) :
  rand_ok cf ->
  search_fuel tgt cf (S (List.length t)) start st0 = Ok ok st' ->
  nostop (st_log st') ->
  forall n, In n (visits (st_log st')) <-> reach tgt t (marked b) start n.
Proof.
  intros Hrand Hrun Hns.
  pose proof (@search_fuel_sound A U tgt cf t (S (List.length t)) start st0
                eq_refl) as Hs.
  pose proof (@search_fuel_stop A U tgt cf (S (List.length t)) start st0) as Hp.
  unfold wp in Hs, Hp. rewrite Hrun in Hs, Hp.
  destruct ok.
  - destruct Hs as (L & HL & Hok). destruct (Hok eq_refl) as (Hm & Hcl).
    pose proof (weak_closed_grown HL (Hcl Hrand)) as HG.
    pose proof (grown_reach HG Hm) as Hreach.
    destruct HL as (_ & Hv & _). simpl in Hv. rewrite Hv. exact Hreach.
  - exfalso. destruct Hp as (l & e & Hl & _ & He). simpl in Hl.
    eapply (@nostop_no_stop (st_log st') l e []); eauto.
Qed.

Lemma traverse_complete (st' : State A U) :
  rand_ok cf ->
  traverse_fuel tgt cf (S (List.length t)) start st0 = Ok tt st' ->
  forall n, In n (visits (st_log st')) <-> reach tgt t (marked b) start n.
Proof.
  intros Hrand Hrun.
  pose proof (@traverse_fuel_complete A U tgt cf t (S (List.length t)) start
                st0 eq_refl) as Hs.
  unfold wp in Hs. rewrite Hrun in Hs.
  destruct Hs as (L & HL & Hm & Hcl).
  pose proof (weak_closed_grown HL (Hcl Hrand)) as HG.
  pose proof (grown_reach HG Hm) as Hreach.
  destruct HL as (_ & Hv & _). simpl in Hv. rewrite Hv. exact Hreach.
Qed.

Lemma run_complete :
  rand_ok cf -> res_status r = Returned None -> nostop (res_log r) ->
  forall n, In n (visits (res_log r)) <-> reach tgt t (marked b) start n.
Proof.
  intros Hrand. subst r. unfold func.
  destruct (okNodeVisitor cf) as [w|]; [|destruct (okArcVisitor cf) as [w|]];
    unfold bind, finish.
  - destruct (search_fuel tgt cf (S (List.length t)) start st0)
      as [ok st'|st'|] eqn:Hrun; simpl; try discriminate.
    intros _ Hns. eapply search_complete; eauto.
  - destruct (search_fuel tgt cf (S (List.length t)) start st0)
      as [ok st'|st'|] eqn:Hrun; simpl; try discriminate.
    intros _ Hns. eapply search_complete; eauto.
  - destruct (traverse_fuel tgt cf (S (List.length t)) start st0)
      as [[] st'|st'|] eqn:Hrun; simpl; try discriminate.
    intros _ _. now apply traverse_complete.
Qed.

End RunSound.

(** X4.  Whatever the mode, the options and the graph, and however the call
    ends (also by a fault or a stop), [Search] visits no node twice, visits
    only nodes that can be reached from the start without passing a node
    marked beforehand, and leaves in the bitset the old marks and the nodes
    visited, nothing else. *)
Theorem Search_sound U (g : GraphArg) (start : Z)
    (options : list (config U -> config U)) (u0 : U) :
  let cf := configure options in
  let r := Search g start options u0 in
  NoDup (visits (res_log r)) /\
  (forall n, In n (visits (res_log r)) ->
             Reach g (marked (bits_in_use cf)) start n) /\
  (forall n, marked (res_visited r) n <->
             marked (bits_in_use cf) n \/ In n (visits (res_log r))).
Proof.
  intros cf r. subst r. unfold Search. fold cf.
  assert (Hnone : forall res : Result U,
            res_log res = [] -> res_visited res = bits_in_use cf ->
            NoDup (visits (res_log res)) /\
            (forall n, In n (visits (res_log res)) ->
                       Reach g (marked (bits_in_use cf)) start n) /\
            (forall n, marked (res_visited res) n <->
                       marked (bits_in_use cf) n \/
                       In n (visits (res_log res)))).
  { intros res -> ->. simpl. split; [constructor|].
    split; [intros n []|]. intros n. tauto. }
  destruct (conflicting_dec cf) as [Hc|Hc].
  - destruct (Search_cf_conflict g start u0 Hc) as (msg & ->).
    now apply Hnone.
  - rewrite Search_cf_run by auto. destruct g as [t|t|].
    + apply (@run_sound Z U adjTo AdjArg cf t (bits_in_use cf) u0 start).
    + apply (@run_sound Half U To LabArg cf t (bits_in_use cf) u0 start).
    + now apply Hnone.
Qed.

(** X5.  A call that returns [nil] without a stop answer has done the whole
    job, whatever the graph: the nodes visited are exactly those that can
    be reached from the start without passing a node marked beforehand.
    No bound on the arcs or the start node is assumed; in search mode this
    says that a search that is never stopped is a traversal. *)
Theorem Search_unstopped U (g : GraphArg) (start : Z)
    (options : list (config U -> config U)) (u0 : U) :
  let cf := configure options in
  let r := Search g start options u0 in
  rand_ok cf ->
  res_status r = Returned None -> nostop (res_log r) ->
  forall n, In n (visits (res_log r)) <->
            Reach g (marked (bits_in_use cf)) start n.
Proof.
  intros cf r Hrand. subst r. unfold Search. fold cf.
  destruct (conflicting_dec cf) as [Hc|Hc].
  - destruct (Search_cf_conflict g start u0 Hc) as (msg & ->). discriminate.
  - rewrite Search_cf_run by auto. destruct g as [t|t|]; [| |discriminate].
    + apply (@run_complete Z U adjTo AdjArg cf t (bits_in_use cf)
               u0 start); auto.
    + apply (@run_complete Half U To LabArg cf t (bits_in_use cf)
               u0 start); auto.
Qed.

Lemma Search_unstopped_witness :
  let g := AdjArg [[1; 2]; [2]; [0]; [1]] in
  let opts := [OkArcVisitor (fun (n : Z) (x : nat) (u : unit) => (true, u))] in
  let r := Search g 0 opts tt in
  visits (res_log r) = [0; 1; 2] /\
  forall n, In n (visits (res_log r)) <->
            Reach g (marked (bits_in_use (configure opts))) 0 n.
Proof.
  intros g opts r. split; [reflexivity|].
  apply (@Search_unstopped unit g 0 opts tt).
  - intros rr Hrr. discriminate.
  - reflexivity.
  - vm_compute. repeat constructor.
Defined.

(** ** One bitset shared by two calls *)

Lemma reach_end A (tgt : A -> Z) (g : list (list A)) (V : Z -> Prop) a b :
  reach tgt g V a b -> ~ V b.
Proof. induction 1; auto. Qed.

Lemma reach_compose A (tgt : A -> Z) (g : list (list A)) (V : Z -> Prop) a b c :
  reach tgt g V a b -> reach tgt g V b c -> reach tgt g V a c.
Proof.
  induction 1 as [n Hn|n m k Hn Ha _ IH]; auto.
  intros H. apply reach_arc with m; auto.
Qed.

(** Avoiding everything reachable from [a] leaves what is reachable but
    not from [a]. *)
Lemma reach_minus A (tgt : A -> Z) (g : list (list A)) (V : Z -> Prop) a :
  (forall n, V n <-> reach tgt g (fun _ => False) a n) ->
  forall s n, reach tgt g V s n <->
              reach tgt g (fun _ => False) s n /\
              ~ reach tgt g (fun _ => False) a n.
Proof.
  intros HV s n. split.
  - intros H. split.
    + revert H. apply reach_anti. contradiction.
    + intros Ha. apply (reach_end H). now apply HV.
  - intros [H Hn].
    induction H as [x _|x y z _ Hxy Hyz IH].
    + apply reach_here. intros Hx. apply Hn. now apply HV.
    + apply reach_arc with y; auto.
      intros Hx. apply Hn. apply reach_compose with x; [now apply HV|].
      apply reach_arc with y; auto.
Qed.

Lemma marked_zero n : ~ marked Bits_zero n.
Proof. unfold marked, Bits_zero. rewrite Z.testbit_0_l. discriminate. Qed.

Section RunShared.

Variables A U1 U2 : Type.
Variable tgt : A -> Z.
Variable wrap : list (list A) -> GraphArg.
Variable cf1 : config U1.
Variable cf2 : config U2.
Variable t : list (list A).
Variable u1 : U1.
Variable u2 : U2.
Variables s1 s2 : Z.

Let st1 : State A U1 := mkState t Bits_zero u1 [] 0.
Let r1 : Result U1 := finish wrap (func tgt cf1 (S (List.length t)) s1 st1) st1.
Let st2 : State A U2 := mkState t (res_visited r1) u2 [] 0.
Let r2 : Result U2 := finish wrap (func tgt cf2 (S (List.length t)) s2 st2) st2.

Hypothesis t_bounds : bounds_ok tgt t.
Hypothesis rand1 : rand_ok cf1.
Hypothesis rand2 : rand_ok cf2.
Hypothesis range1 : 0 <= s1 < Z.of_nat (List.length t).
Hypothesis range2 : 0 <= s2 < Z.of_nat (List.length t).
Hypothesis mode1 : okNodeVisitor cf1 = None /\ okArcVisitor cf1 = None.
Hypothesis mode2 : okNodeVisitor cf2 = None /\ okArcVisitor cf2 = None.

Lemma run_shared :
  res_status r2 = Returned None /\
  (forall n, In n (visits (res_log r2)) <->
             reach tgt t (fun _ => False) s2 n /\
             ~ reach tgt t (fun _ => False) s1 n) /\
  (forall n, marked (res_visited r2) n <->
             reach tgt t (fun _ => False) s1 n \/
             reach tgt t (fun _ => False) s2 n).
Proof.
  destruct mode1 as [Hon1 Hoa1], mode2 as [Hon2 Hoa2].
  destruct (@run_dfs A U1 tgt wrap cf1 t Bits_zero u1 s1
              t_bounds rand1 range1 Hon1 Hoa1) as (_ & _ & Hm1).
  fold st1 in Hm1. fold r1 in Hm1.
  assert (Hb1 : forall n, marked (res_visited r1) n <->
                          reach tgt t (fun _ => False) s1 n).
  { intros n. rewrite Hm1. split.
    - intros [H|H]; [now apply marked_zero in H|].
      revert H. apply reach_anti. contradiction.
    - intros H. right. apply reach_clear; auto.
      intros m _. apply marked_zero. }
  pose proof (@run_safe A U2 tgt wrap cf2 t (res_visited r1) u2 s2
                t_bounds rand2 range2) as Hs2.
  destruct (@run_dfs A U2 tgt wrap cf2 t (res_visited r1) u2 s2
              t_bounds rand2 range2 Hon2 Hoa2) as (_ & Hv2 & Hm2).
  fold st2 in Hs2, Hv2, Hm2. fold r2 in Hs2, Hv2, Hm2.
  pose proof (@reach_minus A tgt t (marked (res_visited r1)) s1 Hb1) as Hminus.
  split; [exact Hs2|]. split.
  - intros n. rewrite Hv2. apply Hminus.
  - intros n. rewrite Hm2, Hminus, Hb1. split; [tauto|].
    intros [H|H]; [now left|].
    destruct (Z.testbit (res_visited r1) n) eqn:E.
    + left. now apply Hb1.
    + right. split; auto. intros H1. apply Hb1 in H1.
      unfold marked in H1. congruence.
Qed.

End RunShared.

(** X10.  Two traversals that share one bitset, as when the components of a
    graph are collected: after a traversal from [s1] on an empty bitset, a
    traversal from [s2] that is handed the bitset as the first left it
    returns, visits exactly the nodes reachable from [s2] that are not
    reachable from [s1], and leaves marked exactly the nodes reachable from
    either. *)
Theorem Search_shared_bits U1 U2 (g : GraphArg) (s1 s2 : Z)
    (options1 : list (config U1 -> config U1))
    (options2 : list (config U2 -> config U2)) (u1 : U1) (u2 : U2) :
  let cf1 := configure options1 in
  let r1 := Search g s1 options1 u1 in
  let cf2 := configure options2 in
  let r2 := Search g s2 (options2 ++ [set_visited (res_visited r1)]) u2 in
  bits_in_use cf1 = Bits_zero ->
  okNodeVisitor cf1 = None /\ okArcVisitor cf1 = None ->
  okNodeVisitor cf2 = None /\ okArcVisitor cf2 = None ->
  rand_ok cf1 -> rand_ok cf2 ->
  g <> OtherArg -> BoundsOk g -> InRange g s1 -> InRange g s2 ->
  res_status r2 = Returned None /\
  (forall n, In n (visits (res_log r2)) <->
             Reachable g s2 n /\ ~ Reachable g s1 n) /\
  (forall n, marked (res_visited r2) n <->
             Reachable g s1 n \/ Reachable g s2 n).
Proof.
  intros cf1 r1 cf2 r2 Hb0 Hm1 Hm2 Hr1 Hr2 Hg Hb Hs1 Hs2.
  subst r2 r1. unfold Search. rewrite configure_app. fold cf1 cf2.
  assert (Hc1 : ~ conflicting cf1).
  { destruct Hm1 as [E1 E2]. intros [[_ H]|[_ H]]; congruence. }
  set (b1 := res_visited (Search_cf g s1 cf1 u1)).
  set (cf2' := set_visited b1 cf2).
  assert (Hm2' : okNodeVisitor cf2' = None /\ okArcVisitor cf2' = None)
    by exact Hm2.
  assert (Hr2' : rand_ok cf2') by exact Hr2.
  assert (Hc2 : ~ conflicting cf2').
  { destruct Hm2' as [E1 E2]. intros [[_ H]|[_ H]]; congruence. }
  rewrite (Search_cf_run g s2 u2 Hc2).
  change (bits_in_use cf2') with b1. subst b1.
  rewrite (Search_cf_run g s1 u1 Hc1). rewrite Hb0.
  destruct g as [t|t|]; [| |congruence]; unfold Reachable; simpl in *.
  - apply (@run_shared Z U1 U2 adjTo AdjArg cf1 cf2' t u1 u2 s1 s2); auto.
  - apply (@run_shared Half U1 U2 To LabArg cf1 cf2' t u1 u2 s1 s2); auto.
Qed.

Lemma Search_shared_bits_witness :
  let g := AdjArg [[1]; [0]; [3; 1]; [2]; []] in
  let no : list (config unit -> config unit) := [] in
  let r1 := Search g 0 no tt in
  let r2 := Search g 2 (no ++ [set_visited (res_visited r1)]) tt in
  visits (res_log r2) = [2; 3] /\
  res_status r2 = Returned None /\
  (forall n, In n (visits (res_log r2)) <->
             Reachable g 2 n /\ ~ Reachable g 0 n) /\
  (forall n, marked (res_visited r2) n <->
             Reachable g 0 n \/ Reachable g 2 n).
Proof.
  intros g no r1 r2. split; [reflexivity|].
  apply (@Search_shared_bits unit unit g 0 2 no no tt tt).
  - reflexivity.
  - split; reflexivity.
  - split; reflexivity.
  - intros rr Hrr. discriminate.
  - intros rr Hrr. discriminate.
  - discriminate.
  - simpl. literal_bounds.
  - unfold InRange. simpl. lia.
  - unfold InRange. simpl. lia.
Defined.

(** ** The calls of the arc visitor *)

(** The arcs shown to an arc visitor, as (node, index in the slot). *)
Definition arc_calls (l : list Event) : list (Z * nat) :=
  flat_map (fun e => match e with
                     | EvArcVisitor n x => [(n, x)]
                     | EvOkArcVisitor n x _ => [(n, x)]
                     | _ => []
                     end) l.

Lemma arc_calls_app l1 l2 : arc_calls (l1 ++ l2) = arc_calls l1 ++ arc_calls l2.
Proof. unfold arc_calls. apply flat_map_app. Qed.

(** The arcs leaving node [n], as (node, index in the slot). *)
Definition slot_arcs {A} (g : list (list A)) (n : Z) : list (Z * nat) :=
  match nth_error g (Z.to_nat n) with
  | Some to => map (pair n) (seq 0 (List.length to))
  | None => []
  end.

Lemma perm_step X (M F C C2 F2 : list X) e :
  Permutation C (M ++ F) -> Permutation C2 F2 ->
  Permutation ((C ++ [e]) ++ C2) ((M ++ [e]) ++ F ++ F2).
Proof.
  intros H1 H2. rewrite <- !app_assoc.
  transitivity ((M ++ F) ++ [e] ++ F2).
  - apply Permutation_app; [exact H1|].
    apply Permutation_app; [reflexivity | exact H2].
  - rewrite <- app_assoc. apply Permutation_app_head.
    apply Permutation_app_swap_app.
Qed.

Section ArcCalls.

Variables A U : Type.
Variable tgt : A -> Z.
Variable cf : config U.
Variable g : list (list A).

Local Abbreviation St := (State A U).

Hypothesis cf_rand : rand_ok cf.

(** From [st] to [st'] the graph stayed, the arc visitor was shown [C] and
    the nodes [V] were visited. *)
Definition tally (st st' : St) (C : list (Z * nat)) (V : list Z) : Prop :=
  st_graph st' = st_graph st /\
  exists L, st_log st' = st_log st ++ L /\ arc_calls L = C /\ visits L = V.

Lemma tally_refl st : tally st st [] [].
Proof. split; [reflexivity|]. exists []. now rewrite app_nil_r. Qed.

Lemma tally_trans st1 st2 st3 C1 C2 V1 V2 :
  tally st1 st2 C1 V1 -> tally st2 st3 C2 V2 ->
  tally st1 st3 (C1 ++ C2) (V1 ++ V2).
Proof.
  intros (G1 & L1 & E1 & <- & <-) (G2 & L2 & E2 & <- & <-).
  split; [congruence|]. exists (L1 ++ L2).
  rewrite E2, E1, app_assoc, arc_calls_app, visits_app. auto.
Qed.

Lemma tally_quiet st1 st2 st3 C V :
  tally st1 st2 C V -> tally st2 st3 [] [] -> tally st1 st3 C V.
Proof.
  intros H1 H2. pose proof (tally_trans H1 H2) as H.
  now rewrite !app_nil_r in H.
Qed.

Lemma tally_entered st n : tally st (entered st n) [] [n].
Proof. split; [reflexivity|]. exists [EvVisit n]. auto. Qed.

Lemma pre_node_tally n (st st' : St) :
  pre_node cf n st = Ok tt st' -> tally st st' [] [].
Proof.
  unfold pre_node. destruct (nodeVisitor cf) as [v|]; intros H;
    injection H as <-.
  - split; [reflexivity|]. exists [EvNodeVisitor n]. auto.
  - apply tally_refl.
Qed.

Lemma pre_node_ok_tally n (st st' : St) ok :
  pre_node_ok cf n st = Ok ok st' -> tally st st' [] [].
Proof.
  unfold pre_node_ok. destruct (okNodeVisitor cf) as [v|].
  - intros H. injection H as _ <-.
    split; [reflexivity|]. eexists [_]. simpl. auto.
  - unfold bind. destruct (pre_node cf n st) as [[] s1|s1|] eqn:E;
      try discriminate.
    intros H. injection H as _ <-. now apply pre_node_tally in E.
Qed.

Lemma pre_arc_tally n x (st st' : St) :
  arcVisitor cf <> None ->
  pre_arc cf n x st = Ok tt st' -> tally st st' [(n, x)] [].
Proof.
  unfold pre_arc. destruct (arcVisitor cf) as [v|]; [|congruence].
  intros _ H. injection H as <-.
  split; [reflexivity|]. exists [EvArcVisitor n x]. auto.
Qed.

Lemma pre_arc_ok_tally n x (st st' : St) ok :
  arcVisitor cf <> None \/ okArcVisitor cf <> None ->
  pre_arc_ok cf n x st = Ok ok st' -> tally st st' [(n, x)] [].
Proof.
  unfold pre_arc_ok. destruct (okArcVisitor cf) as [v|].
  - intros _ H. injection H as _ <-.
    split; [reflexivity|]. eexists [_]. simpl. auto.
  - intros [Ha|Ha]; [|congruence].
    unfold bind. destruct (pre_arc cf n x st) as [[] s1|s1|] eqn:E;
      try discriminate.
    intros H. injection H as _ <-. now apply pre_arc_tally in E.
Qed.

Lemma order_tally (to : list A) (st st' : St) p :
  order cf to st = Ok p st' ->
  tally st st' [] [] /\ Permutation p (seq 0 (List.length to)).
Proof.
  unfold order. destruct (rand cf) as [r|] eqn:Hr; intros H;
    injection H as <- <-.
  - split; [|now apply cf_rand].
    split; [reflexivity|]. exists []. simpl. now rewrite app_nil_r.
  - split; [apply tally_refl | reflexivity].
Qed.

(** The arc visitor was shown exactly the arcs leaving the nodes visited. *)
Definition exact (st st' : St) : Prop :=
  exists C V, tally st st' C V /\
              Permutation C (flat_map (slot_arcs g) V).

Lemma exact_refl st : exact st st.
Proof. exists [], []. split; [apply tally_refl | constructor]. Qed.

(** The state of the loop over the slot of [n]. *)
Definition in_slot (st : St) (n : Z) (done : list nat) (s : St) : Prop :=
  exists C V, tally st s C (n :: V) /\
              Permutation C (map (pair n) done ++ flat_map (slot_arcs g) V).

Lemma in_slot_step st n done x s s1 s2 :
  in_slot st n done s -> tally s s1 [(n, x)] [] -> exact s1 s2 ->
  in_slot st n (done ++ [x]) s2.
Proof.
  intros (C & V & T & HP) T1 (C2 & V2 & T2 & HP2).
  exists ((C ++ [(n, x)]) ++ C2), (V ++ V2). split.
  - pose proof (tally_trans (tally_trans T T1) T2) as H.
    now rewrite app_nil_r in H.
  - rewrite map_app, flat_map_app. simpl map. now apply perm_step.
Qed.

Lemma in_slot_exact st n (to : list A) p s :
  0 <= n -> st_graph st = g -> nth_error g (Z.to_nat n) = Some to ->
  Permutation p (seq 0 (List.length to)) ->
  in_slot st n p s -> exact st s.
Proof.
  intros Hn Hg Hto Hp (C & V & T & HP). exists C, (n :: V).
  split; [exact T|]. simpl. unfold slot_arcs at 1. rewrite Hto.
  rewrite HP. apply Permutation_app_tail. now apply Permutation_map.
Qed.

Lemma traverse_fuel_arcs fuel : arcVisitor cf <> None ->
  forall n (st : St), st_graph st = g ->
  wp True (traverse_fuel tgt cf fuel n) (fun _ st' => exact st st')
     (fun _ => True) st.
Proof.
  intros Harc. induction fuel as [|k IH]; intros n st Hg; [exact I|].
  eapply wp_equiv; [apply traverse_fuel_S|]. unfold traverse_std.
  apply wp_bind. apply visitedFunc_spec; auto.
  - intros _ _. apply wp_ret, exact_refl.
  - intros Hn Hbit.
    apply wp_bind. apply emit_spec. change (mkState _ _ _ _ _) with (entered st n).
    apply wp_bind. apply wp_of_ok; [apply pre_node_spec; auto|].
    intros [] st1 H1.
    pose proof (tally_quiet (tally_entered st n) (pre_node_tally _ _ H1)) as T1.
    unfold recurse_std. apply wp_bind. apply index_graph_spec; auto.
    intros to _ Hto. destruct T1 as (G1 & T1'). rewrite G1 in Hto.
    simpl in Hto. rewrite Hg in Hto.
    assert (T1 : tally st st1 [] [n]) by (split; auto).
    apply wp_bind. apply wp_of_ok; [apply order_runs|].
    intros p st2 H2. destruct (order_tally _ _ H2) as (T2 & Hp).
    pose proof (tally_quiet T1 T2) as T12.
    eapply wp_mono;
      [| |apply (@wp_for_each A U True nat p _ (in_slot st n) (fun _ => True))].
    + intros u s' Hs'. eapply in_slot_exact; eauto.
    + auto.
    + intros done x rest s _ Hs.
      apply wp_bind. apply wp_of_ok; [apply pre_arc_spec; auto|].
      intros [] s1 Hs1. pose proof (pre_arc_tally _ _ _ Harc Hs1) as Ts1.
      assert (Hgs1 : st_graph s1 = g).
      { destruct Hs as (? & ? & (Gs & _) & _). destruct Ts1 as (Gs1 & _).
        rewrite Gs1, Gs. exact Hg. }
      apply wp_bind. apply index_slot_spec; auto.
      intros a _. eapply wp_mono; [| |apply (IH (tgt a) s1 Hgs1)]; simpl; auto.
      intros _ s2 Hs2. eapply in_slot_step; eauto.
    + exists [], []. split; [exact T12 | constructor].
Qed.

Lemma search_fuel_arcs fuel :
  arcVisitor cf <> None \/ okArcVisitor cf <> None ->
  forall n (st : St), st_graph st = g ->
  wp True (search_fuel tgt cf fuel n)
     (fun ok st' => ok = true -> exact st st') (fun _ => True) st.
Proof.
  intros Harc. induction fuel as [|k IH]; intros n st Hg; [exact I|].
  eapply wp_equiv; [apply search_fuel_S|]. unfold search_std.
  apply wp_bind. apply visitedFunc_spec; auto.
  - intros _ _. apply wp_ret. intros _. apply exact_refl.
  - intros Hn Hbit.
    apply wp_bind. apply emit_spec. change (mkState _ _ _ _ _) with (entered st n).
    apply wp_bind. apply wp_of_ok; [apply pre_node_ok_spec; auto|].
    intros ok st1 H1. destruct ok; [|apply wp_ret; discriminate].
    pose proof (tally_quiet (tally_entered st n) (pre_node_ok_tally _ _ H1)) as T1.
    unfold recurse_ok_std. apply wp_bind. apply index_graph_spec; auto.
    intros to _ Hto. destruct T1 as (G1 & T1'). rewrite G1 in Hto.
    simpl in Hto. rewrite Hg in Hto.
    assert (T1 : tally st st1 [] [n]) by (split; auto).
    apply wp_bind. apply wp_of_ok; [apply order_runs|].
    intros p st2 H2. destruct (order_tally _ _ H2) as (T2 & Hp).
    pose proof (tally_quiet T1 T2) as T12.
    eapply wp_mono;
      [| |apply (@wp_for_each_ok A U True nat p _ (in_slot st n)
                   (fun _ => True) (fun _ => True))].
    + intros [] s' Hs'; [|discriminate]. intros _.
      eapply in_slot_exact; eauto.
    + auto.
    + intros done x rest s _ Hs.
      apply wp_bind. apply wp_of_ok; [apply pre_arc_ok_spec; auto|].
      intros ok s1 Hs1. destruct ok; [|apply wp_ret; exact I].
      pose proof (pre_arc_ok_tally _ _ _ Harc Hs1) as Ts1.
      assert (Hgs1 : st_graph s1 = g).
      { destruct Hs as (? & ? & (Gs & _) & _). destruct Ts1 as (Gs1 & _).
        rewrite Gs1, Gs. exact Hg. }
      apply wp_bind. apply index_slot_spec; auto.
      intros a _. eapply wp_mono; [| |apply (IH (tgt a) s1 Hgs1)]; simpl; auto.
      intros [] s2 Hs2; [|exact I]. eapply in_slot_step; eauto.
    + exists [], []. split; [exact T12 | constructor].
Qed.

End ArcCalls.

Section RunArcs.

Variables A U : Type.
Variable tgt : A -> Z.
Variable wrap : list (list A) -> GraphArg.
Variable cf : config U.
Variable t : list (list A).
Variable b : Z.
Variable u0 : U.
Variable start : Z.

Let st0 : State A U := mkState t b u0 [] 0.
Let r : Result U := finish wrap (func tgt cf (S (List.length t)) start st0) st0.

Lemma exact_log (st' : State A U) :
  exact t st0 st' ->
  Permutation (arc_calls (st_log st'))
              (flat_map (slot_arcs t) (visits (st_log st'))).
Proof.
  intros (C & V & (_ & L & HL & <- & <-) & HP). simpl in HL. now rewrite HL.
Qed.

Lemma run_arcs :
  arcVisitor cf <> None \/ okArcVisitor cf <> None ->
  rand_ok cf -> res_status r = Returned None -> nostop (res_log r) ->
  Permutation (arc_calls (res_log r))
              (flat_map (slot_arcs t) (visits (res_log r))).
Proof.
  intros Harc Hrand. subst r. unfold func.
  assert (Hsearch :
    forall ok st', search_fuel tgt cf (S (List.length t)) start st0 = Ok ok st' ->
                   nostop (st_log st') ->
                   Permutation (arc_calls (st_log st'))
                               (flat_map (slot_arcs t) (visits (st_log st')))).
  { intros ok st' Hrun Hns.
    pose proof (@search_fuel_arcs A U tgt cf t Hrand (S (List.length t)) Harc
                  start st0 eq_refl) as Ha.
    pose proof (@search_fuel_stop A U tgt cf (S (List.length t)) start st0) as Hp.
    unfold wp in Ha, Hp. rewrite Hrun in Ha, Hp. destruct ok.
    - now apply exact_log, Ha.
    - exfalso. destruct Hp as (l & e & Hl & _ & He). simpl in Hl.
      eapply (@nostop_no_stop (st_log st') l e []); eauto. }
  destruct (okNodeVisitor cf) as [w|]; [|destruct (okArcVisitor cf) as [w|]].
  - unfold bind, finish.
    destruct (search_fuel tgt cf (S (List.length t)) start st0)
      as [ok st'|st'|] eqn:Hrun; simpl; try discriminate.
    intros _. now apply (Hsearch ok).
  - unfold bind, finish.
    destruct (search_fuel tgt cf (S (List.length t)) start st0)
      as [ok st'|st'|] eqn:Hrun; simpl; try discriminate.
    intros _. now apply (Hsearch ok).
  - assert (Hav : arcVisitor cf <> None) by (destruct Harc; congruence).
    pose proof (@traverse_fuel_arcs A U tgt cf t Hrand (S (List.length t)) Hav
                  start st0 eq_refl) as Ha.
    unfold wp in Ha. unfold finish.
    destruct (traverse_fuel tgt cf (S (List.length t)) start st0)
      as [[] st'|st'|]; simpl; try discriminate.
    intros _ _. now apply exact_log.
Qed.

End RunArcs.

(** The arcs leaving node [n] of the graph handed to [Search]. *)
Definition Arcs (g : GraphArg) (n : Z) : list (Z * nat) :=
  match g with
  | AdjArg t => slot_arcs t n
  | LabArg t => slot_arcs t n
  | OtherArg => []
  end.

(** X8.  With an arc visitor configured, a call that returns without a stop
    answer has shown the visitor every arc leaving a visited node, each
    exactly once, whether or not the arc leads to a node visited before,
    and nothing else.  Plain or conditional visitor, stored order or a
    random source. *)
Theorem Search_arc_visitor_calls U (g : GraphArg) (start : Z)
    (options : list (config U -> config U)) (u0 : U) :
  let cf := configure options in
  let r := Search g start options u0 in
  arcVisitor cf <> None \/ okArcVisitor cf <> None ->
  rand_ok cf ->
  res_status r = Returned None -> nostop (res_log r) ->
  Permutation (arc_calls (res_log r))
              (flat_map (Arcs g) (visits (res_log r))).
Proof.
  intros cf r Harc Hrand. subst r. unfold Search. fold cf.
  destruct (conflicting_dec cf) as [Hc|Hc].
  - destruct (Search_cf_conflict g start u0 Hc) as (msg & ->). discriminate.
  - rewrite Search_cf_run by auto. destruct g as [t|t|]; [| |discriminate].
    + apply (@run_arcs Z U adjTo AdjArg cf t (bits_in_use cf) u0 start); auto.
    + apply (@run_arcs Half U To LabArg cf t (bits_in_use cf) u0 start); auto.
Qed.

Lemma Search_arc_visitor_calls_witness :
  let g := AdjArg [[1; 2]; [2]; [0]; [1]] in
  let opts := [Rand (fun _ n => rev (seq 0 n));
               ArcVisitor (fun (n : Z) (x : nat) (u : nat) => S u)] in
  let r := Search g 0 opts O in
  arc_calls (res_log r) = [(0, 1%nat); (2, 0%nat); (0, 0%nat); (1, 0%nat)] /\
  res_user r = 4%nat /\
  Permutation (arc_calls (res_log r))
              (flat_map (Arcs g) (visits (res_log r))).
Proof.
  intros g opts r. split; [reflexivity|]. split; [reflexivity|].
  apply (@Search_arc_visitor_calls nat g 0 opts O).
  - left. discriminate.
  - intros rr Hrr. injection Hrr as <-. intros k n.
    apply Permutation_sym, Permutation_rev.
  - reflexivity.
  - vm_compute. repeat constructor.
Defined.

(** ** The start node at the edges *)

Section RunEdge.

Variables A U : Type.
Variable tgt : A -> Z.
Variable wrap : list (list A) -> GraphArg.
Variable cf : config U.
Variable t : list (list A).
Variable b : Z.
Variable u0 : U.
Variable start : Z.

Local Abbreviation St := (State A U).

Let st0 : St := mkState t b u0 [] 0.
Let r : Result U := finish wrap (func tgt cf (S (List.length t)) start st0) st0.

Lemma marked_nonneg (v n : Z) : marked v n -> 0 <= n.
Proof.
  unfold marked. intros H. destruct (Z.ltb_spec n 0); [|lia].
  rewrite Z.testbit_neg_r in H by lia. discriminate.
Qed.

Lemma traverse_fuel_seen k n (st : St) :
  marked (st_visited st) n ->
  wp False (traverse_fuel tgt cf (S k) n) (fun _ st' => st' = st)
     (fun _ => False) st.
Proof.
  intros Hm. eapply wp_equiv; [apply traverse_fuel_S|]. unfold traverse_std.
  apply wp_bind. apply visitedFunc_spec.
  - intros Hn. apply marked_nonneg in Hm. lia.
  - intros _ _. now apply wp_ret.
  - intros _ Hbit. unfold marked in Hm. congruence.
Qed.

Lemma search_fuel_seen k n (st : St) :
  marked (st_visited st) n ->
  wp False (search_fuel tgt cf (S k) n) (fun _ st' => st' = st)
     (fun _ => False) st.
Proof.
  intros Hm. eapply wp_equiv; [apply search_fuel_S|]. unfold search_std.
  apply wp_bind. apply visitedFunc_spec.
  - intros Hn. apply marked_nonneg in Hm. lia.
  - intros _ _. now apply wp_ret.
  - intros _ Hbit. unfold marked in Hm. congruence.
Qed.

Lemma run_seen :
  marked b start ->
  r = mkResult (Returned None) (wrap t) b u0 [].
Proof.
  intros Hm. subst r. unfold func.
  pose proof (@traverse_fuel_seen (List.length t) start st0 Hm) as Ht.
  pose proof (@search_fuel_seen (List.length t) start st0 Hm) as Hs.
  unfold wp in Ht, Hs.
  destruct (okNodeVisitor cf); [|destruct (okArcVisitor cf)]; unfold bind;
    try (destruct (search_fuel tgt cf (S (List.length t)) start st0)
           as [ok st'|st'|]; try contradiction; subst st'; reflexivity).
  destruct (traverse_fuel tgt cf (S (List.length t)) start st0)
    as [[] st'|st'|]; try contradiction. subst st'. reflexivity.
Qed.

(** A node beyond the graph has been entered: marked and logged. *)
Definition beyond (st : St) (n : Z) (st' : St) : Prop :=
  st_visited st' = Z.setbit (st_visited st) n /\
  visits (st_log st') = visits (st_log st) ++ [n].

Lemma beyond_quiet st n st' :
  quiet_step (entered st n) st' -> beyond st n st'.
Proof.
  intros (_ & V & l & L & Hv & _). split; [exact V|].
  rewrite L, visits_app, Hv, app_nil_r. simpl. apply visits_app.
Qed.

Lemma beyond_stop st n st' :
  stop_step (entered st n) st' ->
  beyond st n st' /\ ~ nostop (st_log st').
Proof.
  intros (_ & V & e & L & Hv & He). split.
  - split; [exact V|].
    rewrite L, visits_app, Hv, app_nil_r. simpl. apply visits_app.
  - intros Hns. eapply (@nostop_no_stop (st_log st') _ e []); eauto.
Qed.

Lemma traverse_fuel_beyond k n (st : St) :
  0 <= n -> ~ marked (st_visited st) n ->
  nth_error (st_graph st) (Z.to_nat n) = None ->
  wp False (traverse_fuel tgt cf (S k) n) (fun _ _ => False)
     (fun st' => beyond st n st') st.
Proof.
  intros Hn Hm Hnone. eapply wp_equiv; [apply traverse_fuel_S|].
  unfold traverse_std. apply wp_bind. apply visitedFunc_spec.
  - lia.
  - intros _ Hbit. now apply Hm in Hbit.
  - intros _ _. apply wp_bind. apply emit_spec.
    change (mkState _ _ _ _ _) with (entered st n).
    apply wp_bind. apply pre_node_spec. intros st1 Hq.
    unfold recurse_std. apply wp_bind. apply index_graph_spec.
    + intros _. now apply beyond_quiet.
    + intros to _ Hto. destruct Hq as (G & _). rewrite G in Hto.
      simpl in Hto. congruence.
Qed.

Lemma search_fuel_beyond k n (st : St) :
  0 <= n -> ~ marked (st_visited st) n ->
  nth_error (st_graph st) (Z.to_nat n) = None ->
  wp False (search_fuel tgt cf (S k) n)
     (fun _ st' => beyond st n st' /\ ~ nostop (st_log st'))
     (fun st' => beyond st n st') st.
Proof.
  intros Hn Hm Hnone. eapply wp_equiv; [apply search_fuel_S|].
  unfold search_std. apply wp_bind. apply visitedFunc_spec.
  - lia.
  - intros _ Hbit. now apply Hm in Hbit.
  - intros _ _. apply wp_bind. apply emit_spec.
    change (mkState _ _ _ _ _) with (entered st n).
    apply wp_bind. apply pre_node_ok_spec.
    2:{ intros st1 Hs. apply wp_ret. now apply beyond_stop. }
    intros st1 Hq.
    unfold recurse_ok_std. apply wp_bind. apply index_graph_spec.
    + intros _. now apply beyond_quiet.
    + intros to _ Hto. destruct Hq as (G & _). rewrite G in Hto.
      simpl in Hto. congruence.
Qed.

Lemma run_beyond :
  Z.of_nat (List.length t) <= start -> ~ marked b start ->
  visits (res_log r) = [start] /\
  res_visited r = Z.setbit b start /\
  (nostop (res_log r) -> res_status r = Panicked).
Proof.
  intros Hge Hm.
  assert (Hn : 0 <= start) by lia.
  assert (Hnone : nth_error (st_graph st0) (Z.to_nat start) = None).
  { apply nth_error_None. simpl. lia. }
  pose proof (@traverse_fuel_beyond (List.length t) start st0 Hn Hm Hnone) as Ht.
  pose proof (@search_fuel_beyond (List.length t) start st0 Hn Hm Hnone) as Hs.
  unfold wp in Ht, Hs. subst r. unfold func.
  destruct (okNodeVisitor cf); [|destruct (okArcVisitor cf)]; unfold bind;
    try (destruct (search_fuel tgt cf (S (List.length t)) start st0)
           as [ok st'|st'|]; try contradiction; simpl;
         [destruct Hs as ((V & L) & Hns) | destruct Hs as (V & L)];
         (split; [exact L|]); (split; [exact V|]); tauto).
  destruct (traverse_fuel tgt cf (S (List.length t)) start st0)
    as [[] st'|st'|]; try contradiction. simpl. destruct Ht as (V & L).
  split; [exact L|]. split; [exact V|]. reflexivity.
Qed.

End RunEdge.

(** X13.  A start node that is already marked in the bitset handed to
    [Search] makes the call a no-op: nothing is visited, no visitor is
    called, bitset and caller's state stay as they were, and unless the
    options are contradictory or the graph type is unknown [nil] is
    returned.  No other property of the graph or of the node is looked
    at. *)
Theorem Search_start_marked U (g : GraphArg) (start : Z)
    (options : list (config U -> config U)) (u0 : U) :
  let cf := configure options in
  let r := Search g start options u0 in
  marked (bits_in_use cf) start ->
  res_log r = [] /\ res_visited r = bits_in_use cf /\ res_user r = u0 /\
  res_graph r = g /\
  (~ conflicting cf -> g <> OtherArg -> res_status r = Returned None).
Proof.
  intros cf r Hm. subst r. unfold Search. fold cf.
  destruct (conflicting_dec cf) as [Hc|Hc].
  - destruct (Search_cf_conflict g start u0 Hc) as (msg & ->). simpl.
    repeat (split; [reflexivity|]). contradiction.
  - rewrite Search_cf_run by auto. destruct g as [t|t|].
    + unfold adjFunc.
      rewrite (@run_seen Z U adjTo AdjArg cf t (bits_in_use cf) u0 start Hm).
      simpl. auto.
    + unfold labFunc.
      rewrite (@run_seen Half U To LabArg cf t (bits_in_use cf) u0 start Hm).
      simpl. auto.
    + simpl. repeat (split; [reflexivity|]). congruence.
Qed.

Lemma Search_start_marked_witness :
  let g := AdjArg [[1]; [0; 9]] in
  let opts := [NodeVisitor (fun (n : Z) (u : nat) => S u); set_visited 1] in
  let r := Search g 0 opts O in
  res_log r = [] /\ res_visited r = bits_in_use (configure opts) /\
  res_user r = O /\ res_graph r = g /\
  (~ conflicting (configure opts) -> g <> OtherArg ->
   res_status r = Returned None).
Proof.
  intros g opts r. apply (@Search_start_marked nat g 0 opts O). reflexivity.
Defined.

(** X14.  A start node at or beyond the order of the graph, not yet marked,
    is entered before the fault: it is marked in the bitset and any node
    visitor is called on it, and only then does indexing the graph fault.
    The caller is left with a bitset holding a node the graph does not
    have.  (A conditional node visitor that answers stop makes the call
    return instead.) *)
Theorem Search_start_beyond U (g : GraphArg) (start : Z)
    (options : list (config U -> config U)) (u0 : U) :
  let cf := configure options in
  let r := Search g start options u0 in
  ~ conflicting cf -> g <> OtherArg ->
  Z.of_nat (Order g) <= start -> ~ marked (bits_in_use cf) start ->
  visits (res_log r) = [start] /\
  res_visited r = Z.setbit (bits_in_use cf) start /\
  (nostop (res_log r) -> res_status r = Panicked).
Proof.
  intros cf r Hc Hg Hge Hm. subst r. unfold Search. fold cf.
  rewrite Search_cf_run by auto. destruct g as [t|t|]; [| |congruence].
  - apply (@run_beyond Z U adjTo AdjArg cf t (bits_in_use cf) u0 start); auto.
  - apply (@run_beyond Half U To LabArg cf t (bits_in_use cf) u0 start); auto.
Qed.

Lemma Search_start_beyond_witness :
  let g := LabArg [[mkHalf 0 1]] in
  let opts := [NodeVisitor (fun (n : Z) (u : list Z) => n :: u)] in
  let r := Search g 3 opts [] in
  res_user r = [3] /\
  visits (res_log r) = [3] /\
  res_visited r = Z.setbit (bits_in_use (configure opts)) 3 /\
  (nostop (res_log r) -> res_status r = Panicked).
Proof.
  intros g opts r. split; [reflexivity|].
  apply (@Search_start_beyond (list Z) g 3 opts []).
  - intros [[_ H]|[_ H]]; apply H; reflexivity.
  - discriminate.
  - simpl. lia.
  - unfold marked. simpl. discriminate.
Defined.

(** ** The order of the arcs does not matter *)

Section RunOrder.

Variables A U1 U2 : Type.
Variable tgt : A -> Z.
Variable wrap : list (list A) -> GraphArg.
Variable cf1 : config U1.
Variable cf2 : config U2.
Variable t : list (list A).
Variable b : Z.
Variable u1 : U1.
Variable u2 : U2.
Variable start : Z.

Let r1 : Result U1 :=
  finish wrap (func tgt cf1 (S (List.length t)) start (mkState t b u1 [] 0))
         (mkState t b u1 [] 0).
Let r2 : Result U2 :=
  finish wrap (func tgt cf2 (S (List.length t)) start (mkState t b u2 [] 0))
         (mkState t b u2 [] 0).

Hypothesis t_bounds : bounds_ok tgt t.
Hypothesis rand1 : rand_ok cf1.
Hypothesis rand2 : rand_ok cf2.
Hypothesis start_range : 0 <= start < Z.of_nat (List.length t).
Hypothesis mode1 : okNodeVisitor cf1 = None /\ okArcVisitor cf1 = None.
Hypothesis mode2 : okNodeVisitor cf2 = None /\ okArcVisitor cf2 = None.

Lemma run_order :
  res_visited r1 = res_visited r2 /\
  Permutation (visits (res_log r1)) (visits (res_log r2)).
Proof.
  destruct mode1 as [Hon1 Hoa1], mode2 as [Hon2 Hoa2].
  destruct (@run_dfs A U1 tgt wrap cf1 t b u1 start
              t_bounds rand1 start_range Hon1 Hoa1) as (Hnd1 & Hv1 & Hm1).
  destruct (@run_dfs A U2 tgt wrap cf2 t b u2 start
              t_bounds rand2 start_range Hon2 Hoa2) as (Hnd2 & Hv2 & Hm2).
  fold r1 in Hnd1, Hv1, Hm1. fold r2 in Hnd2, Hv2, Hm2. split.
  - apply Z.bits_inj'. intros n _.
    pose proof (Hm1 n) as H1. pose proof (Hm2 n) as H2.
    unfold marked in H1, H2 at 1.
    destruct (Z.testbit (res_visited r1) n), (Z.testbit (res_visited r2) n);
      auto.
    + symmetry. apply H2, H1. reflexivity.
    + apply H1, H2. reflexivity.
  - apply NoDup_Permutation; auto.
    intros n. now rewrite Hv1, Hv2.
Qed.

End RunOrder.

(** X11.  In traversal mode on a graph whose arcs and start node are in
    range, neither the random source nor the visitors change what is
    visited: two calls from the same start with the same marks beforehand
    visit the same nodes, in whatever order, and leave the same bitset. *)
Theorem Search_order_irrelevant U1 U2 (g : GraphArg) (start : Z)
    (options1 : list (config U1 -> config U1))
    (options2 : list (config U2 -> config U2)) (u1 : U1) (u2 : U2) :
  let cf1 := configure options1 in
  let cf2 := configure options2 in
  let r1 := Search g start options1 u1 in
  let r2 := Search g start options2 u2 in
  bits_in_use cf1 = bits_in_use cf2 ->
  okNodeVisitor cf1 = None /\ okArcVisitor cf1 = None ->
  okNodeVisitor cf2 = None /\ okArcVisitor cf2 = None ->
  rand_ok cf1 -> rand_ok cf2 ->
  g <> OtherArg -> BoundsOk g -> InRange g start ->
  res_visited r1 = res_visited r2 /\
  Permutation (visits (res_log r1)) (visits (res_log r2)).
Proof.
  intros cf1 cf2 r1 r2 Hb Hm1 Hm2 Hr1 Hr2 Hg Hbd Hs.
  subst r1 r2. unfold Search. fold cf1 cf2.
  assert (Hc1 : ~ conflicting cf1).
  { destruct Hm1 as [E1 E2]. intros [[_ H]|[_ H]]; congruence. }
  assert (Hc2 : ~ conflicting cf2).
  { destruct Hm2 as [E1 E2]. intros [[_ H]|[_ H]]; congruence. }
  rewrite (Search_cf_run g start u1 Hc1), (Search_cf_run g start u2 Hc2).
  rewrite Hb. destruct g as [t|t|]; [| |congruence]; simpl in Hbd, Hs.
  - apply (@run_order Z U1 U2 adjTo AdjArg cf1 cf2 t
             (bits_in_use cf2) u1 u2 start); auto.
  - apply (@run_order Half U1 U2 To LabArg cf1 cf2 t
             (bits_in_use cf2) u1 u2 start); auto.
Qed.

Lemma Search_order_irrelevant_witness :
  let g := AdjArg [[1; 2]; [2]; [0]; [1]] in
  let opts1 : list (config unit -> config unit) := [] in
  let opts2 := [Rand (fun _ n => rev (seq 0 n));
                NodeVisitor (fun (n : Z) (u : nat) => S u)] in
  let r1 := Search g 0 opts1 tt in
  let r2 := Search g 0 opts2 O in
  visits (res_log r1) = [0; 1; 2] /\ visits (res_log r2) = [0; 2; 1] /\
  res_visited r1 = res_visited r2 /\
  Permutation (visits (res_log r1)) (visits (res_log r2)).
Proof.
  intros g opts1 opts2 r1 r2. split; [reflexivity|]. split; [reflexivity|].
  apply (@Search_order_irrelevant unit nat g 0 opts1 opts2 tt O).
  - reflexivity.
  - split; reflexivity.
  - split; reflexivity.
  - intros rr Hrr. discriminate.
  - intros rr Hrr. injection Hrr as <-. intros k n.
    apply Permutation_sym, Permutation_rev.
  - discriminate.
  - simpl. literal_bounds.
  - unfold InRange. simpl. lia.
Defined.

(** ** Labels are never looked at *)

Section Labels.

Variable U : Type.
Variable cf : config U.

(** A store over a labeled graph, with the labels dropped. *)
Definition strip (st : State Half U) : State Z U :=
  mkState (map (map To) (st_graph st)) (st_visited st) (st_user st)
          (st_log st) (st_rcalls st).

(** [c2] does on the stripped store what [c1] does on the labeled one, with
    results related by [R]. *)
Definition sim {B1 B2} (R : B1 -> B2 -> Prop)
    (c1 : M (State Half U) B1) (c2 : M (State Z U) B2) : Prop :=
  forall st,
    match c1 st, c2 (strip st) with
    | Ok a s, Ok a' s' => R a a' /\ s' = strip s
    | Panic s, Panic s' => s' = strip s
    | OutOfFuel, OutOfFuel => True
    | _, _ => False
    end.

Lemma sim_ret B1 B2 (R : B1 -> B2 -> Prop) a a' :
  R a a' -> sim R (ret a) (ret a').
Proof. intros H st. simpl. auto. Qed.

Lemma sim_bind B1 B2 C1 C2 (R : B1 -> B2 -> Prop) (R' : C1 -> C2 -> Prop)
    c1 c2 k1 k2 :
  sim R c1 c2 -> (forall a a', R a a' -> sim R' (k1 a) (k2 a')) ->
  sim R' (bind c1 k1) (bind c2 k2).
Proof.
  intros H Hk st. unfold bind. specialize (H st).
  destruct (c1 st) as [a s|s|], (c2 (strip st)) as [a' s'|s'|];
    try contradiction; auto.
  destruct H as [Hr ->]. now apply Hk.
Qed.

Lemma sim_equiv B1 B2 (R : B1 -> B2 -> Prop) c1 c1' c2 c2' :
  c1 =~ c1' -> c2 =~ c2' -> sim R c1' c2' -> sim R c1 c2.
Proof. intros H1 H2 H st. rewrite (H1 st), (H2 (strip st)). apply H. Qed.

Lemma sim_visitedFunc n : sim eq (@visitedFunc Half U n) (@visitedFunc Z U n).
Proof.
  intros st. unfold visitedFunc. simpl.
  destruct (Bits_Bit (st_visited st) n) as [[]|]; auto.
  destruct (Bits_SetBit1 (st_visited st) n); auto.
Qed.

Lemma sim_emit e : sim eq (@emit Half U e) (@emit Z U e).
Proof. intros st. simpl. auto. Qed.

Lemma sim_pre_node n : sim eq (@pre_node Half U cf n) (@pre_node Z U cf n).
Proof. intros st. unfold pre_node. destruct (nodeVisitor cf); simpl; auto. Qed.

Lemma sim_pre_arc n x : sim eq (@pre_arc Half U cf n x) (@pre_arc Z U cf n x).
Proof. intros st. unfold pre_arc. destruct (arcVisitor cf); simpl; auto. Qed.

Lemma sim_pre_node_ok n :
  sim eq (@pre_node_ok Half U cf n) (@pre_node_ok Z U cf n).
Proof.
  unfold pre_node_ok. destruct (okNodeVisitor cf).
  - intros st. simpl. auto.
  - apply sim_bind with (R := eq); [apply sim_pre_node|].
    intros _ _ _. now apply sim_ret.
Qed.

Lemma sim_pre_arc_ok n x :
  sim eq (@pre_arc_ok Half U cf n x) (@pre_arc_ok Z U cf n x).
Proof.
  unfold pre_arc_ok. destruct (okArcVisitor cf).
  - intros st. simpl. auto.
  - apply sim_bind with (R := eq); [apply sim_pre_arc|].
    intros _ _ _. now apply sim_ret.
Qed.

Lemma sim_index_graph n :
  sim (fun to to' => to' = map To to) (@index_graph Half U n) (@index_graph Z U n).
Proof.
  intros st. unfold index_graph. simpl. destruct (n <? 0); auto.
  rewrite nth_error_map.
  destruct (nth_error (st_graph st) (Z.to_nat n)); simpl; auto.
Qed.

Lemma sim_order (to : list Half) :
  sim eq (@order Half U cf to) (@order Z U cf (map To to)).
Proof.
  intros st. unfold order. rewrite length_map.
  destruct (rand cf); simpl; auto.
Qed.

Lemma sim_index_slot (to : list Half) x :
  sim (fun a a' => a' = To a) (@index_slot Half U to x)
      (@index_slot Z U (map To to) x).
Proof.
  intros st. unfold index_slot. rewrite nth_error_map.
  destruct (nth_error to x); simpl; auto.
Qed.

Lemma sim_for_each B (items : list B) b1 b2 :
  (forall x, sim eq (b1 x) (b2 x)) ->
  sim eq (for_each items b1) (for_each items b2).
Proof.
  intros Hb. induction items as [|i rest IH]; simpl.
  - now apply sim_ret.
  - apply sim_bind with (R := eq); auto.
Qed.

Lemma sim_for_each_ok B (items : list B) b1 b2 :
  (forall x, sim eq (b1 x) (b2 x)) ->
  sim eq (for_each_ok items b1) (for_each_ok items b2).
Proof.
  intros Hb. induction items as [|i rest IH]; simpl.
  - now apply sim_ret.
  - apply sim_bind with (R := eq); auto.
    intros ok _ <-. destruct ok; [exact IH | now apply sim_ret].
Qed.

Lemma sim_traverse fuel : forall n,
  sim eq (traverse_fuel To cf fuel n) (traverse_fuel adjTo cf fuel n).
Proof.
  induction fuel as [|k IH]; intros n; [intros st; exact I|].
  eapply sim_equiv; [apply traverse_fuel_S | apply traverse_fuel_S|].
  unfold traverse_std.
  apply sim_bind with (R := eq); [apply sim_visitedFunc|].
  intros seen _ <-. destruct seen; [now apply sim_ret|].
  apply sim_bind with (R := eq); [apply sim_emit|]. intros _ _ _.
  apply sim_bind with (R := eq); [apply sim_pre_node|]. intros _ _ _.
  unfold recurse_std.
  eapply sim_bind; [apply sim_index_graph|]. intros to _ ->.
  apply sim_bind with (R := eq); [apply sim_order|]. intros p _ <-.
  apply sim_for_each. intros x.
  apply sim_bind with (R := eq); [apply sim_pre_arc|]. intros _ _ _.
  eapply sim_bind; [apply sim_index_slot|]. intros a _ ->.
  apply IH.
Qed.

Lemma sim_search fuel : forall n,
  sim eq (search_fuel To cf fuel n) (search_fuel adjTo cf fuel n).
Proof.
  induction fuel as [|k IH]; intros n; [intros st; exact I|].
  eapply sim_equiv; [apply search_fuel_S | apply search_fuel_S|].
  unfold search_std.
  apply sim_bind with (R := eq); [apply sim_visitedFunc|].
  intros seen _ <-. destruct seen; [now apply sim_ret|].
  apply sim_bind with (R := eq); [apply sim_emit|]. intros _ _ _.
  apply sim_bind with (R := eq); [apply sim_pre_node_ok|]. intros ok _ <-.
  destruct ok; [|now apply sim_ret].
  unfold recurse_ok_std.
  eapply sim_bind; [apply sim_index_graph|]. intros to _ ->.
  apply sim_bind with (R := eq); [apply sim_order|]. intros p _ <-.
  apply sim_for_each_ok. intros x.
  apply sim_bind with (R := eq); [apply sim_pre_arc_ok|]. intros ok _ <-.
  destruct ok; [|now apply sim_ret].
  eapply sim_bind; [apply sim_index_slot|]. intros a _ ->.
  apply IH.
Qed.

Lemma sim_func fuel start :
  sim eq (func To cf fuel start) (func adjTo cf fuel start).
Proof.
  unfold func.
  destruct (okNodeVisitor cf); [|destruct (okArcVisitor cf)];
    try (apply sim_bind with (R := eq); [apply sim_search|];
         intros _ _ _; now apply sim_ret).
  apply sim_traverse.
Qed.

(** What a caller sees of a result, the graph apart. *)
Definition outcome_of (r : Result U) : Status * Z * U * list Event :=
  (res_status r, res_visited r, res_user r, res_log r).

Lemma sim_finish (t : list (list Half)) b u0 start :
  outcome_of (finish LabArg
                (func To cf (S (List.length t)) start (mkState t b u0 [] 0))
                (mkState t b u0 [] 0))
  = outcome_of (finish AdjArg
                  (func adjTo cf (S (List.length (map (map To) t))) start
                        (mkState (map (map To) t) b u0 [] 0))
                  (mkState (map (map To) t) b u0 [] 0)).
Proof.
  rewrite length_map.
  pose proof (sim_func (S (List.length t)) start (mkState t b u0 [] 0)) as H.
  unfold strip in H. simpl in H. unfold finish, outcome_of.
  destruct (func To cf (S (List.length t)) start (mkState t b u0 [] 0))
    as [[] s|s|],
    (func adjTo cf (S (List.length t)) start
          (mkState (map (map To) t) b u0 [] 0)) as [[] s'|s'|];
    try contradiction; auto.
  - destruct H as [_ ->]. reflexivity.
  - subst s'. reflexivity.
Qed.

End Labels.

(** X12.  The labels of a labeled graph are never looked at: whatever the
    options and the start node, [Search] on a [LabeledAdjacencyList] ends
    the same way, with the same bitset, the same caller's state and the
    same visits and visitor calls in the same order, as [Search] on the
    [AdjacencyList] that keeps only the [To] fields. *)
Theorem Search_labels_unused U (t : list (list Half)) (start : Z)
    (options : list (config U -> config U)) (u0 : U) :
  outcome_of (Search (LabArg t) start options u0)
  = outcome_of (Search (AdjArg (map (map To) t)) start options u0).
Proof.
  unfold Search. set (cf := configure options).
  unfold Search_cf, adjFunc, labFunc.
  destruct (nodeVisitor cf), (okNodeVisitor cf) eqn:Hon, (arcVisitor cf),
    (okArcVisitor cf) eqn:Hoa; try reflexivity; apply sim_finish.
Qed.

(** ** When [Search] faults *)

Section Fault.

Variables A U : Type.
Variable tgt : A -> Z.
Variable cf : config U.
Variable g : list (list A).

Local Abbreviation St := (State A U).

Hypothesis cf_rand : rand_ok cf.

Definition in_range (m : Z) : Prop := 0 <= m < Z.of_nat (List.length g).

(** Marks only grew, and every node visited meanwhile is a node of the
    graph. *)
Definition ranged (st st' : St) : Prop :=
  frame st st' /\
  exists L, visits (st_log st') = visits (st_log st) ++ L /\
            Forall in_range L.

(** A node outside the graph can be reached from [n] past the marks of
    [st]. *)
Definition fault (st : St) (n : Z) : Prop :=
  exists m, reach tgt g (marked (st_visited st)) n m /\ ~ in_range m.

Lemma ranged_refl st : ranged st st.
Proof.
  split; [apply frame_refl|]. exists []. now rewrite app_nil_r.
Qed.

Lemma ranged_trans st1 st2 st3 :
  ranged st1 st2 -> ranged st2 st3 -> ranged st1 st3.
Proof.
  intros (F1 & L1 & E1 & R1) (F2 & L2 & E2 & R2).
  split; [eapply frame_trans; eauto|]. exists (L1 ++ L2).
  rewrite E2, E1, app_assoc. split; [reflexivity|].
  apply Forall_app. auto.
Qed.

Lemma quiet_ranged st st' : quiet_step st st' -> ranged st st'.
Proof.
  intros Hq. split; [now apply quiet_frame|].
  destruct Hq as (_ & _ & l & L & Hv & _). exists [].
  now rewrite L, visits_app, Hv.
Qed.

Lemma stop_ranged st st' : stop_step st st' -> ranged st st'.
Proof.
  intros Hs. split; [now apply stop_frame|].
  destruct Hs as (_ & _ & e & L & Hv & _). exists [].
  now rewrite L, visits_app, Hv.
Qed.

Lemma entered_ranged st n : in_range n -> ranged st (entered st n).
Proof.
  intros Hin. split.
  - split; [reflexivity|]. intros m Hm.
    apply (marked_mark st); [apply Hin | now left].
  - exists [n]. split; [apply visits_app|]. now constructor.
Qed.

Lemma fault_here st n : ~ marked (st_visited st) n -> ~ in_range n -> fault st n.
Proof. intros Hm Hr. exists n. split; [now apply reach_here | exact Hr]. Qed.

Lemma fault_below st s1 n a to :
  ~ marked (st_visited st) n -> 0 <= n ->
  nth_error g (Z.to_nat n) = Some to -> In a to ->
  frame st s1 -> fault s1 (tgt a) -> fault st n.
Proof.
  intros Hroot Hn Hto Ha (_ & Hf) (m & Hm & Hbad). exists m.
  split; [|exact Hbad]. apply reach_arc with (tgt a); auto.
  - split; [exact Hn|]. exists to. split; auto. now apply in_map.
  - revert Hm. apply reach_anti. exact Hf.
Qed.

Lemma entered_frame (st : St) n : 0 <= n -> frame st (entered st n).
Proof.
  intros Hn. split; [reflexivity|]. intros m Hm.
  apply (marked_mark st); [exact Hn | now left].
Qed.

Lemma slot_in_range n to :
  0 <= n -> nth_error g (Z.to_nat n) = Some to -> in_range n.
Proof.
  intros Hn Hto. split; [exact Hn|].
  assert (Z.to_nat n < List.length g)%nat by (apply nth_error_Some; congruence).
  lia.
Qed.

Lemma slot_out_of_range n :
  0 <= n -> nth_error g (Z.to_nat n) = None -> ~ in_range n.
Proof.
  intros Hn Hnone [_ H]. apply nth_error_None in Hnone. lia.
Qed.

Lemma drawn_index (to : list A) (st : St) p done x rest :
  p = match rand cf with
      | Some r => r (st_rcalls st) (List.length to)
      | None => seq 0 (List.length to)
      end ->
  p = done ++ x :: rest -> nth_error to x <> None.
Proof.
  intros Hp Hitems.
  assert (Hperm : Permutation p (seq 0 (List.length to))).
  { rewrite Hp. destruct (rand cf) as [r|] eqn:Hr; [|reflexivity].
    now apply cf_rand. }
  assert (Hx : In x (seq 0 (List.length to))).
  { apply (Permutation_in _ Hperm). rewrite Hitems.
    apply in_or_app. right. now left. }
  apply in_seq in Hx. apply nth_error_Some. lia.
Qed.

Lemma traverse_fuel_fault fuel : forall n (st : St),
  st_graph st = g ->
  wp True (traverse_fuel tgt cf fuel n) (fun _ st' => ranged st st')
     (fun _ => fault st n) st.
Proof.
  induction fuel as [|k IH]; intros n st Hg; [exact I|].
  eapply wp_equiv; [apply traverse_fuel_S|]. unfold traverse_std.
  apply wp_bind. apply visitedFunc_spec.
  - intros Hneg. apply fault_here.
    + unfold marked. rewrite Z.testbit_neg_r by lia. discriminate.
    + unfold in_range. lia.
  - intros _ _. apply wp_ret, ranged_refl.
  - intros Hn0 Hbit.
    apply wp_bind. apply emit_spec. change (mkState _ _ _ _ _) with (entered st n).
    assert (Hroot : ~ marked (st_visited st) n) by (unfold marked; congruence).
    apply wp_bind. apply pre_node_spec. intros st1 Hq1.
    assert (Hg1 : st_graph st1 = g)
      by (destruct Hq1 as (G & _); rewrite G; exact Hg).
    unfold recurse_std. apply wp_bind. apply index_graph_spec.
    + intros [Hlt|Hnone]; [lia|]. rewrite Hg1 in Hnone.
      apply fault_here; auto. now apply slot_out_of_range.
    + intros to _ Hto. rewrite Hg1 in Hto.
      pose proof (ranged_trans (entered_ranged st (slot_in_range Hn0 Hto))
                               (quiet_ranged Hq1)) as R1.
      apply wp_bind. apply order_spec. intros p st2 Hq2 Hp.
      pose proof (ranged_trans R1 (quiet_ranged Hq2)) as R2.
      apply (@wp_for_each A U True nat p _ (fun _ s => ranged st s)
               (fun _ => fault st n)); [|exact R2].
      intros done x rest s Hitems Rs.
      apply wp_bind. apply pre_arc_spec. intros s1 Hq.
      pose proof (ranged_trans Rs (quiet_ranged Hq)) as Rs1.
      assert (Hgs1 : st_graph s1 = g).
      { destruct Rs1 as ((G & _) & _). rewrite G. exact Hg. }
      apply wp_bind. apply index_slot_spec.
      * intros Hnone. exfalso. eapply drawn_index; eauto.
      * intros a Ha.
        eapply wp_mono; [| |apply (IH (tgt a) s1 Hgs1)]; simpl.
        -- intros _ s2 R. eapply ranged_trans; eauto.
        -- intros _ Hf. eapply fault_below; eauto.
           ++ eapply nth_error_In; eauto.
           ++ apply Rs1.
Qed.

Lemma search_fuel_fault fuel : forall n (st : St),
  st_graph st = g ->
  wp True (search_fuel tgt cf fuel n)
     (fun ok st' => frame st st' /\ (ok = true -> ranged st st'))
     (fun _ => fault st n) st.
Proof.
  induction fuel as [|k IH]; intros n st Hg; [exact I|].
  eapply wp_equiv; [apply search_fuel_S|]. unfold search_std.
  apply wp_bind. apply visitedFunc_spec.
  - intros Hneg. apply fault_here.
    + unfold marked. rewrite Z.testbit_neg_r by lia. discriminate.
    + unfold in_range. lia.
  - intros _ _. apply wp_ret. split; [apply frame_refl|].
    intros _. apply ranged_refl.
  - intros Hn0 Hbit.
    apply wp_bind. apply emit_spec. change (mkState _ _ _ _ _) with (entered st n).
    assert (Hroot : ~ marked (st_visited st) n) by (unfold marked; congruence).
    apply wp_bind. apply pre_node_ok_spec.
    2:{ intros st1 Hs1. apply wp_ret. split; [|discriminate].
        exact (frame_trans (entered_frame st Hn0) (stop_frame Hs1)). }
    intros st1 Hq1.
    assert (Hg1 : st_graph st1 = g)
      by (destruct Hq1 as (G & _); rewrite G; exact Hg).
    unfold recurse_ok_std. apply wp_bind. apply index_graph_spec.
    + intros [Hlt|Hnone]; [lia|]. rewrite Hg1 in Hnone.
      apply fault_here; auto. now apply slot_out_of_range.
    + intros to _ Hto. rewrite Hg1 in Hto.
      pose proof (ranged_trans (entered_ranged st (slot_in_range Hn0 Hto))
                               (quiet_ranged Hq1)) as R1.
      apply wp_bind. apply order_spec. intros p st2 Hq2 Hp.
      pose proof (ranged_trans R1 (quiet_ranged Hq2)) as R2.
      eapply wp_mono;
        [| |apply (@wp_for_each_ok A U True nat p _ (fun _ s => ranged st s)
                     (fun s => frame st s) (fun _ => fault st n));
             [|exact R2]].
      * intros [] s' Hs'; [|split; [exact Hs' | discriminate]].
        split; [apply Hs' | intros _; exact Hs'].
      * auto.
      * intros done x rest s Hitems Rs.
        apply wp_bind. apply pre_arc_ok_spec.
        2:{ intros s1 Hs1. apply wp_ret.
            exact (frame_trans (proj1 Rs) (stop_frame Hs1)). }
        intros s1 Hq.
        pose proof (ranged_trans Rs (quiet_ranged Hq)) as Rs1.
        assert (Hgs1 : st_graph s1 = g).
        { destruct Rs1 as ((G & _) & _). rewrite G. exact Hg. }
        apply wp_bind. apply index_slot_spec.
        -- intros Hnone. exfalso. eapply drawn_index; eauto.
        -- intros a Ha.
           eapply wp_mono; [| |apply (IH (tgt a) s1 Hgs1)]; simpl.
           ++ intros [] s2 (Fr & R).
              ** eapply ranged_trans; eauto.
              ** exact (frame_trans (proj1 Rs1) Fr).
           ++ intros _ Hf. eapply fault_below; eauto.
              ** eapply nth_error_In; eauto.
              ** apply Rs1.
Qed.

End Fault.

Section RunFault.

Variables A U : Type.
Variable tgt : A -> Z.
Variable wrap : list (list A) -> GraphArg.
Variable cf : config U.
Variable t : list (list A).
Variable b : Z.
Variable u0 : U.
Variable start : Z.

Let st0 : State A U := mkState t b u0 [] 0.
Let r : Result U := finish wrap (func tgt cf (S (List.length t)) start st0) st0.

Hypothesis cf_rand : rand_ok cf.

Lemma func_fault :
  wp True (func tgt cf (S (List.length t)) start)
     (fun _ st' => nostop (st_log st') -> ranged t st0 st')
     (fun _ => fault tgt t st0 start) st0.
Proof.
  unfold func.
  assert (Hsearch :
    wp True (search_fuel tgt cf (S (List.length t)) start ;;; ret tt)
       (fun _ st' => nostop (st_log st') -> ranged t st0 st')
       (fun _ => fault tgt t st0 start) st0).
  { pose proof (@search_fuel_fault A U tgt cf t cf_rand (S (List.length t))
                  start st0 eq_refl) as Hf.
    pose proof (@search_fuel_stop A U tgt cf (S (List.length t)) start st0) as Hp.
    unfold wp, bind in *.
    destruct (search_fuel tgt cf (S (List.length t)) start st0)
      as [ok st'|st'|]; simpl; auto.
    intros Hns. destruct ok; [now apply Hf|].
    exfalso. destruct Hp as (l & e & Hl & _ & He). simpl in Hl.
    eapply (@nostop_no_stop (st_log st') l e []); eauto. }
  destruct (okNodeVisitor cf); [|destruct (okArcVisitor cf)];
    try exact Hsearch.
  eapply wp_mono;
    [| |apply (@traverse_fuel_fault A U tgt cf t cf_rand (S (List.length t))
                 start st0 eq_refl)]; simpl; auto.
Qed.

Lemma run_fault :
  (res_status r = Panicked ->
   exists n, reach tgt t (marked b) start n /\ ~ in_range t n) /\
  ((exists n, reach tgt t (marked b) start n /\ ~ in_range t n) ->
   nostop (res_log r) -> res_status r = Panicked).
Proof.
  pose proof func_fault as Hf.
  pose proof (@func_total A U tgt cf t b u0 start) as Ht.
  pose proof (@run_complete A U tgt wrap cf t b u0 start cf_rand) as Hc.
  unfold wp in Hf, Ht. fold st0 in Ht, Hc. subst r. unfold finish in *.
  destruct (func tgt cf (S (List.length t)) start st0) as [[] st'|st'|];
    simpl in *; [| |contradiction].
  - split; [discriminate|]. intros (n & Hn & Hbad) Hns. exfalso.
    apply Hbad. apply (Hc eq_refl Hns) in Hn.
    destruct (Hf Hns) as (_ & L & HL & HR). simpl in HL. rewrite HL in Hn.
    rewrite Forall_forall in HR. now apply HR.
  - split; [|reflexivity]. intros _. exact Hf.
Qed.

End RunFault.

(** X6.  A fault has one cause only.  If the random source deals
    permutations, [Search] faults only when some node that is not a node of
    the graph (a negative number, or one at or beyond the order) can be
    reached from the start without passing a node marked beforehand; and
    when there is such a node the call does fault, unless a visitor stops
    it first or the arguments are rejected. *)
Theorem Search_faults U (g : GraphArg) (start : Z)
    (options : list (config U -> config U)) (u0 : U) :
  let cf := configure options in
  let r := Search g start options u0 in
  rand_ok cf ->
  (res_status r = Panicked ->
   exists n, Reach g (marked (bits_in_use cf)) start n /\ ~ InRange g n) /\
  (~ conflicting cf ->
   (exists n, Reach g (marked (bits_in_use cf)) start n /\ ~ InRange g n) ->
   nostop (res_log r) -> res_status r = Panicked).
Proof.
  intros cf r Hrand. subst r. unfold Search. fold cf.
  destruct (conflicting_dec cf) as [Hc|Hc].
  - destruct (Search_cf_conflict g start u0 Hc) as (msg & ->).
    split; [discriminate | contradiction].
  - rewrite Search_cf_run by auto. destruct g as [t|t|].
    + destruct (@run_fault Z U adjTo AdjArg cf t (bits_in_use cf) u0 start
                  Hrand) as [H1 H2].
      split; [exact H1 | intros _; exact H2].
    + destruct (@run_fault Half U To LabArg cf t (bits_in_use cf) u0 start
                  Hrand) as [H1 H2].
      split; [exact H1 | intros _; exact H2].
    + split; [discriminate|]. intros _ (n & [] & _).
Qed.

Lemma Search_faults_witness :
  let g := AdjArg [[1]; [0; 5]; []] in
  let opts : list (config unit -> config unit) := [] in
  let r := Search g 0 opts tt in
  Reach g (marked (bits_in_use (configure opts))) 0 5 /\
  visits (res_log r) = [0; 1; 5] /\
  (res_status r = Panicked ->
   exists n, Reach g (marked (bits_in_use (configure opts))) 0 n /\
             ~ InRange g n) /\
  (~ conflicting (configure opts) ->
   (exists n, Reach g (marked (bits_in_use (configure opts))) 0 n /\
              ~ InRange g n) ->
   nostop (res_log r) -> res_status r = Panicked).
Proof.
  intros g opts r. split.
  - assert (Hm : forall n, ~ marked (bits_in_use (configure opts)) n)
      by (intros n; apply marked_zero).
    simpl. apply reach_arc with 1; [apply Hm| |].
    + split; [lia|]. exists [1]. split; [reflexivity|]. now left.
    + apply reach_arc with 5; [apply Hm| |].
      * split; [lia|]. exists [0; 5]. split; [reflexivity|]. right. now left.
      * apply reach_here, Hm.
  - split; [reflexivity|].
    apply (@Search_faults unit g 0 opts tt). intros rr Hrr. discriminate.
Defined.

(** ** The visits form a tree *)

Section Tree.

Variables A U : Type.
Variable tgt : A -> Z.
Variable cf : config U.
Variable g : list (list A).

Local Abbreviation St := (State A U).

(** Every node of [L] has an arc from a node of [root] or from a node
    earlier in [L]. *)
Definition parented (root L : list Z) : Prop :=
  forall l1 m l2, L = l1 ++ m :: l2 ->
  exists k, In k (root ++ l1) /\ arc tgt g k m.

Lemma parented_nil root : parented root [].
Proof. intros [|? ?] m l2 H; discriminate. Qed.

Lemma parented_app root L1 L2 :
  parented root L1 -> parented (root ++ L1) L2 -> parented root (L1 ++ L2).
Proof.
  intros H1 H2 l1 m l2 E. apply app_eq_app in E as (l & [[E1 E2]|[E1 E2]]).
  - destruct l as [|x l].
    + simpl in E2. rewrite app_nil_r in E1. subst l1.
      destruct (H2 [] m l2 (eq_sym E2)) as (k & Hk & Ha).
      rewrite app_nil_r in Hk. eauto.
    + injection E2 as <- E2. exact (H1 l1 m l E1).
  - destruct (H2 l m l2 E2) as (k & Hk & Ha). exists k.
    split; [|exact Ha]. now rewrite E1, app_assoc.
Qed.

Lemma parented_cons root x L :
  (exists k, In k root /\ arc tgt g k x) -> parented [x] L ->
  parented root (x :: L).
Proof.
  intros (k & Hk & Ha) H l1 m l2 E. destruct l1 as [|y l1].
  - injection E as <- _. exists k. rewrite app_nil_r. auto.
  - injection E as <- E. destruct (H l1 m l2 E) as (k' & Hk' & Ha').
    exists k'. split; [|exact Ha']. apply in_or_app. right. exact Hk'.
Qed.

(** What a call on [n] adds to the visits: nothing, or [n] followed by
    nodes that each have an arc from [n] or from a node added before
    them. *)
Definition discovered (st : St) (n : Z) (st' : St) : Prop :=
  exists L, visits (st_log st') = visits (st_log st) ++ L /\
            (L = [] \/ exists L', L = n :: L' /\ parented [n] L').

(** The same, inside the loop over the arcs of [n]. *)
Definition discovering (st : St) (n : Z) (s : St) : Prop :=
  st_graph s = g /\
  exists L', visits (st_log s) = visits (st_log st) ++ n :: L' /\
             parented [n] L'.

Lemma discovered_refl st n : discovered st n st.
Proof. exists []. rewrite app_nil_r. auto. Qed.

Lemma discovering_out st n s : discovering st n s -> discovered st n s.
Proof. intros (_ & L' & E & H). exists (n :: L'). eauto. Qed.

Lemma discovering_entered (st : St) n :
  st_graph st = g -> discovering st n (entered st n).
Proof.
  intros Hg. split; [exact Hg|]. exists []. split; [apply visits_app|].
  apply parented_nil.
Qed.

Lemma discovering_quiet st n s s' :
  discovering st n s -> quiet_step s s' -> discovering st n s'.
Proof.
  intros (G & L' & E & H) (G' & _ & l & L & Hv & _).
  split; [congruence|]. exists L'.
  rewrite L, visits_app, Hv, app_nil_r. auto.
Qed.

Lemma discovering_stop st n s s' :
  discovering st n s -> stop_step s s' -> discovering st n s'.
Proof.
  intros (G & L' & E & H) (G' & _ & e & L & Hv & _).
  split; [congruence|]. exists L'.
  rewrite L, visits_app, Hv, app_nil_r. auto.
Qed.

Lemma discovering_child st n s1 s2 a :
  arc tgt g n (tgt a) -> st_graph s2 = g ->
  discovering st n s1 -> discovered s1 (tgt a) s2 -> discovering st n s2.
Proof.
  intros Harc G2 (_ & L' & E & H) (L2 & E2 & HL2).
  split; [exact G2|]. destruct HL2 as [->|(L2' & -> & H2)].
  - exists L'. rewrite E2, app_nil_r. auto.
  - exists (L' ++ tgt a :: L2'). split.
    + rewrite E2, E, <- app_assoc. reflexivity.
    + apply parented_app; [exact H|]. apply parented_cons; [|exact H2].
      exists n. split; [now left | exact Harc].
Qed.

Lemma slot_arc n (to : list A) x a :
  0 <= n -> nth_error g (Z.to_nat n) = Some to -> nth_error to x = Some a ->
  arc tgt g n (tgt a).
Proof.
  intros Hn Hto Ha. split; [exact Hn|]. exists to. split; [exact Hto|].
  apply in_map. eapply nth_error_In; eauto.
Qed.

Lemma traverse_fuel_tree fuel : forall n (st : St),
  st_graph st = g ->
  wp True (traverse_fuel tgt cf fuel n)
     (fun _ st' => st_graph st' = g /\ discovered st n st')
     (fun st' => discovered st n st') st.
Proof.
  induction fuel as [|k IH]; intros n st Hg; [exact I|].
  eapply wp_equiv; [apply traverse_fuel_S|]. unfold traverse_std.
  apply wp_bind. apply visitedFunc_spec.
  - intros _. apply discovered_refl.
  - intros _ _. apply wp_ret. split; [exact Hg | apply discovered_refl].
  - intros Hn0 Hbit.
    apply wp_bind. apply emit_spec. change (mkState _ _ _ _ _) with (entered st n).
    apply wp_bind. apply pre_node_spec. intros st1 Hq1.
    pose proof (discovering_quiet (discovering_entered st n Hg) Hq1) as D1.
    unfold recurse_std. apply wp_bind. apply index_graph_spec.
    { intros _. now apply discovering_out. }
    intros to _ Hto. rewrite (proj1 D1) in Hto.
    apply wp_bind. apply order_spec. intros p st2 Hq2 _.
    pose proof (discovering_quiet D1 Hq2) as D2.
    eapply wp_mono;
      [| |apply (@wp_for_each A U True nat p _ (fun _ s => discovering st n s)
                   (fun s => discovered st n s))].
    + intros u s' D. split; [apply D | now apply discovering_out].
    + auto.
    + intros done x rest s _ Ds.
      apply wp_bind. apply pre_arc_spec. intros s1 Hq.
      pose proof (discovering_quiet Ds Hq) as Ds1.
      apply wp_bind. apply index_slot_spec.
      { intros _. now apply discovering_out. }
      intros a Ha. pose proof (slot_arc x Hn0 Hto Ha) as Harc.
      eapply wp_mono; [| |apply (IH (tgt a) s1 (proj1 Ds1))]; simpl.
      * intros _ s2 (G2 & D). eapply discovering_child; eauto.
      * intros s2 (L2 & E2 & HL2).
        destruct Ds1 as (_ & L' & E & H).
        destruct HL2 as [->|(L2' & -> & H2)].
        -- exists (n :: L'). rewrite E2, app_nil_r. eauto.
        -- exists (n :: L' ++ tgt a :: L2'). split.
           ++ rewrite E2, E, <- app_assoc. reflexivity.
           ++ right. eexists. split; [reflexivity|].
              apply parented_app; [exact H|].
              apply parented_cons; [|exact H2].
              exists n. split; [now left | exact Harc].
    + exact D2.
Qed.

Lemma discovered_child st n s1 s2 a :
  arc tgt g n (tgt a) ->
  discovering st n s1 -> discovered s1 (tgt a) s2 -> discovered st n s2.
Proof.
  intros Harc (_ & L' & E & H) (L2 & E2 & HL2).
  destruct HL2 as [->|(L2' & -> & H2)].
  - exists (n :: L'). rewrite E2, app_nil_r. eauto.
  - exists (n :: L' ++ tgt a :: L2'). split.
    + rewrite E2, E, <- app_assoc. reflexivity.
    + right. eexists. split; [reflexivity|].
      apply parented_app; [exact H|]. apply parented_cons; [|exact H2].
      exists n. split; [now left | exact Harc].
Qed.

Lemma search_fuel_tree fuel : forall n (st : St),
  st_graph st = g ->
  wp True (search_fuel tgt cf fuel n)
     (fun _ st' => st_graph st' = g /\ discovered st n st')
     (fun st' => discovered st n st') st.
Proof.
  induction fuel as [|k IH]; intros n st Hg; [exact I|].
  eapply wp_equiv; [apply search_fuel_S|]. unfold search_std.
  apply wp_bind. apply visitedFunc_spec.
  - intros _. apply discovered_refl.
  - intros _ _. apply wp_ret. split; [exact Hg | apply discovered_refl].
  - intros Hn0 Hbit.
    apply wp_bind. apply emit_spec. change (mkState _ _ _ _ _) with (entered st n).
    pose proof (discovering_entered st n Hg) as D0.
    apply wp_bind. apply pre_node_ok_spec.
    2:{ intros st1 Hs1. apply wp_ret.
        pose proof (discovering_stop D0 Hs1) as D1.
        split; [apply D1 | now apply discovering_out]. }
    intros st1 Hq1. pose proof (discovering_quiet D0 Hq1) as D1.
    unfold recurse_ok_std. apply wp_bind. apply index_graph_spec.
    { intros _. now apply discovering_out. }
    intros to _ Hto. rewrite (proj1 D1) in Hto.
    apply wp_bind. apply order_spec. intros p st2 Hq2 _.
    pose proof (discovering_quiet D1 Hq2) as D2.
    eapply wp_mono;
      [| |apply (@wp_for_each_ok A U True nat p _
                   (fun _ s => discovering st n s)
                   (fun s => discovering st n s)
                   (fun s => discovered st n s))].
    + intros [] s' D; (split; [apply D | now apply discovering_out]).
    + auto.
    + intros done x rest s _ Ds.
      apply wp_bind. apply pre_arc_ok_spec.
      2:{ intros s1 Hs1. apply wp_ret. exact (discovering_stop Ds Hs1). }
      intros s1 Hq. pose proof (discovering_quiet Ds Hq) as Ds1.
      apply wp_bind. apply index_slot_spec.
      { intros _. now apply discovering_out. }
      intros a Ha. pose proof (slot_arc x Hn0 Hto Ha) as Harc.
      eapply wp_mono; [| |apply (IH (tgt a) s1 (proj1 Ds1))]; simpl.
      * intros [] s2 (G2 & D); eapply discovering_child; eauto.
      * intros s2 D. eapply discovered_child; eauto.
    + exact D2.
Qed.

End Tree.

Section RunTree.

Variables A U : Type.
Variable tgt : A -> Z.
Variable wrap : list (list A) -> GraphArg.
Variable cf : config U.
Variable t : list (list A).
Variable b : Z.
Variable u0 : U.
Variable start : Z.

Let st0 : State A U := mkState t b u0 [] 0.
Let r : Result U := finish wrap (func tgt cf (S (List.length t)) start st0) st0.

Lemma func_tree :
  wp True (func tgt cf (S (List.length t)) start)
     (fun _ st' => discovered tgt t st0 start st')
     (fun st' => discovered tgt t st0 start st') st0.
Proof.
  unfold func.
  destruct (okNodeVisitor cf); [|destruct (okArcVisitor cf)];
    try (apply wp_bind;
         eapply wp_mono;
           [| |apply (@search_fuel_tree A U tgt cf t); reflexivity]; auto;
         intros ? ? (_ & D); apply wp_ret; exact D).
  eapply wp_mono; [| |apply (@traverse_fuel_tree A U tgt cf t); reflexivity];
    simpl; auto.
  intros _ s (_ & D). exact D.
Qed.

Lemma run_tree l1 m l2 :
  visits (res_log r) = l1 ++ m :: l2 ->
  (l1 = [] /\ m = start) \/ (exists k, In k l1 /\ arc tgt t k m).
Proof.
  pose proof func_tree as H. unfold wp in H. subst r. unfold finish.
  fold st0 in H.
  assert (HD : forall st' : State A U, discovered tgt t st0 start st' ->
            visits (st_log st') = l1 ++ m :: l2 ->
            (l1 = [] /\ m = start) \/ (exists k, In k l1 /\ arc tgt t k m)).
  { intros st' (L & E & HL) Hv. simpl in E. rewrite E in Hv.
    destruct HL as [->|(L' & -> & HP)].
    - destruct l1; discriminate.
    - destruct l1 as [|x l1].
      + injection Hv as -> _. now left.
      + injection Hv as <- Hv. right. exact (HP l1 m l2 Hv). }
  destruct (func tgt cf (S (List.length t)) start st0) as [[] st'|st'|];
    simpl; try (now apply HD).
  intros Hv. destruct l1; discriminate.
Qed.

End RunTree.

(** An arc of the graph handed to [Search]. *)
Definition Arc (g : GraphArg) (a b : Z) : Prop :=
  match g with
  | AdjArg t => arc adjTo t a b
  | LabArg t => arc To t a b
  | OtherArg => False
  end.

(** X15.  The visits of a call form a tree rooted at the start node: the
    first node visited is the start, and every node visited later is the
    target of an arc leaving a node visited before it.  In every mode, for
    every graph and option list, and however the call ends. *)
Theorem Search_visit_tree U (g : GraphArg) (start : Z)
    (options : list (config U -> config U)) (u0 : U) :
  let r := Search g start options u0 in
  forall l1 m l2, visits (res_log r) = l1 ++ m :: l2 ->
  (l1 = [] /\ m = start) \/ (exists k, In k l1 /\ Arc g k m).
Proof.
  intros r l1 m l2. subst r. unfold Search.
  set (cf := configure options).
  destruct (conflicting_dec cf) as [Hc|Hc].
  - destruct (Search_cf_conflict g start u0 Hc) as (msg & ->). simpl.
    intros Hv. destruct l1; discriminate.
  - rewrite Search_cf_run by auto. destruct g as [t|t|].
    + apply (@run_tree Z U adjTo AdjArg cf t (bits_in_use cf) u0 start).
    + apply (@run_tree Half U To LabArg cf t (bits_in_use cf) u0 start).
    + simpl. intros Hv. destruct l1; discriminate.
Qed.

Lemma Search_visit_tree_witness :
  let g := AdjArg [[1; 2]; [3]; [3]; []] in
  let opts : list (config unit -> config unit) := [] in
  let r := Search g 0 opts tt in
  visits (res_log r) = [0; 1; 3; 2] /\
  ((@nil Z = [] /\ 0 = 0) \/ (exists k, In k (@nil Z) /\ Arc g k 0)) /\
  (([0; 1; 3] = [] /\ 2 = 0) \/ (exists k, In k [0; 1; 3] /\ Arc g k 2)).
Proof.
  intros g opts r. split; [reflexivity|]. split.
  - apply (@Search_visit_tree unit g 0 opts tt [] 0 [1; 3; 2]). reflexivity.
  - apply (@Search_visit_tree unit g 0 opts tt [0; 1; 3] 2 []). reflexivity.
Defined.

(** ** The bitset [Search] allocates *)

Section Enter.

Variables A U : Type.
Variable tgt : A -> Z.
Variable cf : config U.
Variable g : list (list A).

Local Abbreviation St := (State A U).

(** Since [st] the node [n] was visited first. *)
Definition first (st : St) (n : Z) (st' : St) : Prop :=
  exists L, visits (st_log st') = visits (st_log st) ++ n :: L.

Lemma first_entered (st : St) n : first st n (entered st n).
Proof. exists []. apply visits_app. Qed.

Lemma first_quiet st n s s' : first st n s -> quiet_step s s' -> first st n s'.
Proof.
  intros (L & E) (_ & _ & l & Hl & Hv & _). exists L.
  now rewrite Hl, visits_app, Hv, app_nil_r.
Qed.

Lemma first_stop st n s s' : first st n s -> stop_step s s' -> first st n s'.
Proof.
  intros (L & E) (_ & _ & e & Hl & Hv & _). exists L.
  now rewrite Hl, visits_app, Hv, app_nil_r.
Qed.

Lemma first_sound st n s m s' :
  first st n s -> sound tgt g s m s' -> first st n s'.
Proof.
  intros (L & E) (L2 & _ & E2 & _). exists (L ++ L2).
  rewrite E2, E, <- app_assoc. reflexivity.
Qed.

Lemma sound_graph (s : St) m s' :
  sound tgt g s m s' -> st_graph s' = st_graph s.
Proof. intros (L & (G & _) & _). exact G. Qed.

Lemma traverse_fuel_first k n (st : St) :
  st_graph st = g -> 0 <= n -> ~ marked (st_visited st) n ->
  wp True (traverse_fuel tgt cf (S k) n) (fun _ st' => first st n st')
     (fun st' => first st n st') st.
Proof.
  intros Hg Hn Hm. eapply wp_equiv; [apply traverse_fuel_S|].
  unfold traverse_std. apply wp_bind. apply visitedFunc_spec.
  - lia.
  - intros _ Hbit. now apply Hm in Hbit.
  - intros _ _. apply wp_bind. apply emit_spec.
    change (mkState _ _ _ _ _) with (entered st n).
    apply wp_bind. apply pre_node_spec. intros st1 Hq1.
    pose proof (first_quiet (first_entered st n) Hq1) as F1.
    assert (Hg1 : st_graph st1 = g)
      by (destruct Hq1 as (G & _); rewrite G; exact Hg).
    unfold recurse_std. apply wp_bind. apply index_graph_spec; [auto|].
    intros to _ _. apply wp_bind. apply order_spec. intros p st2 Hq2 _.
    assert (Hg2 : st_graph st2 = g)
      by (destruct Hq2 as (G & _); rewrite G; exact Hg1).
    eapply wp_mono;
      [| |apply (@wp_for_each A U True nat p _
                   (fun _ s => first st n s /\ st_graph s = g)
                   (fun s => first st n s))].
    + intros u s' H. apply H.
    + auto.
    + intros done x rest s _ (Fs & Gs).
      apply wp_bind. apply pre_arc_spec. intros s1 Hq.
      pose proof (first_quiet Fs Hq) as Fs1.
      assert (Gs1 : st_graph s1 = g)
        by (destruct Hq as (G & _); rewrite G; exact Gs).
      apply wp_bind. apply index_slot_spec; [auto|]. intros a _.
      eapply wp_mono;
        [| |apply (@traverse_fuel_sound A U tgt cf g k (tgt a) s1 Gs1)]; simpl.
      * intros _ s2 Hs. split; [eapply first_sound; eauto|].
        rewrite (sound_graph Hs). exact Gs1.
      * intros s2 Hs. eapply first_sound; eauto.
    + split; [exact (first_quiet F1 Hq2) | exact Hg2].
Qed.

Lemma search_fuel_first k n (st : St) :
  st_graph st = g -> 0 <= n -> ~ marked (st_visited st) n ->
  wp True (search_fuel tgt cf (S k) n) (fun _ st' => first st n st')
     (fun st' => first st n st') st.
Proof.
  intros Hg Hn Hm. eapply wp_equiv; [apply search_fuel_S|].
  unfold search_std. apply wp_bind. apply visitedFunc_spec.
  - lia.
  - intros _ Hbit. now apply Hm in Hbit.
  - intros _ _. apply wp_bind. apply emit_spec.
    change (mkState _ _ _ _ _) with (entered st n).
    pose proof (first_entered st n) as F0.
    apply wp_bind. apply pre_node_ok_spec.
    2:{ intros st1 Hs1. apply wp_ret. exact (first_stop F0 Hs1). }
    intros st1 Hq1. pose proof (first_quiet F0 Hq1) as F1.
    assert (Hg1 : st_graph st1 = g)
      by (destruct Hq1 as (G & _); rewrite G; exact Hg).
    unfold recurse_ok_std. apply wp_bind. apply index_graph_spec; [auto|].
    intros to _ _. apply wp_bind. apply order_spec. intros p st2 Hq2 _.
    assert (Hg2 : st_graph st2 = g)
      by (destruct Hq2 as (G & _); rewrite G; exact Hg1).
    eapply wp_mono;
      [| |apply (@wp_for_each_ok A U True nat p _
                   (fun _ s => first st n s /\ st_graph s = g)
                   (fun s => first st n s)
                   (fun s => first st n s))].
    + intros [] s' H; [apply H | exact H].
    + auto.
    + intros done x rest s _ (Fs & Gs).
      apply wp_bind. apply pre_arc_ok_spec.
      2:{ intros s1 Hs1. apply wp_ret. exact (first_stop Fs Hs1). }
      intros s1 Hq. pose proof (first_quiet Fs Hq) as Fs1.
      assert (Gs1 : st_graph s1 = g)
        by (destruct Hq as (G & _); rewrite G; exact Gs).
      apply wp_bind. apply index_slot_spec; [auto|]. intros a _.
      eapply wp_mono;
        [| |apply (@search_fuel_sound A U tgt cf g k (tgt a) s1 Gs1)]; simpl.
      * intros ok s2 (L2 & HL2 & _).
        assert (Hs : sound tgt g s1 (tgt a) s2) by (exists L2; exact HL2).
        destruct ok; [split|]; try (eapply first_sound; eauto).
        rewrite (sound_graph Hs). exact Gs1.
      * intros s2 Hs. eapply first_sound; eauto.
    + split; [exact (first_quiet F1 Hq2) | exact Hg2].
Qed.

End Enter.

Section RunEnter.

Variables A U : Type.
Variable tgt : A -> Z.
Variable wrap : list (list A) -> GraphArg.
Variable cf : config U.
Variable t : list (list A).
Variable b : Z.
Variable u0 : U.
Variable start : Z.

Let st0 : State A U := mkState t b u0 [] 0.
Let r : Result U := finish wrap (func tgt cf (S (List.length t)) start st0) st0.

Lemma run_enter :
  0 <= start -> ~ marked b start -> In start (visits (res_log r)).
Proof.
  intros Hn Hm.
  pose proof (@traverse_fuel_first A U tgt cf t (List.length t) start st0
                eq_refl Hn Hm) as Ht.
  pose proof (@search_fuel_first A U tgt cf t (List.length t) start st0
                eq_refl Hn Hm) as Hs.
  pose proof (@func_total A U tgt cf t b u0 start) as Hf.
  unfold wp in Ht, Hs, Hf. fold st0 in Hf. subst r. revert Hf. unfold func.
  assert (Hin : forall st' : State A U, first st0 start st' ->
                  In start (visits (st_log st'))).
  { intros st' (L & E). simpl in E. rewrite E. now left. }
  destruct (okNodeVisitor cf); [|destruct (okArcVisitor cf)]; unfold bind;
    try (destruct (search_fuel tgt cf (S (List.length t)) start st0)
           as [ok st'|st'|]; simpl; intros Hf; [| |contradiction];
         now apply Hin).
  destruct (traverse_fuel tgt cf (S (List.length t)) start st0)
    as [[] st'|st'|]; simpl; intros Hf; [| |contradiction]; now apply Hin.
Qed.

End RunEnter.

(** C8 (as the code has it).  When the options supply no visited bitset,
    [Search] allocates an empty one of its own and the call is, in every
    respect, the call with an empty bitset supplied.  The set starts
    empty and is what the traversal marks: afterwards it holds exactly the
    nodes visited, and among them the start node, whenever the options are
    consistent, the graph is an adjacency list and the start is not
    negative.  The set is not sized to the graph. *)
Theorem Search_default_bitset U (g : GraphArg) (start : Z)
    (options : list (config U -> config U)) (u0 : U) :
  let cf := configure options in
  let r := Search g start options u0 in
  visited cf = None ->
  r = Search g start (options ++ [set_visited Bits_zero]) u0 /\
  (forall n, marked (res_visited r) n <-> In n (visits (res_log r))) /\
  (~ conflicting cf -> g <> OtherArg -> 0 <= start ->
   In start (visits (res_log r)) /\ marked (res_visited r) start).
Proof.
  intros cf r Hv.
  assert (Hb : bits_in_use cf = Bits_zero)
    by (unfold bits_in_use; now rewrite Hv).
  assert (Hmarks : forall n, marked (res_visited r) n <->
                             In n (visits (res_log r))).
  { intros n. subst r. unfold Search. fold cf.
    destruct (conflicting_dec cf) as [Hc|Hc].
    - destruct (Search_cf_conflict g start u0 Hc) as (msg & ->). simpl.
      rewrite Hb. split; [intros H; now apply marked_zero in H | intros []].
    - rewrite Search_cf_run by auto. rewrite Hb.
      destruct g as [t|t|].
      + destruct (@run_sound Z U adjTo AdjArg cf t Bits_zero u0 start)
          as (_ & _ & H).
        rewrite (H n). split; [intros [H0|H0]; auto|auto].
        now apply marked_zero in H0.
      + destruct (@run_sound Half U To LabArg cf t Bits_zero u0 start)
          as (_ & _ & H).
        rewrite (H n). split; [intros [H0|H0]; auto|auto].
        now apply marked_zero in H0.
      + simpl. split; [intros H; now apply marked_zero in H | intros []]. }
  split; [|split; [exact Hmarks|]].
  - subst r. unfold Search. rewrite configure_app.
    now apply Search_cf_set_visited.
  - intros Hc Hg Hn.
    assert (Hin : In start (visits (res_log r))).
    { subst r. unfold Search. fold cf. rewrite Search_cf_run by auto.
      rewrite Hb. destruct g as [t|t|]; [| |congruence].
      - apply (@run_enter Z U adjTo AdjArg cf t Bits_zero u0 start Hn).
        apply marked_zero.
      - apply (@run_enter Half U To LabArg cf t Bits_zero u0 start Hn).
        apply marked_zero. }
    split; [exact Hin | now apply Hmarks].
Qed.

Lemma Search_default_bitset_witness :
  let g := LabArg [[mkHalf 1 10]; [mkHalf 0 10]; []] in
  let opts : list (config unit -> config unit) := [] in
  let r := Search g 0 opts tt in
  visits (res_log r) = [0; 1] /\ res_visited r = 3 /\
  r = Search g 0 (opts ++ [set_visited Bits_zero]) tt /\
  (forall n, marked (res_visited r) n <-> In n (visits (res_log r))) /\
  (~ conflicting (configure opts) -> g <> OtherArg -> 0 <= 0 ->
   In 0 (visits (res_log r)) /\ marked (res_visited r) 0).
Proof.
  intros g opts r. split; [reflexivity|]. split; [reflexivity|].
  apply (@Search_default_bitset unit g 0 opts tt). reflexivity.
Defined.

(** The set [Search] allocates is not sized to the graph, as the claim was
    first stated: the graph below has one node, no bitset is supplied, and
    the set the call leaves holds the number 3, marked without a fault
    before the graph was indexed. *)
Lemma Search_default_bitset_counterexample :
  let g := AdjArg [[0]] in
  let opts : list (config unit -> config unit) := [] in
  let r := Search g 3 opts tt in
  visited (configure opts) = None /\ Order g = 1%nat /\ ~ InRange g 3 /\
  visits (res_log r) = [3] /\ marked (res_visited r) 3 /\
  res_visited r = 8.
Proof.
  intros g opts r. split; [reflexivity|]. split; [reflexivity|].
  split; [unfold InRange; simpl; lia|].
  split; [reflexivity|]. split; reflexivity.
Qed.

End DF.

(* ================================================================== *)
(** * Minimum spanning forest: Kruskal *)
(* ================================================================== *)

Module MST.

(** [type Edge struct { N1, N2 NI }] and [type LabeledEdge struct { Edge; LI }],
    as mst_test.go builds them. *)
Record Edge : Type := mkEdge { N1 : Z; N2 : Z }.

Record LabeledEdge : Type := mkLabeledEdge { E : Edge; L : Z }.

(** [type WeightedEdgeList struct { Order int; WeightFunc; Edges }], in the
    field order of the literal in mst_test.go.  The weight is a real
    number, here a rational. *)
Record WeightedEdgeList : Type := mkWeightedEdgeList {
  Order : nat;
  WeightFunc : Z -> Q;
  Edges : list LabeledEdge
}.

Definition weight (w : Z -> Q) (e : LabeledEdge) : Q := w (L e).

(** Modelled from the spec: the stable ascending sort of step (1) of
    Kruskal, "ties keep original order".  Insertion from the right, an
    element never passing one of equal weight that came after it. *)
Fixpoint sort_insert (w : Z -> Q) (e : LabeledEdge) (l : list LabeledEdge)
  : list LabeledEdge :=
  match l with
  | [] => [e]
  | h :: t => if Qle_bool (weight w e) (weight w h) then e :: l
              else h :: sort_insert w e t
  end.

Fixpoint stable_sort (w : Z -> Q) (l : list LabeledEdge) : list LabeledEdge :=
  match l with
  | [] => []
  | e :: t => sort_insert w e (stable_sort w t)
  end.

(** Modelled from the spec: the disjoint-set forest over node ids of step
    (2), with union by rank and path compression. *)
Record disjointSet : Type := mkDisjointSet {
  parent : list nat;
  rank : list nat
}.

Definition newDisjointSet (n : nat) : disjointSet :=
  mkDisjointSet (seq 0 n) (repeat O n).

Fixpoint set_nth {A} (l : list A) (i : nat) (v : A) : list A :=
  match l, i with
  | [], _ => []
  | _ :: t, O => v :: t
  | h :: t, S j => h :: set_nth t j v
  end.

(** Follow parents up to the root; a forest over [n] nodes has no path
    longer than [n]. *)
Fixpoint find_root (fuel : nat) (p : list nat) (x : nat) : nat :=
  match fuel with
  | O => x
  | S f => let px := nth x p x in
           if Nat.eqb px x then x else find_root f p px
  end.

(** Path compression: every node on the path from [x] is re-parented to
    the root [r]. *)
Fixpoint compress (fuel : nat) (p : list nat) (x r : nat) : list nat :=
  match fuel with
  | O => p
  | S f => let px := nth x p x in
           if Nat.eqb px x then p else compress f (set_nth p x r) px r
  end.

Definition find (ds : disjointSet) (x : nat) : nat * disjointSet :=
  let n := List.length (parent ds) in
  let r := find_root n (parent ds) x in
  (r, mkDisjointSet (compress n (parent ds) x r) (rank ds)).

(** [union] reports whether the two nodes were in different sets, and
    joins them by rank if so. *)
Definition union (ds : disjointSet) (a b : nat) : bool * disjointSet :=
  let (ra, ds1) := find ds a in
  let (rb, ds2) := find ds1 b in
  if Nat.eqb ra rb then (false, ds2)
  else
    let ka := nth ra (rank ds2) O in
    let kb := nth rb (rank ds2) O in
    if Nat.ltb ka kb then
      (true, mkDisjointSet (set_nth (parent ds2) ra rb) (rank ds2))
    else if Nat.ltb kb ka then
      (true, mkDisjointSet (set_nth (parent ds2) rb ra) (rank ds2))
    else
      (true, mkDisjointSet (set_nth (parent ds2) rb ra)
                           (set_nth (rank ds2) ra (S ka))).

(** Modelled from the spec: an accepted edge adds both reciprocal arcs to
    the output graph. *)
Definition AddEdge (g : list (list Half)) (e : Edge) (l : Z) : list (list Half) :=
  let a := Z.to_nat (N1 e) in
  let b := Z.to_nat (N2 e) in
  let g1 := set_nth g a (nth a g [] ++ [mkHalf (N2 e) l]) in
  set_nth g1 b (nth b g1 [] ++ [mkHalf (N1 e) l]).

Definition in_order (n : nat) (x : Z) : bool :=
  ((0 <=? x) && (x <? Z.of_nat n))%Z.

(** The state of the scan: union-find, output graph, accumulated weight. *)
Definition scan_state : Type := disjointSet * list (list Half) * Q.

(** Modelled from the spec: step (3), one edge of the scan.  An endpoint
    outside the graph is a fault ([None]). *)
Definition scan_edge (n : nat) (w : Z -> Q) (st : option scan_state)
    (e : LabeledEdge) : option scan_state :=
  match st with
  | None => None
  | Some (ds, g, dist) =>
      if in_order n (N1 (E e)) && in_order n (N2 (E e)) then
        let (accept, ds') :=
          union ds (Z.to_nat (N1 (E e))) (Z.to_nat (N2 (E e))) in
        if accept then Some (ds', AddEdge g (E e) (L e), dist + weight w e)
        else Some (ds', g, dist)
      else None
  end.

(** Modelled from the spec: [KruskalSorted], the scan without the sort. *)
Definition KruskalSorted (l : WeightedEdgeList)
  : option (list (list Half) * Q) :=
  match fold_left (scan_edge (Order l) (WeightFunc l)) (Edges l)
                  (Some (newDisjointSet (Order l), repeat [] (Order l), 0))
  with
  | Some (_, g, dist) => Some (g, dist)
  | None => None
  end.

(** Modelled from the spec: [Kruskal] sorts, then scans. *)
Definition Kruskal (l : WeightedEdgeList) : option (list (list Half) * Q) :=
  KruskalSorted
    (mkWeightedEdgeList (Order l) (WeightFunc l)
                        (stable_sort (WeightFunc l) (Edges l))).

(** The graph of mst_test.go. *)
Definition w_label (l : Z) : Q := inject_Z l.

Definition le (a b l : Z) : LabeledEdge := mkLabeledEdge (mkEdge a b) l.

Definition example_sorted : list LabeledEdge :=
  [le 0 4 10; le 2 3 20; le 0 1 30; le 1 4 40; le 1 2 50; le 2 4 60; le 3 4 70].

Definition example_unsorted : list LabeledEdge :=
  [le 0 1 30; le 0 4 10; le 1 2 50; le 1 4 40; le 2 3 20; le 2 4 60; le 3 4 70].

Definition example_tree : list (list Half) :=
  [ [mkHalf 4 10; mkHalf 1 30];
    [mkHalf 0 30; mkHalf 2 50];
    [mkHalf 3 20; mkHalf 1 50];
    [mkHalf 2 20];
    [mkHalf 0 10] ].

Example KruskalSorted_example :
  KruskalSorted (mkWeightedEdgeList 5 w_label example_sorted)
  = Some (example_tree, 110).
Proof. vm_compute. reflexivity. Qed.

Example Kruskal_example :
  Kruskal (mkWeightedEdgeList 5 w_label example_unsorted)
  = Some (example_tree, 110).
Proof. vm_compute. reflexivity. Qed.

(** ** The sort *)

Definition wle (w : Z -> Q) (a b : LabeledEdge) : Prop := weight w a <= weight w b.
Definition wlt (w : Z -> Q) (a b : LabeledEdge) : Prop := weight w a < weight w b.

Lemma edge_insert_perm w e l : Permutation (e :: l) (sort_insert w e l).
Proof.
  induction l as [|h t IH]; simpl; auto.
  destruct (Qle_bool (weight w e) (weight w h)); auto.
  rewrite perm_swap. now constructor.
Qed.

Lemma stable_sort_perm w l : Permutation l (stable_sort w l).
Proof.
  induction l as [|e t IH]; simpl; auto.
  rewrite <- edge_insert_perm. now constructor.
Qed.

Lemma edge_insert_sorted w e l :
  StronglySorted (wle w) l -> StronglySorted (wle w) (sort_insert w e l).
Proof.
  induction 1 as [|h t Hs IH Hall]; simpl.
  - repeat constructor.
  - destruct (Qle_bool (weight w e) (weight w h)) eqn:Hc.
    + apply Qle_bool_iff in Hc.
      constructor; [constructor; auto|].
      constructor; [exact Hc|].
      rewrite Forall_forall in *. intros z Hz. specialize (Hall z Hz).
      unfold wle in *. eapply Qle_trans; eauto.
    + assert (Hlt : weight w h < weight w e).
      { apply Qnot_le_lt. intros H. apply Qle_bool_iff in H. congruence. }
      constructor; auto.
      rewrite Forall_forall in *. intros z Hz.
      apply (Permutation_in _ (Permutation_sym (edge_insert_perm w e t))) in Hz.
      destruct Hz as [<-|Hz]; [now apply Qlt_le_weak | auto].
Qed.

Lemma stable_sort_sorted w l : StronglySorted (wle w) (stable_sort w l).
Proof.
  induction l; simpl; [constructor | now apply edge_insert_sorted].
Qed.

(** A strictly ascending list is the only ascending arrangement of its
    elements. *)
Lemma strict_sorted_unique w (s t : list LabeledEdge) :
  StronglySorted (wlt w) s -> StronglySorted (wle w) t ->
  Permutation s t -> s = t.
Proof.
  intros Hs; revert t. induction Hs as [|a s Hs IH Ha]; intros t Ht HP.
  - now apply Permutation_nil in HP.
  - destruct Ht as [|b t Ht Hb].
    + symmetry in HP. now apply Permutation_nil in HP.
    + assert (a = b) as <-.
      { assert (In a (b :: t)) as Hin1 by (eapply Permutation_in; eauto; now left).
        assert (In b (a :: s)) as Hin2
            by (eapply Permutation_in; [symmetry; eauto | now left]).
        rewrite Forall_forall in Ha, Hb.
        destruct Hin1 as [->|Hin1]; auto.
        destruct Hin2 as [->|Hin2]; auto.
        specialize (Ha _ Hin2). specialize (Hb _ Hin1).
        unfold wlt, wle in *. exfalso. eapply Qlt_not_le; eauto. }
      f_equal. apply IH; auto. eapply Permutation_cons_inv; eauto.
Qed.

Lemma stable_sort_strict w (s l : list LabeledEdge) :
  StronglySorted (wlt w) s -> Permutation l s -> stable_sort w l = s.
Proof.
  intros Hs HP. symmetry. apply (strict_sorted_unique (w := w)); auto.
  - apply stable_sort_sorted.
  - rewrite <- HP. apply stable_sort_perm.
Qed.

(** ** Stability *)

(** The edges of weight [x], in the order they have in [l]. *)
Definition ties (w : Z -> Q) (x : Q) (l : list LabeledEdge) : list LabeledEdge :=
  filter (fun e => Qeq_bool (weight w e) x) l.

(** Two lists hold the same edges, those of equal weight in the same
    relative order. *)
Definition same_tie_order (w : Z -> Q) (l s : list LabeledEdge) : Prop :=
  forall x, ties w x l = ties w x s.

Lemma ties_edge_insert w x e l :
  ties w x (sort_insert w e l) = ties w x (e :: l).
Proof.
  induction l as [|h t IH]; [reflexivity|]. cbn [sort_insert].
  destruct (Qle_bool (weight w e) (weight w h)) eqn:Hc; [reflexivity|].
  assert (Hlt : weight w h < weight w e).
  { apply Qnot_le_lt. intros H. apply Qle_bool_iff in H. congruence. }
  unfold ties in *. cbn [filter] in *. rewrite IH.
  destruct (Qeq_bool (weight w h) x) eqn:Hh;
    destruct (Qeq_bool (weight w e) x) eqn:He; try reflexivity.
  exfalso. apply Qeq_bool_iff in Hh, He.
  rewrite Hh, He in Hlt. exact (Qlt_irrefl _ Hlt).
Qed.

Lemma ties_stable_sort w x l : ties w x (stable_sort w l) = ties w x l.
Proof.
  induction l as [|e t IH]; [reflexivity|]. cbn [stable_sort].
  rewrite ties_edge_insert. unfold ties in *. cbn [filter]. now rewrite IH.
Qed.

Lemma ties_head w e l : ties w (weight w e) (e :: l) = e :: ties w (weight w e) l.
Proof.
  unfold ties. cbn [filter].
  assert (H : Qeq_bool (weight w e) (weight w e) = true)
    by (apply Qeq_bool_iff; reflexivity).
  now rewrite H.
Qed.

Lemma ties_In w x e l : In e (ties w x l) -> In e l /\ weight w e == x.
Proof.
  unfold ties. rewrite filter_In. intros [H1 H2]. split; auto.
  now apply Qeq_bool_iff.
Qed.

(** An ascending list is determined by its runs of equal weight. *)
Lemma sorted_ties_unique w (s t : list LabeledEdge) :
  StronglySorted (wle w) s -> StronglySorted (wle w) t ->
  same_tie_order w s t -> s = t.
Proof.
  intros Hs; revert t. induction Hs as [|a s Hs IH Ha]; intros t Ht Heq.
  - destruct t as [|b t]; auto.
    specialize (Heq (weight w b)). rewrite ties_head in Heq. discriminate.
  - destruct Ht as [|b t Ht Hb].
    { specialize (Heq (weight w a)). rewrite ties_head in Heq. discriminate. }
    rewrite Forall_forall in Ha, Hb.
    assert (Hab : a = b).
    { pose proof (Heq (weight w a)) as E1. rewrite ties_head in E1.
      unfold ties in E1. cbn [filter] in E1.
      destruct (Qeq_bool (weight w b) (weight w a)) eqn:Hc.
      - now injection E1.
      - exfalso.
        assert (Hat : In a t /\ weight w a == weight w a).
        { apply (@ties_In w (weight w a) a t). unfold ties.
          rewrite <- E1. now left. }
        pose proof (Hb _ (proj1 Hat)) as Hba.
        pose proof (Heq (weight w b)) as E2.
        rewrite (ties_head w b t) in E2.
        unfold ties in E2. cbn [filter] in E2.
        destruct (Qeq_bool (weight w a) (weight w b)) eqn:Hc'.
        + apply Qeq_bool_iff in Hc'. symmetry in Hc'.
          apply Qeq_bool_iff in Hc'. congruence.
        + assert (Hbs : In b s /\ weight w b == weight w b).
          { apply (@ties_In w (weight w b) b s). unfold ties.
            rewrite E2. now left. }
          pose proof (Ha _ (proj1 Hbs)) as Hab'.
          unfold wle in *.
          assert (Hq : weight w b == weight w a) by (now apply Qle_antisym).
          apply Qeq_bool_iff in Hq. congruence. }
    subst b. f_equal. apply IH; auto.
    intros x. specialize (Heq x). unfold ties in *. cbn [filter] in Heq.
    destruct (Qeq_bool (weight w a) x); [now injection Heq | exact Heq].
Qed.

Lemma stable_sort_ties w (s l : list LabeledEdge) :
  StronglySorted (wle w) s -> same_tie_order w l s -> stable_sort w l = s.
Proof.
  intros Hs Heq. apply (sorted_ties_unique (w := w)); auto.
  - apply stable_sort_sorted.
  - intros x. rewrite ties_stable_sort. apply Heq.
Qed.

(** ** Spanning subgraphs of a small graph, by enumeration *)

(** All ways to keep some of the edges. *)
Fixpoint sublists {A} (l : list A) : list (list A) :=
  match l with
  | [] => [[]]
  | x :: t => map (cons x) (sublists t) ++ sublists t
  end.

(** One round of growing a node set along the edges. *)
Definition grow (es : list LabeledEdge) (seen : list Z) : list Z :=
  fold_left (fun acc e =>
               let a := N1 (E e) in
               let b := N2 (E e) in
               if existsb (Z.eqb a) acc && negb (existsb (Z.eqb b) acc)
               then b :: acc
               else if existsb (Z.eqb b) acc && negb (existsb (Z.eqb a) acc)
               then a :: acc
               else acc)
            es seen.

(** The edges connect all of the nodes [0..n-1]. *)
Definition spans (n : nat) (es : list LabeledEdge) : bool :=
  let seen := Nat.iter n (grow es) [0%Z] in
  forallb (fun k => existsb (Z.eqb (Z.of_nat k)) seen) (seq 0 n).

Definition total (w : Z -> Q) (es : list LabeledEdge) : Q :=
  fold_left (fun acc e => acc + weight w e) es 0.

(** The edges of an undirected adjacency list, each taken once, from its
    lower end. *)
Definition undirected_edges (g : list (list Half)) : list LabeledEdge :=
  flat_map (fun nl =>
              flat_map (fun h => if (Z.of_nat (fst nl) <? To h)%Z
                                 then [le (Z.of_nat (fst nl)) (To h) (Label h)]
                                 else [])
                       (snd nl))
           (combine (seq 0 (List.length g)) g).

(** Rearrangements of literal lists. *)
Ltac literal_perm :=
  repeat first
    [ apply perm_nil
    | apply perm_skip
    | apply (@Permutation_cons_app _ _ [_] _ _); cbn [app]
    | apply (@Permutation_cons_app _ _ [_; _] _ _); cbn [app]
    | apply (@Permutation_cons_app _ _ [_; _; _] _ _); cbn [app]
    | apply (@Permutation_cons_app _ _ [_; _; _; _] _ _); cbn [app]
    | apply (@Permutation_cons_app _ _ [_; _; _; _; _] _ _); cbn [app]
    | apply (@Permutation_cons_app _ _ [_; _; _; _; _; _] _ _); cbn [app] ].

Lemma example_sorted_strict : StronglySorted (wlt w_label) example_sorted.
Proof.
  unfold example_sorted.
  repeat (constructor; [|repeat (constructor; [reflexivity|]); constructor]).
  constructor.
Qed.

Lemma example_unsorted_perm : Permutation example_unsorted example_sorted.
Proof. unfold example_unsorted, example_sorted. literal_perm. Qed.

(** ** The disjoint-set forest *)

Section UnionFind.

Local Open Scope nat_scope.

Variable n : nat.

Lemma set_nth_length A (l : list A) i v : List.length (set_nth l i v) = List.length l.
Proof.
  revert i. induction l as [|h t IH]; intros [|i]; simpl; auto.
Qed.

Lemma set_nth_same A (l : list A) i v d :
  i < List.length l -> nth i (set_nth l i v) d = v.
Proof.
  revert i. induction l as [|h t IH]; intros [|i] H; simpl in *; try lia; auto.
  apply IH. lia.
Qed.

Lemma set_nth_other A (l : list A) i j v d :
  i <> j -> nth j (set_nth l i v) d = nth j l d.
Proof.
  revert i j. induction l as [|h t IH]; intros [|i] [|j] H; simpl; auto.
  congruence.
Qed.

(** [rootat p k x r]: [k] parent steps lead from [x] to the root [r]. *)
Inductive rootat (p : list nat) : nat -> nat -> nat -> Prop :=
| rootat_here x : nth x p x = x -> rootat p O x x
| rootat_step k x r :
    nth x p x <> x -> rootat p k (nth x p x) r -> rootat p (S k) x r.

Definition rootof (p : list nat) (x r : nat) : Prop := exists k, rootat p k x r.

(** A forest over [n] nodes: parents are nodes, every node has a root. *)
Definition forest (p : list nat) : Prop :=
  List.length p = n /\
  (forall x, x < n -> nth x p x < n) /\
  (forall x, x < n -> exists r, rootof p x r).

Lemma rootat_fun p k x r : rootat p k x r ->
  forall k' r', rootat p k' x r' -> k = k' /\ r = r'.
Proof.
  induction 1 as [x Hx|k x r Hx _ IH]; intros k' r' H'; inversion H'; subst;
    try congruence; auto.
  destruct (IH _ _ H0) as [-> ->]. auto.
Qed.

Lemma rootof_fun p x r r' : rootof p x r -> rootof p x r' -> r = r'.
Proof. intros (k & H) (k' & H'). exact (proj2 (rootat_fun H H')). Qed.

Lemma rootat_root p k x r : rootat p k x r -> nth r p r = r.
Proof. induction 1; auto. Qed.

Lemma rootat_lt p k x r :
  (forall y, y < n -> nth y p y < n) -> rootat p k x r -> x < n -> r < n.
Proof. intros Hr. induction 1; auto. Qed.

Lemma rootat_find p k x r :
  rootat p k x r -> forall fuel, k <= fuel -> find_root fuel p x = r.
Proof.
  induction 1 as [x Hx|k x r Hx _ IH]; intros fuel Hf.
  - destruct fuel; simpl; auto. rewrite Hx, Nat.eqb_refl. reflexivity.
  - destruct fuel as [|f]; [lia|]. simpl.
    apply Nat.eqb_neq in Hx. rewrite Hx. apply IH. lia.
Qed.

(** The nodes on the way to the root are all different, so the way is
    shorter than the forest is large. *)
Lemma rootat_path p k x r :
  (forall y, y < n -> nth y p y < n) -> rootat p k x r -> x < n ->
  exists l, List.length l = S k /\ NoDup l /\
            forall y, In y l -> y < n /\ exists j, j <= k /\ rootat p j y r.
Proof.
  intros Hr. induction 1 as [x Hx|k x r Hx H IH]; intros Hn.
  - exists [x]. split; [reflexivity|]. split; [repeat constructor; auto|].
    intros y [<-|[]]. split; auto. exists 0. split; auto. now constructor.
  - destruct (IH (Hr _ Hn)) as (l & Hl & Hnd & Hin).
    exists (x :: l). split; [simpl; now rewrite Hl|]. split.
    + constructor; auto. intros Hx'. apply Hin in Hx' as (_ & j & Hj & Hj').
      assert (HS : rootat p (S k) x r) by (constructor; auto).
      destruct (rootat_fun HS Hj'). lia.
    + intros y [<-|Hy].
      * split; auto. exists (S k). split; auto. constructor; auto.
      * destruct (Hin y Hy) as (Hyn & j & Hj & Hj'). split; auto.
        exists j. split; auto.
Qed.

Lemma rootat_bound p k x r : forest p -> x < n -> rootat p k x r -> k < n.
Proof.
  intros (_ & Hr & _) Hn H.
  destruct (rootat_path Hr H Hn) as (l & Hl & Hnd & Hin).
  assert (Hincl : incl l (seq 0 n)).
  { intros y Hy. apply in_seq. destruct (Hin y Hy). lia. }
  apply NoDup_incl_length in Hincl; auto.
  rewrite length_seq in Hincl. lia.
Qed.

(** The representative of a node. *)
Definition rep (p : list nat) (x : nat) : nat := find_root n p x.

Lemma rep_rootof p x : forest p -> x < n -> rootof p x (rep p x).
Proof.
  intros Hf Hn. destruct Hf as (Hl & Hr & Hroot).
  destruct (Hroot x Hn) as (r & k & Hk).
  assert (Hb : k < n) by (eapply rootat_bound; eauto; repeat split; auto).
  exists k. unfold rep. rewrite (rootat_find Hk) by lia. exact Hk.
Qed.

Lemma rootof_rep p x r : forest p -> x < n -> rootof p x r -> rep p x = r.
Proof.
  intros Hf Hn H. eapply rootof_fun; eauto. now apply rep_rootof.
Qed.

Lemma rep_lt p x : forest p -> x < n -> rep p x < n.
Proof.
  intros Hf Hn. destruct (rep_rootof Hf Hn) as (k & Hk).
  destruct Hf as (_ & Hr & _). eapply rootat_lt; eauto.
Qed.

Lemma rep_root p x : forest p -> x < n -> nth (rep p x) p (rep p x) = rep p x.
Proof.
  intros Hf Hn. destruct (rep_rootof Hf Hn) as (k & Hk).
  eapply rootat_root; eauto.
Qed.

Lemma rep_of_root p r : forest p -> r < n -> nth r p r = r -> rep p r = r.
Proof.
  intros Hf Hn Hr. apply rootof_rep; auto. exists 0. now constructor.
Qed.

Lemma rep_idem p x : forest p -> x < n -> rep p (rep p x) = rep p x.
Proof.
  intros Hf Hn. apply rep_of_root; auto using rep_lt, rep_root.
Qed.

Lemma rep_fixed_root p x : forest p -> x < n -> rep p x = x -> nth x p x = x.
Proof.
  intros Hf Hn E. pose proof (rep_root Hf Hn) as H. now rewrite E in H.
Qed.

(** Re-parenting a node to its own root changes no root. *)
Lemma reparent_rootof p x r :
  forest p -> x < n -> nth x p x <> x -> rootof p x r ->
  forall y ry, rootof p y ry -> rootof (set_nth p x r) y ry.
Proof.
  intros (Hl & Hr & _) Hn Hx Hxr y ry (j & Hj).
  assert (Hrr : nth r p r = r) by (destruct Hxr as (k & Hk); eapply rootat_root; eauto).
  assert (Hne : r <> x) by congruence.
  induction Hj as [y Hy|j y ry Hy Hj IH].
  - exists 0. constructor. rewrite set_nth_other; congruence.
  - destruct (Nat.eq_dec y x) as [->|Hyx].
    + assert (ry = r) as ->.
      { eapply rootof_fun; [|exact Hxr]. exists (S j). now constructor. }
      exists 1. constructor; rewrite set_nth_same by lia; auto.
      constructor. rewrite set_nth_other; auto.
    + destruct IH as (j' & Hj'). exists (S j').
      constructor; rewrite set_nth_other; auto.
Qed.

Lemma reparent_forest p x r :
  forest p -> x < n -> nth x p x <> x -> rootof p x r ->
  forest (set_nth p x r).
Proof.
  intros Hf Hn Hx Hxr. pose proof Hf as (Hl & Hr & Hroot).
  assert (Hrn : r < n) by (destruct Hxr as (k & Hk); eapply rootat_lt; eauto).
  split; [now rewrite set_nth_length|]. split.
  - intros y Hy. destruct (Nat.eq_dec x y) as [->|Hne].
    + rewrite set_nth_same by lia. exact Hrn.
    + rewrite set_nth_other by auto. auto.
  - intros y Hy. destruct (Hroot y Hy) as (ry & Hry). exists ry.
    eapply reparent_rootof; eauto.
Qed.

(** Path compression changes no root. *)
Lemma compress_ok fuel : forall p x r,
  forest p -> x < n -> rootof p x r ->
  forest (compress fuel p x r) /\
  forall y ry, rootof p y ry -> rootof (compress fuel p x r) y ry.
Proof.
  induction fuel as [|f IH]; intros p x r Hf Hn Hxr; simpl; [auto|].
  destruct (Nat.eqb_spec (nth x p x) x) as [Hx|Hx]; [auto|].
  pose proof (reparent_forest Hf Hn Hx Hxr) as Hf1.
  assert (Hpx : nth x p x < n) by (apply Hf; auto).
  assert (Hpr : rootof p (nth x p x) r).
  { destruct Hxr as (k & Hk). inversion Hk; subst; [congruence|]. eexists; eauto. }
  pose proof (reparent_rootof Hf Hn Hx Hxr Hpr) as Hpr1.
  destruct (IH _ _ _ Hf1 Hpx Hpr1) as (Hf2 & Hk2).
  split; auto. intros y ry Hy. apply Hk2.
  eapply reparent_rootof; eauto.
Qed.

Lemma compress_rep p x : forest p -> x < n ->
  forest (compress n p x (rep p x)) /\
  forall y, y < n -> rep (compress n p x (rep p x)) y = rep p y.
Proof.
  intros Hf Hn.
  destruct (@compress_ok n p x (rep p x) Hf Hn (rep_rootof Hf Hn)) as (Hf' & Hk).
  split; auto. intros y Hy. apply rootof_rep; auto.
  apply Hk. now apply rep_rootof.
Qed.

(** Hanging the root [c] under another root [d]. *)
Lemma link_rootof p c d :
  forest p -> c < n -> d < n -> nth c p c = c -> nth d p d = d -> c <> d ->
  forall y ry, rootof p y ry ->
    rootof (set_nth p c d) y (if Nat.eqb ry c then d else ry).
Proof.
  intros (Hl & Hr & _) Hc Hd Hcr Hdr Hne y ry (j & Hj).
  induction Hj as [y Hy|j y ry Hy Hj IH].
  - destruct (Nat.eqb_spec y c) as [->|Hyc].
    + exists 1. constructor; rewrite set_nth_same by lia; auto.
      constructor. rewrite set_nth_other; auto.
    + exists 0. constructor. rewrite set_nth_other; auto.
  - assert (Hyc : y <> c) by congruence.
    destruct IH as (j' & Hj'). exists (S j').
    constructor; rewrite set_nth_other; auto.
Qed.

Lemma link_forest p c d :
  forest p -> c < n -> d < n -> nth c p c = c -> nth d p d = d -> c <> d ->
  forest (set_nth p c d) /\
  forall y, y < n ->
    rep (set_nth p c d) y = if Nat.eqb (rep p y) c then d else rep p y.
Proof.
  intros Hf Hc Hd Hcr Hdr Hne. pose proof Hf as (Hl & Hr & Hroot).
  assert (Hf' : forest (set_nth p c d)).
  { split; [now rewrite set_nth_length|]. split.
    - intros y Hy. destruct (Nat.eq_dec c y) as [->|Hny].
      + rewrite set_nth_same by lia. exact Hd.
      + rewrite set_nth_other by auto. auto.
    - intros y Hy. destruct (Hroot y Hy) as (ry & Hry). eexists.
      eapply link_rootof; eauto. }
  split; auto. intros y Hy. apply rootof_rep; auto.
  apply link_rootof; auto. now apply rep_rootof.
Qed.

End UnionFind.

(** ** The scan, seen through the partition it maintains *)

Section Partition.

Local Open Scope nat_scope.

Variable n : nat.

Definition wf (ds : disjointSet) : Prop := forest n (parent ds).

(** The representative of [x] in [ds]. *)
Definition rp (ds : disjointSet) (x : nat) : nat := rep n (parent ds) x.

Lemma find_spec ds x r ds' :
  wf ds -> x < n -> find ds x = (r, ds') ->
  r = rp ds x /\ wf ds' /\ forall y, y < n -> rp ds' y = rp ds y.
Proof.
  intros Hwf Hn H. unfold find in H. pose proof Hwf as (Hl & _).
  rewrite Hl in H. injection H as <- <-.
  destruct (compress_rep Hwf Hn) as (Hf & Hk).
  split; [reflexivity|]. split; [exact Hf | exact Hk].
Qed.

(** What [union] does to the representatives: nothing if the two nodes
    had the same one, else one of the two replaces the other. *)
Lemma union_spec ds a b acc ds' :
  wf ds -> a < n -> b < n -> union ds a b = (acc, ds') ->
  wf ds' /\ acc = negb (Nat.eqb (rp ds a) (rp ds b)) /\
  exists c d,
    ((c = rp ds a /\ d = rp ds b) \/ (c = rp ds b /\ d = rp ds a)) /\
    forall y, y < n ->
      rp ds' y = if acc && Nat.eqb (rp ds y) c then d else rp ds y.
Proof.
  intros Hwf Ha Hb H. unfold union in H.
  destruct (find ds a) as [ra ds1] eqn:E1.
  destruct (find_spec Hwf Ha E1) as (-> & Hwf1 & Hk1).
  destruct (find ds1 b) as [rb ds2] eqn:E2.
  destruct (find_spec Hwf1 Hb E2) as (-> & Hwf2 & Hk2).
  rewrite (Hk1 b Hb) in H.
  assert (Hk : forall y, y < n -> rp ds2 y = rp ds y)
    by (intros y Hy; rewrite Hk2, Hk1; auto).
  assert (Hra : rp ds a < n) by (apply rep_lt; auto).
  assert (Hrb : rp ds b < n) by (apply rep_lt; auto).
  assert (Hroot : forall z, z < n -> rp ds z = z ->
                            nth z (parent ds2) z = z).
  { intros z Hz E. apply (rep_fixed_root Hwf2 Hz). fold (rp ds2 z).
    now rewrite Hk. }
  assert (Hra2 : nth (rp ds a) (parent ds2) (rp ds a) = rp ds a)
    by (apply Hroot; auto; apply rep_idem; auto).
  assert (Hrb2 : nth (rp ds b) (parent ds2) (rp ds b) = rp ds b)
    by (apply Hroot; auto; apply rep_idem; auto).
  destruct (Nat.eqb_spec (rp ds a) (rp ds b)) as [Heq|Hne].
  - injection H as <- <-. split; [exact Hwf2|]. split; [reflexivity|].
    exists (rp ds a), (rp ds b). split; [auto|]. intros y Hy. simpl. auto.
  - assert (Hlink : forall c d, c < n -> d < n ->
              nth c (parent ds2) c = c -> nth d (parent ds2) d = d -> c <> d ->
              forall rk,
              wf (mkDisjointSet (set_nth (parent ds2) c d) rk) /\
              forall y, y < n ->
                rp (mkDisjointSet (set_nth (parent ds2) c d) rk) y
                = if true && Nat.eqb (rp ds y) c then d else rp ds y).
    { intros c d Hc Hd Hcr Hdr Hcd rk.
      destruct (link_forest Hwf2 Hc Hd Hcr Hdr Hcd) as (Hf & Hrep).
      split; [exact Hf|]. intros y Hy. unfold rp at 1. simpl.
      rewrite (Hrep y Hy). fold (rp ds2 y). now rewrite Hk. }
    destruct (Nat.ltb _ _).
    + injection H as <- <-.
      destruct (Hlink (rp ds a) (rp ds b) Hra Hrb Hra2 Hrb2 Hne (rank ds2))
        as (Hf & Hrep).
      split; [exact Hf|]. split; [reflexivity|].
      exists (rp ds a), (rp ds b). auto.
    + destruct (Nat.ltb _ _); injection H as <- <-.
      * destruct (Hlink (rp ds b) (rp ds a) Hrb Hra Hrb2 Hra2
                    (fun E => Hne (eq_sym E)) (rank ds2)) as (Hf & Hrep).
        split; [exact Hf|]. split; [reflexivity|].
        exists (rp ds b), (rp ds a). auto.
      * destruct (Hlink (rp ds b) (rp ds a) Hrb Hra Hrb2 Hra2
                    (fun E => Hne (eq_sym E))
                    (set_nth (rank ds2) (rp ds a)
                             (S (nth (rp ds a) (rank ds2) 0))))
          as (Hf & Hrep).
        split; [exact Hf|]. split; [reflexivity|].
        exists (rp ds b), (rp ds a). auto.
Qed.

(** Two nodes are joined after [union a b] when they were joined before,
    or one was joined to [a] and the other to [b]. *)
Lemma union_same ds a b acc ds' :
  wf ds -> a < n -> b < n -> union ds a b = (acc, ds') ->
  forall x y, x < n -> y < n ->
    (rp ds' x = rp ds' y <->
     rp ds x = rp ds y \/
     (rp ds x = rp ds a /\ rp ds b = rp ds y) \/
     (rp ds x = rp ds b /\ rp ds a = rp ds y)).
Proof.
  intros Hwf Ha Hb H x y Hx Hy.
  destruct (union_spec Hwf Ha Hb H) as (_ & Hacc & c & d & Hcd & Hrep).
  rewrite (Hrep x Hx), (Hrep y Hy). subst acc.
  destruct (Nat.eqb_spec (rp ds a) (rp ds b)) as [Heq|Hne]; simpl.
  - split; [auto|]. intros [H0|[[H1 H2]|[H1 H2]]]; congruence.
  - destruct (Nat.eqb_spec (rp ds x) c) as [Hxc|Hxc];
      destruct (Nat.eqb_spec (rp ds y) c) as [Hyc|Hyc];
      destruct Hcd as [[-> ->]|[-> ->]]; split;
      try (intros [H0|[[H1 H2]|[H1 H2]]]); try intros H0;
      try congruence; try (left; congruence);
      try (right; left; split; congruence);
      try (right; right; split; congruence).
Qed.

(** The number of sets. *)
Definition nroots (ds : disjointSet) : nat :=
  List.length (filter (fun y => Nat.eqb (rp ds y) y) (seq 0 n)).

Lemma filter_drop_one (f f' : nat -> bool) c (l : list nat) :
  NoDup l -> In c l -> f c = true ->
  (forall y, In y l -> f' y = f y && negb (Nat.eqb y c)) ->
  List.length (filter f l) = S (List.length (filter f' l)).
Proof.
  induction 1 as [|h t Hh Hnd IH]; intros Hin Hc Hf'; [destruct Hin|].
  simpl. rewrite (Hf' h (or_introl eq_refl)).
  destruct Hin as [->|Hin].
  - rewrite Hc, Nat.eqb_refl. simpl. f_equal.
    f_equal. apply filter_ext_in. intros y Hy. rewrite Hf' by now right.
    destruct (Nat.eqb_spec y c) as [->|]; [contradiction|].
    now rewrite andb_true_r.
  - assert (Hhc : h <> c) by (intros ->; contradiction).
    apply Nat.eqb_neq in Hhc. rewrite Hhc, andb_true_r.
    specialize (IH Hin Hc (fun y Hy => Hf' y (or_intror Hy))).
    destruct (f h); simpl; now rewrite IH.
Qed.

(** An accepted edge makes one set less; a rejected one changes
    nothing. *)
Lemma union_count ds a b acc ds' :
  wf ds -> a < n -> b < n -> union ds a b = (acc, ds') ->
  nroots ds = (if acc then 1 else 0) + nroots ds'.
Proof.
  intros Hwf Ha Hb H.
  destruct (union_spec Hwf Ha Hb H) as (_ & Hacc & c & d & Hcd & Hrep).
  unfold nroots. destruct acc; simpl in *.
  - symmetry in Hacc. apply negb_true_iff, Nat.eqb_neq in Hacc.
    assert (Hc : c < n /\ rp ds c = c /\ d < n /\ rp ds d = d /\ c <> d).
    { destruct Hcd as [[-> ->]|[-> ->]];
        repeat split; auto using rep_lt, rep_idem;
        try (apply rep_lt; auto); try (apply rep_idem; auto). }
    destruct Hc as (Hcn & Hcr & Hdn & Hdr & Hne).
    apply filter_drop_one with (c := c).
    + apply seq_NoDup.
    + apply in_seq. lia.
    + rewrite Hcr. apply Nat.eqb_refl.
    + intros y Hy. apply in_seq in Hy. rewrite (Hrep y) by lia.
      destruct (Nat.eqb_spec (rp ds y) c) as [E|E].
      * destruct (Nat.eqb_spec y c) as [->|Hyc].
        -- rewrite Hcr, Nat.eqb_refl. simpl. apply Nat.eqb_neq. congruence.
        -- assert (Hdy : d <> y) by (intros <-; congruence).
           assert (Hcy : c <> y) by congruence.
           apply Nat.eqb_neq in Hdy, Hcy. rewrite E, Hdy, Hcy. reflexivity.
      * destruct (Nat.eqb_spec y c) as [->|Hyc]; [congruence|].
        simpl. now rewrite andb_true_r.
  - f_equal. apply filter_ext_in. intros y Hy. apply in_seq in Hy.
    rewrite (Hrep y) by lia. reflexivity.
Qed.

(** The number of sets depends on the partition only. *)
Lemma nroots_le ds1 ds2 :
  wf ds1 -> wf ds2 ->
  (forall x y, x < n -> y < n -> rp ds2 x = rp ds2 y -> rp ds1 x = rp ds1 y) ->
  nroots ds1 <= nroots ds2.
Proof.
  intros H1 H2 Hsame. unfold nroots.
  set (R1 := filter (fun y => Nat.eqb (rp ds1 y) y) (seq 0 n)).
  set (R2 := filter (fun y => Nat.eqb (rp ds2 y) y) (seq 0 n)).
  assert (HR1 : forall r, In r R1 -> r < n /\ rp ds1 r = r).
  { intros r Hr. apply filter_In in Hr as (Hr & E). apply in_seq in Hr.
    apply Nat.eqb_eq in E. split; [lia | exact E]. }
  rewrite <- (length_map (rp ds2) R1).
  apply NoDup_incl_length.
  - apply NoDup_map_NoDup_ForallPairs.
    + intros x y Hx Hy E. destruct (HR1 x Hx) as (Hxn & Ex).
      destruct (HR1 y Hy) as (Hyn & Ey).
      pose proof (Hsame x y Hxn Hyn E). congruence.
    + apply NoDup_filter, seq_NoDup.
  - intros z Hz. apply in_map_iff in Hz as (r & <- & Hr).
    destruct (HR1 r Hr) as (Hrn & _).
    apply filter_In. split.
    + apply in_seq. pose proof (rep_lt H2 Hrn). unfold rp. lia.
    + apply Nat.eqb_eq. apply rep_idem; auto.
Qed.

Lemma nroots_same ds1 ds2 :
  wf ds1 -> wf ds2 ->
  (forall x y, x < n -> y < n -> (rp ds1 x = rp ds1 y <-> rp ds2 x = rp ds2 y)) ->
  nroots ds1 = nroots ds2.
Proof.
  intros H1 H2 Hsame. apply Nat.le_antisymm; apply nroots_le; auto;
    intros x y Hx Hy; apply Hsame; auto.
Qed.

End Partition.

Section Scan.

Local Open Scope nat_scope.

Variable n : nat.

(** Both ends of the edge are nodes of the graph. *)
Definition inr (e : LabeledEdge) : bool :=
  in_order n (N1 (E e)) && in_order n (N2 (E e)).

Definition end1 (e : LabeledEdge) : nat := Z.to_nat (N1 (E e)).
Definition end2 (e : LabeledEdge) : nat := Z.to_nat (N2 (E e)).

Lemma inr_lt e : inr e = true -> end1 e < n /\ end2 e < n.
Proof.
  unfold inr, in_order, end1, end2. intros H.
  apply andb_true_iff in H as (H1 & H2).
  apply andb_true_iff in H1 as (H1 & H1'), H2 as (H2 & H2').
  apply Z.leb_le in H1, H2. apply Z.ltb_lt in H1', H2'. lia.
Qed.

(** Joined by a chain of edges of [P]. *)
Inductive linked (P : list LabeledEdge) : nat -> nat -> Prop :=
| linked_refl x : linked P x x
| linked_edge e : In e P -> linked P (end1 e) (end2 e)
| linked_sym x y : linked P x y -> linked P y x
| linked_trans x y z : linked P x y -> linked P y z -> linked P x z.

Lemma linked_incl P P' x y :
  (forall e, In e P -> In e P') -> linked P x y -> linked P' x y.
Proof.
  intros Hin. induction 1; eauto using linked.
Qed.

(** The union-find holds the partition of the nodes that the edges of [P]
    induce. *)
Definition tracks (ds : disjointSet) (P : list LabeledEdge) : Prop :=
  wf n ds /\
  (forall x y, x < n -> y < n -> rp n ds x = rp n ds y -> linked P x y) /\
  (forall x y, linked P x y ->
               x = y \/ (x < n /\ y < n /\ rp n ds x = rp n ds y)).

Lemma newDisjointSet_forest : forest n (seq 0 n).
Proof.
  assert (Hnth : forall x, x < n -> nth x (seq 0 n) x = x)
    by (intros x Hx; now rewrite seq_nth).
  split; [apply length_seq|]. split.
  - intros x Hx. now rewrite Hnth.
  - intros x Hx. exists x, 0. constructor. now apply Hnth.
Qed.

Lemma tracks_init : tracks (newDisjointSet n) [].
Proof.
  assert (Hwf : wf n (newDisjointSet n)) by exact newDisjointSet_forest.
  assert (Hrp : forall x, x < n -> rp n (newDisjointSet n) x = x).
  { intros x Hx. apply rep_of_root; auto. simpl. now rewrite seq_nth. }
  split; [exact Hwf|]. split.
  - intros x y Hx Hy. rewrite !Hrp by auto. intros <-. constructor.
  - intros x y H. left. induction H; auto; try congruence. destruct H.
Qed.

Lemma tracks_union ds P e acc ds' :
  tracks ds P -> inr e = true -> union ds (end1 e) (end2 e) = (acc, ds') ->
  tracks ds' (P ++ [e]).
Proof.
  intros (Hwf & Hto & Hfrom) He Hu. destruct (inr_lt e He) as (Ha & Hb).
  pose proof (union_same Hwf Ha Hb Hu) as Hsame.
  destruct (union_spec Hwf Ha Hb Hu) as (Hwf' & _).
  assert (Hold : forall x y, linked P x y -> linked (P ++ [e]) x y).
  { intros x y. apply linked_incl. intros e' He'. apply in_or_app. now left. }
  assert (Hnew : linked (P ++ [e]) (end1 e) (end2 e)).
  { constructor. apply in_or_app. right. now left. }
  split; [exact Hwf'|]. split.
  - intros x y Hx Hy H. apply (Hsame x y Hx Hy) in H.
    destruct H as [H|[[H1 H2]|[H1 H2]]].
    + apply Hold, Hto; auto.
    + apply linked_trans with (end1 e); [apply Hold, Hto; auto|].
      apply linked_trans with (end2 e); [exact Hnew|].
      apply Hold, Hto; auto.
    + apply linked_trans with (end2 e); [apply Hold, Hto; auto|].
      apply linked_trans with (end1 e); [apply linked_sym; exact Hnew|].
      apply Hold, Hto; auto.
  - intros x y H.
    induction H as [x|e' He'|x y H IH|x y z H1 IH1 H2 IH2].
    + now left.
    + apply in_app_or in He' as [He'|[<-|[]]].
      * destruct (Hfrom _ _ (@linked_edge P e' He')) as [E|(Hx & Hy & E)];
          [now left|].
        right. split; [exact Hx|]. split; [exact Hy|].
        apply (Hsame _ _ Hx Hy). now left.
      * right. split; [exact Ha|]. split; [exact Hb|].
        apply (Hsame _ _ Ha Hb). right. left. auto.
    + destruct IH as [->|(Hx & Hy & E)]; [now left|]. right. auto.
    + destruct IH1 as [->|(Hx & Hy & E1)]; [exact IH2|].
      destruct IH2 as [<-|(_ & Hz & E2)]; [right; auto|].
      right. split; [exact Hx|]. split; [exact Hz|]. congruence.
Qed.

(** The scan of [KruskalSorted], keeping the union-find and the edges
    accepted. *)
Fixpoint run (ds : disjointSet) (s : list LabeledEdge)
  : option (disjointSet * list LabeledEdge) :=
  match s with
  | [] => Some (ds, [])
  | e :: t =>
      if inr e then
        let (acc, ds') := union ds (end1 e) (end2 e) in
        match run ds' t with
        | Some (dsf, A) => Some (dsf, if acc then e :: A else A)
        | None => None
        end
      else None
  end.

Lemma run_tracks s : forall ds P dsf A,
  tracks ds P -> run ds s = Some (dsf, A) ->
  tracks dsf (P ++ s) /\
  nroots n ds = List.length A + nroots n dsf /\
  (forall e, In e A -> In e s).
Proof.
  induction s as [|e t IH]; intros ds P dsf A Ht H; simpl in H.
  - injection H as <- <-. rewrite app_nil_r.
    split; [exact Ht|]. split; [reflexivity|]. intros e [].
  - destruct (inr e) eqn:He; [|discriminate].
    destruct (union ds (end1 e) (end2 e)) as [acc ds'] eqn:Hu.
    destruct (run ds' t) as [[dsf' A']|] eqn:Hr; [|discriminate].
    injection H as <- <-.
    pose proof (@tracks_union ds P e acc ds' Ht He Hu) as Ht'.
    destruct (IH _ _ _ _ Ht' Hr) as (Htf & Hcount & Hin).
    destruct (inr_lt e He) as (Ha & Hb).
    pose proof (union_count (proj1 Ht) Ha Hb Hu) as Hc.
    rewrite <- app_assoc in Htf. split; [exact Htf|]. split.
    + rewrite Hc, Hcount. destruct acc; simpl; lia.
    + intros e' He'. destruct acc; [destruct He' as [<-|He']|];
        [now left | right; auto | right; auto].
Qed.

Lemma run_app s1 : forall ds s2,
  run ds (s1 ++ s2)
  = match run ds s1 with
    | Some (ds1, A1) =>
        match run ds1 s2 with
        | Some (ds2, A2) => Some (ds2, A1 ++ A2)
        | None => None
        end
    | None => None
    end.
Proof.
  induction s1 as [|e t IH]; intros ds s2; simpl.
  - destruct (run ds s2) as [[? ?]|]; reflexivity.
  - destruct (inr e); [|reflexivity].
    destruct (union ds (end1 e) (end2 e)) as [acc ds']. rewrite IH.
    destruct (run ds' t) as [[ds1 A1]|]; [|reflexivity].
    destruct (run ds1 s2) as [[ds2 A2]|]; [|reflexivity].
    destruct acc; reflexivity.
Qed.

Lemma run_some s : forall ds,
  forallb inr s = true -> exists dsf A, run ds s = Some (dsf, A).
Proof.
  induction s as [|e t IH]; intros ds H; simpl in *; [eauto|].
  apply andb_true_iff in H as (He & Ht). rewrite He.
  destruct (union ds (end1 e) (end2 e)) as [acc ds'].
  destruct (IH ds' Ht) as (dsf & A & ->). eauto.
Qed.

Lemma run_none s : forall ds, forallb inr s = false -> run ds s = None.
Proof.
  induction s as [|e t IH]; intros ds H; simpl in *; [discriminate|].
  destruct (inr e); [|reflexivity]. simpl in H.
  destruct (union ds (end1 e) (end2 e)) as [acc ds'].
  now rewrite (IH ds' H).
Qed.

Lemma run_In s : forall ds dsf A,
  run ds s = Some (dsf, A) -> forall e, In e A -> In e s.
Proof.
  induction s as [|e' t IH]; intros ds dsf A Hr e He; simpl in Hr.
  - injection Hr as <- <-. destruct He.
  - destruct (inr e'); [|discriminate].
    destruct (union ds (end1 e') (end2 e')) as [acc ds'].
    destruct (run ds' t) as [[dsf' A']|] eqn:Hr'; [|discriminate].
    injection Hr as <- <-.
    destruct acc; [destruct He as [<-|He]|];
      [now left | right; eauto | right; eauto].
Qed.

(** The edges accepted are in the order scanned. *)
Lemma run_sorted (R : LabeledEdge -> LabeledEdge -> Prop) s : forall ds dsf A,
  StronglySorted R s -> run ds s = Some (dsf, A) -> StronglySorted R A.
Proof.
  induction s as [|e t IH]; intros ds dsf A Hs H; simpl in H.
  - injection H as <- <-. constructor.
  - destruct (inr e) eqn:He; [|discriminate].
    destruct (union ds (end1 e) (end2 e)) as [acc ds'] eqn:Hu.
    destruct (run ds' t) as [[dsf' A']|] eqn:Hr; [|discriminate].
    injection H as <- <-. inversion Hs as [|? ? Hs' Hall]; subst.
    pose proof (IH _ _ _ Hs' Hr) as HA.
    destruct acc; [|exact HA]. constructor; [exact HA|].
    rewrite Forall_forall in *. intros x Hx. apply Hall.
    eapply run_In; eauto.
Qed.

(** The partition after a scan, and so the number of edges accepted,
    depend on the edges scanned and not on their order. *)
Lemma run_count s s' ds ds' A A' :
  (forall e, In e s <-> In e s') ->
  run (newDisjointSet n) s = Some (ds, A) ->
  run (newDisjointSet n) s' = Some (ds', A') ->
  List.length A = List.length A'.
Proof.
  intros Hin H H'.
  destruct (@run_tracks s _ [] _ _ tracks_init H) as ((Hwf & Hto & Hfrom) & Hc & _).
  destruct (@run_tracks s' _ [] _ _ tracks_init H') as ((Hwf' & Hto' & Hfrom') & Hc' & _).
  simpl in *.
  assert (E : nroots n ds = nroots n ds').
  { apply nroots_same; auto. intros x y Hx Hy. split; intros Hxy.
    - apply Hto in Hxy; auto.
      destruct (Hfrom' x y) as [->|(_ & _ & E)]; auto.
      eapply linked_incl; [|exact Hxy]. intros e. apply Hin.
    - apply Hto' in Hxy; auto.
      destruct (Hfrom x y) as [->|(_ & _ & E)]; auto.
      eapply linked_incl; [|exact Hxy]. intros e. apply Hin. }
  lia.
Qed.

End Scan.

(** ** The total weight does not depend on the order of ties *)

Section Weights.

Variable n : nat.
Variable w : Z -> Q.

Definition sumw (A : list LabeledEdge) : Q :=
  fold_right (fun e acc => weight w e + acc) 0 A.

Lemma fold_scan_None s : fold_left (scan_edge n w) s None = None.
Proof. induction s; simpl; auto. Qed.

(** [KruskalSorted]'s fold is the scan [run]; the weight it accumulates is
    that of the edges accepted. *)
Lemma scan_run s : forall ds g d,
  match fold_left (scan_edge n w) s (Some (ds, g, d)), run n ds s with
  | Some (ds1, _, d1), Some (ds2, A) => ds1 = ds2 /\ d1 == d + sumw A
  | None, None => True
  | _, _ => False
  end.
Proof.
  induction s as [|e t IH]; intros ds g d.
  - simpl. split; [reflexivity|]. now rewrite Qplus_0_r.
  - cbn [fold_left run]. unfold scan_edge at 2. unfold inr, end1, end2.
    destruct (in_order n (N1 (E e)) && in_order n (N2 (E e))).
    2:{ now rewrite fold_scan_None. }
    destruct (union ds (Z.to_nat (N1 (E e))) (Z.to_nat (N2 (E e))))
      as [acc ds'].
    destruct acc.
    + specialize (IH ds' (AddEdge g (E e) (L e)) (d + weight w e)).
      destruct (fold_left (scan_edge n w) t
                  (Some (ds', AddEdge g (E e) (L e), d + weight w e)))
        as [[[ds1 g1] d1]|], (run n ds' t) as [[ds2 A]|]; auto.
      destruct IH as [-> Hd]. split; [reflexivity|].
      rewrite Hd. simpl. now rewrite Qplus_assoc.
    + specialize (IH ds' g d).
      destruct (fold_left (scan_edge n w) t (Some (ds', g, d)))
        as [[[ds1 g1] d1]|], (run n ds' t) as [[ds2 A]|]; auto.
Qed.

(** How many of the edges weigh at most [q]. *)
Definition cnt (q : Q) (A : list LabeledEdge) : nat :=
  List.length (filter (fun e => Qle_bool (weight w e) q) A).

Lemma cnt_app q A B : cnt q (A ++ B) = (cnt q A + cnt q B)%nat.
Proof. unfold cnt. now rewrite filter_app, length_app. Qed.

Lemma cnt_all q A :
  Forall (fun e => weight w e <= q) A -> cnt q A = List.length A.
Proof.
  unfold cnt. induction 1 as [|e A He _ IH]; simpl; auto.
  apply Qle_bool_iff in He. rewrite He. simpl. now rewrite IH.
Qed.

Lemma cnt_none q A : Forall (fun e => q < weight w e) A -> cnt q A = O.
Proof.
  unfold cnt. induction 1 as [|e A He _ IH]; simpl; auto.
  destruct (Qle_bool (weight w e) q) eqn:Hc; auto.
  apply Qle_bool_iff in Hc. exfalso. eapply Qlt_not_le; eauto.
Qed.

Lemma cnt_pos q A : (0 < cnt q A)%nat -> exists e, In e A /\ weight w e <= q.
Proof.
  unfold cnt. intros H.
  destruct (filter (fun e => Qle_bool (weight w e) q) A) as [|e l] eqn:E;
    [simpl in H; lia|].
  assert (Hin : In e (filter (fun e => Qle_bool (weight w e) q) A))
    by (rewrite E; now left).
  apply filter_In in Hin as (Hin & Hq). exists e. split; auto.
  now apply Qle_bool_iff.
Qed.

(** An ascending list splits at any threshold. *)
Lemma sorted_split q s :
  StronglySorted (wle w) s ->
  exists P R, s = P ++ R /\
    Forall (fun e => weight w e <= q) P /\
    Forall (fun e => q < weight w e) R.
Proof.
  induction 1 as [|a t Hs IH Hall].
  - exists [], []. repeat split; constructor.
  - destruct (Qle_bool (weight w a) q) eqn:Hc.
    + destruct IH as (P & R & -> & HP & HR). exists (a :: P), R.
      split; [reflexivity|]. split; [|exact HR].
      constructor; [now apply Qle_bool_iff | exact HP].
    + assert (Hlt : q < weight w a).
      { apply Qnot_le_lt. intros H. apply Qle_bool_iff in H. congruence. }
      exists [], (a :: t). split; [reflexivity|]. split; [constructor|].
      constructor; [exact Hlt|].
      rewrite Forall_forall in *. intros x Hx.
      eapply Qlt_le_trans; [exact Hlt|]. exact (Hall x Hx).
Qed.

(** Of two ascending scans of the same edges, as many accepted edges weigh
    at most [q], whatever [q]. *)
Lemma run_cnt s s' ds ds' A A' :
  StronglySorted (wle w) s -> StronglySorted (wle w) s' ->
  (forall e, In e s <-> In e s') ->
  run n (newDisjointSet n) s = Some (ds, A) ->
  run n (newDisjointSet n) s' = Some (ds', A') ->
  forall q, cnt q A = cnt q A'.
Proof.
  intros Hs Hs' Hin Hr Hr' q.
  destruct (sorted_split q Hs) as (P & R & -> & HP & HR).
  destruct (sorted_split q Hs') as (P' & R' & -> & HP' & HR').
  rewrite run_app in Hr, Hr'.
  destruct (run n (newDisjointSet n) P) as [[dP AP]|] eqn:EP; [|discriminate].
  destruct (run n dP R) as [[dR AR]|] eqn:ER; [|discriminate].
  destruct (run n (newDisjointSet n) P') as [[dP' AP']|] eqn:EP';
    [|discriminate].
  destruct (run n dP' R') as [[dR' AR']|] eqn:ER'; [|discriminate].
  injection Hr as _ <-. injection Hr' as _ <-.
  rewrite Forall_forall in HP, HR, HP', HR'.
  assert (Hmem : forall e, In e P <-> In e P').
  { intros e. split; intros He.
    - assert (H : In e (P' ++ R')) by (apply Hin, in_or_app; now left).
      apply in_app_or in H as [H|H]; auto.
      exfalso. eapply Qlt_not_le; [apply (HR' e H) | apply (HP e He)].
    - assert (H : In e (P ++ R)) by (apply Hin, in_or_app; now left).
      apply in_app_or in H as [H|H]; auto.
      exfalso. eapply Qlt_not_le; [apply (HR e H) | apply (HP' e He)]. }
  rewrite !cnt_app.
  rewrite (cnt_all (A := AP)), (cnt_all (A := AP')),
          (cnt_none (A := AR)), (cnt_none (A := AR')).
  - f_equal. eapply run_count; eauto.
  - apply Forall_forall. intros e He. apply HR'. eapply run_In; eauto.
  - apply Forall_forall. intros e He. apply HR. eapply run_In; eauto.
  - apply Forall_forall. intros e He. apply HP'. eapply run_In; eauto.
  - apply Forall_forall. intros e He. apply HP. eapply run_In; eauto.
Qed.

Lemma Qle_bool_eq x y q : x == y -> Qle_bool x q = Qle_bool y q.
Proof.
  intros E. destruct (Qle_bool x q) eqn:Hx, (Qle_bool y q) eqn:Hy; auto.
  - apply Qle_bool_iff in Hx. rewrite E in Hx. apply Qle_bool_iff in Hx.
    congruence.
  - apply Qle_bool_iff in Hy. rewrite <- E in Hy. apply Qle_bool_iff in Hy.
    congruence.
Qed.

Lemma cnt_head a A : (0 < cnt (weight w a) (a :: A))%nat.
Proof.
  unfold cnt. simpl.
  assert (H : Qle_bool (weight w a) (weight w a) = true)
    by (apply Qle_bool_iff, Qle_refl).
  rewrite H. simpl. lia.
Qed.

Lemma sorted_least a A e :
  StronglySorted (wle w) (a :: A) -> In e (a :: A) -> weight w a <= weight w e.
Proof.
  intros Hs [<-|He]; [apply Qle_refl|].
  inversion Hs as [|? ? _ Hall]; subst.
  rewrite Forall_forall in Hall. exact (Hall e He).
Qed.

(** Two ascending lists with the same counts below every threshold have
    the same weights, one by one, and so the same sum. *)
Lemma sorted_cnt_sum A : forall A',
  StronglySorted (wle w) A -> StronglySorted (wle w) A' ->
  (forall q, cnt q A = cnt q A') -> sumw A == sumw A'.
Proof.
  induction A as [|a A IH]; intros A' Hs Hs' Hc.
  - destruct A' as [|a' A']; [reflexivity|].
    pose proof (cnt_head a' A') as H. rewrite <- Hc in H.
    unfold cnt in H. simpl in H. lia.
  - destruct A' as [|a' A'].
    { pose proof (cnt_head a A) as H. rewrite Hc in H.
      unfold cnt in H. simpl in H. lia. }
    assert (Hle : weight w a' <= weight w a).
    { pose proof (cnt_head a A) as H. rewrite Hc in H.
      apply cnt_pos in H as (e & He & Hq).
      eapply Qle_trans; [|exact Hq]. eapply sorted_least; eauto. }
    assert (Hge : weight w a <= weight w a').
    { pose proof (cnt_head a' A') as H. rewrite <- Hc in H.
      apply cnt_pos in H as (e & He & Hq).
      eapply Qle_trans; [|exact Hq]. eapply sorted_least; eauto. }
    assert (Heq : weight w a == weight w a') by (now apply Qle_antisym).
    simpl. rewrite Heq. apply Qplus_comp; [reflexivity|].
    inversion Hs; inversion Hs'; subst. apply IH; auto.
    intros q. specialize (Hc q). unfold cnt in *. simpl in Hc.
    rewrite (Qle_bool_eq q Heq) in Hc.
    destruct (Qle_bool (weight w a') q); simpl in Hc; lia.
Qed.

(** What two results have in common when they need not be equal: both are
    faults, or both are graphs of the same total weight. *)
Definition same_total (r1 r2 : option (list (list Half) * Q)) : Prop :=
  match r1, r2 with
  | Some (_, t1), Some (_, t2) => t1 == t2
  | None, None => True
  | _, _ => False
  end.

Lemma KruskalSorted_run s :
  match KruskalSorted (mkWeightedEdgeList n w s),
        run n (newDisjointSet n) s with
  | Some (_, t), Some (_, A) => t == sumw A
  | None, None => True
  | _, _ => False
  end.
Proof.
  unfold KruskalSorted. cbn [Order WeightFunc Edges].
  pose proof (scan_run s (newDisjointSet n) (repeat [] n) 0) as H.
  destruct (fold_left (scan_edge n w) s
              (Some (newDisjointSet n, repeat [] n, 0)))
    as [[[ds1 g1] d1]|], (run n (newDisjointSet n) s) as [[ds2 A]|]; auto.
  destruct H as [_ H]. now rewrite H, Qplus_0_l.
Qed.

Lemma sorted_same_total s s' :
  StronglySorted (wle w) s -> StronglySorted (wle w) s' ->
  Permutation s' s ->
  same_total (KruskalSorted (mkWeightedEdgeList n w s))
             (KruskalSorted (mkWeightedEdgeList n w s')).
Proof.
  intros Hs Hs' HP.
  assert (Hin : forall e, In e s <-> In e s').
  { intros e. split; apply Permutation_in; [now symmetry | exact HP]. }
  pose proof (KruskalSorted_run s) as H. pose proof (KruskalSorted_run s') as H'.
  destruct (forallb (inr n) s) eqn:Hall.
  - assert (Hall' : forallb (inr n) s' = true).
    { apply forallb_forall. intros e He. rewrite forallb_forall in Hall.
      apply Hall, Hin, He. }
    destruct (run_some n s (newDisjointSet n) Hall) as (ds & A & Hr).
    destruct (run_some n s' (newDisjointSet n) Hall') as (ds' & A' & Hr').
    rewrite Hr in H. rewrite Hr' in H'.
    destruct (KruskalSorted (mkWeightedEdgeList n w s)) as [[g t]|];
      [|contradiction].
    destruct (KruskalSorted (mkWeightedEdgeList n w s')) as [[g' t']|];
      [|contradiction].
    simpl. rewrite H, H'. apply sorted_cnt_sum.
    + eapply run_sorted; [exact Hs | exact Hr].
    + eapply run_sorted; [exact Hs' | exact Hr'].
    + eapply run_cnt; [exact Hs | exact Hs' | exact Hin | exact Hr | exact Hr'].
  - assert (Hall' : forallb (inr n) s' = false).
    { destruct (forallb (inr n) s') eqn:E; auto.
      rewrite <- Hall. symmetry. apply forallb_forall. intros e He.
      rewrite forallb_forall in E. apply E, Hin, He. }
    rewrite (run_none n s _ Hall) in H. rewrite (run_none n s' _ Hall') in H'.
    destruct (KruskalSorted (mkWeightedEdgeList n w s)) as [[g t]|];
      [contradiction|].
    destruct (KruskalSorted (mkWeightedEdgeList n w s')) as [[g' t']|];
      [contradiction|].
    exact I.
Qed.

End Weights.

(** C3 (as the model has it).  On a list in ascending order of weight,
    [KruskalSorted] and [Kruskal] on the same edges listed in any order
    fault together or return graphs of the same total weight.  The graph
    itself is the same when the other list keeps edges of equal weight in
    the same relative order, and so whenever no two edges weigh the
    same. *)
Theorem KruskalSorted_agrees (n : nat) (w : Z -> Q) (s l : list LabeledEdge) :
  StronglySorted (wle w) s -> Permutation l s ->
  same_total (KruskalSorted (mkWeightedEdgeList n w s))
             (Kruskal (mkWeightedEdgeList n w l)) /\
  (same_tie_order w l s ->
   KruskalSorted (mkWeightedEdgeList n w s)
   = Kruskal (mkWeightedEdgeList n w l)) /\
  (StronglySorted (wlt w) s ->
   KruskalSorted (mkWeightedEdgeList n w s)
   = Kruskal (mkWeightedEdgeList n w l)).
Proof.
  intros Hs HP. unfold Kruskal. cbn [Order WeightFunc Edges].
  split; [|split].
  - apply sorted_same_total; [exact Hs | apply stable_sort_sorted|].
    rewrite <- HP. symmetry. apply stable_sort_perm.
  - intros Ht. now rewrite (stable_sort_ties Hs Ht).
  - intros Hst. now rewrite (stable_sort_strict Hst HP).
Qed.

Lemma KruskalSorted_agrees_witness :
  let s := [le 0 1 5; le 1 2 5; le 0 2 5] in
  let l := [le 0 2 5; le 0 1 5; le 1 2 5] in
  StronglySorted (wle w_label) s /\ Permutation l s /\
  same_total (KruskalSorted (mkWeightedEdgeList 3 w_label s))
             (Kruskal (mkWeightedEdgeList 3 w_label l)) /\
  KruskalSorted (mkWeightedEdgeList 5 w_label example_sorted)
  = Kruskal (mkWeightedEdgeList 5 w_label example_unsorted).
Proof.
  intros s l.
  assert (Hs : StronglySorted (wle w_label) s).
  { subst s.
    repeat (constructor; [|repeat (constructor; [discriminate|]); constructor]).
    constructor. }
  assert (HP : Permutation l s) by (subst s l; literal_perm).
  assert (Hs5 : StronglySorted (wle w_label) example_sorted).
  { pose proof example_sorted_strict as H.
    induction H as [|a t _ IH Hall]; constructor; auto.
    rewrite Forall_forall in *. intros x Hx. apply Qlt_le_weak. now apply Hall. }
  split; [exact Hs|]. split; [exact HP|]. split.
  - exact (proj1 (@KruskalSorted_agrees 3 w_label s l Hs HP)).
  - exact (proj2 (proj2 (@KruskalSorted_agrees 5 w_label example_sorted
                           example_unsorted Hs5 example_unsorted_perm))
                 example_sorted_strict).
Defined.

(** With edges of equal weight the claim as first stated fails: both lists
    below are ascending and hold the same edges, and the totals agree, yet
    the trees differ. *)
Lemma Kruskal_ties_counterexample :
  let s := [le 0 1 5; le 1 2 5; le 0 2 5] in
  let l := [le 0 2 5; le 0 1 5; le 1 2 5] in
  StronglySorted (wle w_label) s /\ Permutation l s /\
  KruskalSorted (mkWeightedEdgeList 3 w_label s)
  <> Kruskal (mkWeightedEdgeList 3 w_label l) /\
  option_map fst (KruskalSorted (mkWeightedEdgeList 3 w_label s))
  <> option_map fst (Kruskal (mkWeightedEdgeList 3 w_label l)) /\
  option_map snd (KruskalSorted (mkWeightedEdgeList 3 w_label s)) = Some 10 /\
  option_map snd (Kruskal (mkWeightedEdgeList 3 w_label l)) = Some 10.
Proof.
  intros s l. split; [|split; [|split; [|split; [|split]]]].
  - subst s.
    repeat (constructor; [|repeat (constructor; [discriminate|]); constructor]).
    constructor.
  - subst s l. literal_perm.
  - vm_compute. discriminate.
  - vm_compute. discriminate.
  - vm_compute. reflexivity.
  - vm_compute. reflexivity.
Qed.

(** C5.  On the five-node graph of the worked example, in whatever order
    its seven edges are listed, [Kruskal] returns total weight 110 and the
    tree made of the edges 0-4, 2-3, 0-1 and 1-2; that tree spans the five
    nodes, and no set of edges of the graph that spans them weighs less. *)
Theorem Kruskal_worked_example (l : list LabeledEdge) :
  Permutation l example_sorted ->
  Kruskal (mkWeightedEdgeList 5 w_label l) = Some (example_tree, 110) /\
  (forall e, In e (undirected_edges example_tree) <->
             In e [le 0 4 10; le 2 3 20; le 0 1 30; le 1 2 50]) /\
  spans 5 (undirected_edges example_tree) = true /\
  (forall T, In T (sublists example_sorted) -> spans 5 T = true ->
             110 <= total w_label T).
Proof.
  intros HP. split; [|split; [|split]].
  - unfold Kruskal. cbn [Order WeightFunc Edges].
    rewrite (stable_sort_strict example_sorted_strict HP).
    vm_compute. reflexivity.
  - intros e. cbv [undirected_edges example_tree]. simpl. tauto.
  - vm_compute. reflexivity.
  - assert (Hall : forallb (fun T => implb (spans 5 T)
                                       (Qle_bool 110 (total w_label T)))
                           (sublists example_sorted) = true)
      by (vm_compute; reflexivity).
    rewrite forallb_forall in Hall. intros T HT Hs.
    specialize (Hall T HT). rewrite Hs in Hall. simpl in Hall.
    now apply Qle_bool_iff.
Qed.

Lemma Kruskal_worked_example_witness :
  Kruskal (mkWeightedEdgeList 5 w_label example_unsorted)
  = Some (example_tree, 110) /\
  (forall e, In e (undirected_edges example_tree) <->
             In e [le 0 4 10; le 2 3 20; le 0 1 30; le 1 2 50]) /\
  spans 5 (undirected_edges example_tree) = true /\
  (forall T, In T (sublists example_sorted) -> spans 5 T = true ->
             110 <= total w_label T).
Proof.
  apply (@Kruskal_worked_example example_unsorted).
  exact example_unsorted_perm.
Defined.

End MST.

(* ================================================================== *)
(** * Connectivity: strongly connected components, topological order *)
(* ================================================================== *)

Module Connectivity.

Local Open Scope nat_scope.

(** The implementations are not among the sources; both algorithms are
    modelled from the specification, over adjacency lists whose node ids
    are natural numbers. *)

Definition mem (n : nat) (l : list nat) : bool := existsb (Nat.eqb n) l.

Fixpoint set_nth {A} (l : list A) (i : nat) (v : A) : list A :=
  match l, i with
  | [], _ => []
  | _ :: t, O => v :: t
  | h :: t, S j => h :: set_nth t j v
  end.

(** ** Tarjan *)

(** Per node a discovery index (once discovered) and a low-link, the next
    index to hand out, the auxiliary stack (top first) and the components
    emitted so far. *)
Record tarjan_state : Type := mkTarjan {
  t_index : list (option nat);
  t_lowlink : list nat;
  t_next : nat;
  t_stack : list nat;
  t_scc : list (list nat)
}.

(** Pop the stack down to and including [n]. *)
Fixpoint pop_to (n : nat) (stack : list nat) : list nat * list nat :=
  match stack with
  | [] => ([], [])
  | w :: rest => if Nat.eqb w n then ([w], rest)
                 else let (c, rest') := pop_to n rest in (w :: c, rest')
  end.

Definition lower (st : tarjan_state) (n v : nat) : tarjan_state :=
  mkTarjan (t_index st)
           (set_nth (t_lowlink st) n (Nat.min (nth n (t_lowlink st) O) v))
           (t_next st) (t_stack st) (t_scc st).

(** Modelled from the spec: the depth-first walk of Tarjan's algorithm
    from node [n].  [None] is a fault (an arc out of range) or an exhausted
    recursion budget. *)
Fixpoint strongconnect (fuel : nat) (g : list (list nat)) (n : nat)
    (st : tarjan_state) : option tarjan_state :=
  match fuel with
  | O => None
  | S f =>
      match nth_error g n with
      | None => None
      | Some nbs =>
          let x := t_next st in
          let st1 := mkTarjan (set_nth (t_index st) n (Some x))
                              (set_nth (t_lowlink st) n x)
                              (S x) (n :: t_stack st) (t_scc st) in
          let after :=
            fold_left
              (fun acc nb =>
                 match acc with
                 | None => None
                 | Some s =>
                     match nth nb (t_index s) None with
                     | None =>
                         match strongconnect f g nb s with
                         | Some s' => Some (lower s' n (nth nb (t_lowlink s') O))
                         | None => None
                         end
                     | Some ib =>
                         if mem nb (t_stack s) then Some (lower s n ib)
                         else Some s
                     end
                 end)
              nbs (Some st1) in
          match after with
          | None => None
          | Some s =>
              if Nat.eqb (nth n (t_lowlink s) O) x then
                let (c, rest) := pop_to n (t_stack s) in
                Some (mkTarjan (t_index s) (t_lowlink s) (t_next s) rest
                               (t_scc s ++ [c]))
              else Some s
          end
      end
  end.

(** Modelled from the spec: [Tarjan], the walk restarted from every node
    not yet discovered, in ascending order. *)
Definition Tarjan (g : list (list nat)) : option (list (list nat)) :=
  let n := List.length g in
  match
    fold_left
      (fun acc v =>
         match acc with
         | None => None
         | Some s =>
             match nth v (t_index s) None with
             | None => strongconnect (S n) g v s
             | Some _ => Some s
             end
         end)
      (seq 0 n)
      (Some (mkTarjan (repeat None n) (repeat O n) O [] []))
  with
  | Some s => Some (t_scc s)
  | None => None
  end.

(** The graph of [ExampleAdjacencyList_Tarjan]. *)
Definition tarjan_example : list (list nat) :=
  [ [1]; [4; 2; 5]; [3; 6]; [2; 7]; [5; 0]; [6]; [5]; [3; 6] ].

(** ** Topological order *)

(** How a walk ends: with the finished nodes (latest first), on a cycle,
    on an index out of range, or with the recursion budget spent. *)
Inductive walk : Type :=
| Done (order : list nat)
| Cycle
| Fault
| Fuel.

(** The neighbours in turn, each continuing from where the last one left
    off; anything but [Done] ends the loop. *)
Fixpoint visit_all (visit : list nat -> nat -> walk) (nbs : list nat)
    (order : list nat) : walk :=
  match nbs with
  | [] => Done order
  | nb :: rest =>
      match visit order nb with
      | Done order' => visit_all visit rest order'
      | r => r
      end
  end.

(** Modelled from the spec: the depth-first walk distinguishing nodes on
    the current recursion stack from finished ones.  A finished node is
    put in front of [order], so that [order] is the postorder reversed. *)
Fixpoint df (fuel : nat) (g : list (list nat)) (stack order : list nat)
    (n : nat) : walk :=
  if mem n stack then Cycle
  else if mem n order then Done order
  else
    match fuel with
    | O => Fuel
    | S f =>
        match nth_error g n with
        | None => Fault
        | Some nbs =>
            match visit_all (df f g (n :: stack)) nbs order with
            | Done order' => Done (n :: order')
            | r => r
            end
        end
    end.

(** Restart from each unfinished node, in ascending order. *)
Fixpoint topo_loop (g : list (list nat)) (nodes : list nat) (order : list nat)
  : walk :=
  match nodes with
  | [] => Done order
  | n :: rest =>
      if mem n order then topo_loop g rest order
      else match df (List.length g) g [] order n with
           | Done order' => topo_loop g rest order'
           | r => r
           end
  end.

(** What a caller of [Topological] gets: an ordering, a fault (an index
    out of range), or, in the model only, a spent recursion budget. *)
Inductive answer : Type :=
| Returns (order : list nat)
| Faults
| Spent.

(** Modelled from the spec: [Topological], the full ordering, or an empty
    result if a cycle is detected anywhere. *)
Definition Topological (g : list (list nat)) : answer :=
  match topo_loop g (seq 0 (List.length g)) [] with
  | Done order => Returns order
  | Cycle => Returns []
  | Fault => Faults
  | Fuel => Spent
  end.

Example Topological_dag :
  Topological [[]; [2]; []; [1; 2]; [3; 2]] = Returns [4; 3; 1; 2; 0].
Proof. reflexivity. Qed.

Example Topological_cyclic :
  Topological [[]; [2]; [3]; [1; 2]; [3; 2]] = Returns [].
Proof. reflexivity. Qed.

Example Topological_fault : Topological [[7]; []] = Faults.
Proof. reflexivity. Qed.

(** C6.  On the eight-node example graph Tarjan's algorithm returns three
    components, in this order and each in the order popped: 6 5, then
    7 3 2, then 4 1 0. *)
Theorem Tarjan_example :
  Tarjan tarjan_example = Some [[6; 5]; [7; 3; 2]; [4; 1; 0]].
Proof. vm_compute. reflexivity. Qed.

(** ** Correctness of the topological order *)

Section Topo.

Variable g : list (list nat).

(** [arc u v]: slot [u] lists [v]. *)
Definition arc (u v : nat) : Prop :=
  exists nbs, nth_error g u = Some nbs /\ In v nbs.

(** A path of at least one arc. *)
Inductive path : nat -> nat -> Prop :=
| path_one u v : arc u v -> path u v
| path_cons u v w : arc u v -> path v w -> path u w.

Definition cyclic : Prop := exists u, path u u.

Definition bounds : Prop := forall u v, arc u v -> v < List.length g.

(** In [order] every node comes before all its successors. *)
Definition topo (order : list nat) : Prop :=
  forall l1 u l2, order = l1 ++ u :: l2 ->
  forall v, arc u v -> In v l2.

(** The recursion stack is a chain of arcs ending in the node called. *)
Fixpoint chain (stack : list nat) (n : nat) : Prop :=
  match stack with
  | [] => True
  | s :: rest => arc s n /\ chain rest s
  end.

Definition proper (r : walk) : Prop :=
  match r with
  | Done _ | Cycle => True
  | Fault | Fuel => False
  end.

(** What a finished walk adds: nodes of the graph, none of them on the
    stack, put in front so that the order stays topological, and the
    [targets] are among the finished. *)
Definition extends (stack order order' targets : list nat) : Prop :=
  exists new,
    order' = new ++ order /\ topo order' /\ NoDup order' /\
    (forall x, In x new -> ~ In x stack /\ x < List.length g) /\
    (forall x, In x targets -> In x order').

Lemma mem_In n l : mem n l = true <-> In n l.
Proof.
  unfold mem. rewrite existsb_exists. split.
  - intros (x & Hx & E). apply Nat.eqb_eq in E. now subst.
  - intros H. exists n. split; auto. apply Nat.eqb_refl.
Qed.

Lemma mem_not_In n l : mem n l = false <-> ~ In n l.
Proof.
  rewrite <- mem_In. destruct (mem n l); split; congruence.
Qed.

Lemma path_snoc u v w : path u v -> arc v w -> path u w.
Proof.
  induction 1 as [a b Hab|a b c Hab _ IH]; intros Hw.
  - eapply path_cons; eauto. now apply path_one.
  - eapply path_cons; eauto.
Qed.

Lemma chain_path stack : forall n s, chain stack n -> In s stack -> path s n.
Proof.
  induction stack as [|s0 rest IH]; intros n s Hc Hs; [destruct Hs|].
  destruct Hc as [Ha Hc]. destruct Hs as [<-|Hs].
  - now apply path_one.
  - eapply path_snoc; eauto.
Qed.

Lemma topo_path order u v :
  topo order -> path u v ->
  forall l1 l2, order = l1 ++ u :: l2 -> In v l2.
Proof.
  intros Ht. induction 1 as [a b Hab|a b c Hab _ IH]; intros l1 l2 E.
  - eapply Ht; eauto.
  - pose proof (Ht _ _ _ E _ Hab) as Hb.
    apply in_split in Hb as (l3 & l4 & ->).
    assert (In c l4).
    { apply (IH (l1 ++ a :: l3) l4). rewrite E, <- app_assoc. reflexivity. }
    apply in_or_app. right. now right.
Qed.

Lemma topo_no_cycle order u :
  topo order -> NoDup order -> In u order -> ~ path u u.
Proof.
  intros Ht Hnd Hu Hp. apply in_split in Hu as (l1 & l2 & ->).
  pose proof (topo_path Ht Hp l1 l2 eq_refl) as Hin.
  apply NoDup_remove_2 in Hnd. apply Hnd. apply in_or_app. now right.
Qed.

Lemma extends_refl stack order :
  topo order -> NoDup order -> extends stack order order [].
Proof.
  intros Ht Hnd. exists [].
  split; [reflexivity|]. split; [exact Ht|]. split; [exact Hnd|].
  split; intros x [].
Qed.

(** *** A finished walk *)

Lemma visit_all_done (visit : list nat -> nat -> walk) stack nbs :
  (forall order nb order', In nb nbs -> topo order -> NoDup order ->
     visit order nb = Done order' -> extends stack order order' [nb]) ->
  forall order order', topo order -> NoDup order ->
    visit_all visit nbs order = Done order' ->
    extends stack order order' nbs.
Proof.
  induction nbs as [|nb rest IH]; intros Hv order order' Ht Hnd H; simpl in H.
  - injection H as <-. now apply extends_refl.
  - destruct (visit order nb) as [o1| | |] eqn:E1; try discriminate.
    destruct (Hv order nb o1 (or_introl eq_refl) Ht Hnd E1)
      as (new1 & -> & Ht1 & Hnd1 & Hnew1 & Hin1).
    destruct (IH (fun o b o' Hb => Hv o b o' (or_intror Hb))
                 _ _ Ht1 Hnd1 H)
      as (new2 & -> & Ht2 & Hnd2 & Hnew2 & Hin2).
    exists (new2 ++ new1). rewrite <- app_assoc.
    split; [reflexivity|]. split; [exact Ht2|]. split; [exact Hnd2|]. split.
    + intros x Hx. apply in_app_or in Hx as [Hx|Hx];
        [now apply Hnew2 | now apply Hnew1].
    + intros x [<-|Hx]; [|now apply Hin2].
      apply in_or_app. right. apply Hin1. now left.
Qed.

Lemma df_done fuel : forall stack order n order',
  topo order -> NoDup order ->
  df fuel g stack order n = Done order' ->
  extends stack order order' [n].
Proof.
  induction fuel as [|f IH]; intros stack order n order' Ht Hnd H; simpl in H;
    destruct (mem n stack) eqn:Hs; try discriminate;
    destruct (mem n order) eqn:Ho; try discriminate.
  - injection H as <-. exists [].
    split; [reflexivity|]. split; [exact Ht|]. split; [exact Hnd|].
    split; [intros x []|].
    intros x [<-|[]]. now apply mem_In.
  - injection H as <-. exists [].
    split; [reflexivity|]. split; [exact Ht|]. split; [exact Hnd|].
    split; [intros x []|].
    intros x [<-|[]]. now apply mem_In.
  - destruct (nth_error g n) as [nbs|] eqn:Hn; try discriminate.
    destruct (visit_all (df f g (n :: stack)) nbs order) as [o1| | |] eqn:E1;
      try discriminate.
    injection H as <-.
    apply mem_not_In in Hs, Ho.
    destruct (@visit_all_done (df f g (n :: stack)) (n :: stack) nbs
                (fun o b o' _ => IH (n :: stack) o b o') order o1 Ht Hnd E1)
      as (new1 & -> & Ht1 & Hnd1 & Hnew1 & Hin1).
    assert (Hn1 : ~ In n (new1 ++ order)).
    { intros Hin. apply in_app_or in Hin as [Hin|Hin]; auto.
      apply Hnew1 in Hin. apply (proj1 Hin). now left. }
    exists (n :: new1). split; [reflexivity|]. split; [|split; [|split]].
    + intros l1 u l2 E v Hv. destruct l1 as [|a l1]; simpl in E.
      * injection E as <- <-. destruct Hv as (nbs' & Hn' & Hv).
        assert (nbs' = nbs) as -> by congruence. auto.
      * injection E as <- E. eapply Ht1; eauto.
    + simpl. constructor; auto.
    + intros x [<-|Hx].
      * split; auto. apply nth_error_Some. congruence.
      * apply Hnew1 in Hx. split; [|apply Hx].
        intros Hx'. apply (proj1 Hx). now right.
    + intros x [<-|[]]. now left.
Qed.

(** *** A walk ending on a cycle *)

Lemma visit_all_cycle (visit : list nat -> nat -> walk) nbs :
  (forall order nb, In nb nbs -> visit order nb = Cycle -> cyclic) ->
  forall order, visit_all visit nbs order = Cycle -> cyclic.
Proof.
  induction nbs as [|nb rest IH]; intros Hv order H; simpl in H;
    [discriminate|].
  destruct (visit order nb) as [o1| | |] eqn:E1; try discriminate.
  - eapply IH; eauto. intros o b Hb. apply Hv. now right.
  - eapply Hv; eauto. now left.
Qed.

Lemma df_cycle fuel : forall stack order n,
  chain stack n -> df fuel g stack order n = Cycle -> cyclic.
Proof.
  induction fuel as [|f IH]; intros stack order n Hc H; simpl in H;
    destruct (mem n stack) eqn:Hs;
    try (exists n; apply (chain_path stack); auto; now apply mem_In);
    destruct (mem n order) eqn:Ho; try discriminate.
  destruct (nth_error g n) as [nbs|] eqn:Hn; try discriminate.
  destruct (visit_all (df f g (n :: stack)) nbs order) as [o1| | |] eqn:E1;
    try discriminate.
  eapply visit_all_cycle; [|exact E1].
  intros o nb Hnb. apply IH. split; auto. exists nbs. auto.
Qed.

(** *** The recursion budget and the indices *)

Lemma visit_all_proper (visit : list nat -> nat -> walk) nbs :
  (forall order nb, In nb nbs -> proper (visit order nb)) ->
  forall order, proper (visit_all visit nbs order).
Proof.
  induction nbs as [|nb rest IH]; intros Hv order; simpl; auto.
  pose proof (Hv order nb (or_introl eq_refl)) as H.
  destruct (visit order nb); auto.
  apply IH. intros o b Hb. apply Hv. now right.
Qed.

Lemma stack_short (stack : list nat) n :
  NoDup stack -> (forall s, In s stack -> s < List.length g) ->
  ~ In n stack -> n < List.length g ->
  S (List.length stack) <= List.length g.
Proof.
  intros Hnd Hr Hn Hlt.
  assert (H : incl (n :: stack) (seq 0 (List.length g))).
  { intros x [<-|Hx]; apply in_seq; split; try lia; simpl; auto. }
  apply NoDup_incl_length in H; [|now constructor].
  simpl in H. now rewrite length_seq in H.
Qed.

Lemma df_proper fuel : bounds -> forall stack order n,
  n < List.length g -> NoDup stack ->
  (forall s, In s stack -> s < List.length g) ->
  List.length g <= fuel + List.length stack ->
  proper (df fuel g stack order n).
Proof.
  intros Hb. induction fuel as [|f IH]; intros stack order n Hn Hnd Hr Hf;
    simpl; destruct (mem n stack) eqn:Hs; simpl; auto;
    destruct (mem n order) eqn:Ho; simpl; auto;
    apply mem_not_In in Hs;
    pose proof (stack_short Hnd Hr Hs Hn) as Hshort; [lia|].
  destruct (nth_error g n) as [nbs|] eqn:Hnth.
  2:{ apply nth_error_None in Hnth. lia. }
  assert (Hp : proper (visit_all (df f g (n :: stack)) nbs order)).
  { apply visit_all_proper. intros o nb Hnb. apply IH.
    - apply (Hb n nb). exists nbs. auto.
    - now constructor.
    - intros s [<-|H]; auto.
    - simpl. lia. }
  destruct (visit_all (df f g (n :: stack)) nbs order); auto.
Qed.

(** *** The outer loop *)

Lemma topo_loop_incl nodes : forall order order',
  topo order -> NoDup order ->
  topo_loop g nodes order = Done order' -> incl order order'.
Proof.
  induction nodes as [|n rest IH]; intros order order' Ht Hnd H; simpl in H.
  - injection H as <-. apply incl_refl.
  - destruct (mem n order); [eapply IH; eauto|].
    destruct (df (List.length g) g [] order n) as [o1| | |] eqn:E;
      try discriminate.
    destruct (df_done _ _ _ Ht Hnd E) as (new & -> & Ht1 & Hnd1 & _).
    intros x Hx. eapply IH; eauto. apply in_or_app. now right.
Qed.

Lemma topo_loop_done nodes : forall order order',
  topo order -> NoDup order -> (forall x, In x order -> x < List.length g) ->
  topo_loop g nodes order = Done order' ->
  topo order' /\ NoDup order' /\
  (forall x, In x order' -> x < List.length g) /\
  (forall x, In x nodes -> In x order').
Proof.
  induction nodes as [|n rest IH]; intros order order' Ht Hnd Hr H.
  - simpl in H. injection H as <-.
    split; [exact Ht|]. split; [exact Hnd|]. split; [exact Hr|]. intros x [].
  - pose proof H as H'. simpl in H. destruct (mem n order) eqn:Ho.
    + destruct (IH _ _ Ht Hnd Hr H) as (Ht' & Hnd' & Hr' & Hin').
      split; [exact Ht'|]. split; [exact Hnd'|]. split; [exact Hr'|].
      intros x [<-|Hx]; [|now apply Hin'].
      apply mem_In in Ho. exact (@topo_loop_incl rest _ _ Ht Hnd H n Ho).
    + destruct (df (List.length g) g [] order n) as [o1| | |] eqn:E;
        try discriminate.
      destruct (df_done _ _ _ Ht Hnd E) as (new & -> & Ht1 & Hnd1 & Hnew & Hin).
      assert (Hr1 : forall x, In x (new ++ order) -> x < List.length g).
      { intros x Hx. apply in_app_or in Hx as [Hx|Hx]; auto.
        now apply Hnew. }
      destruct (IH _ _ Ht1 Hnd1 Hr1 H) as (Ht' & Hnd' & Hr' & Hin').
      split; [exact Ht'|]. split; [exact Hnd'|]. split; [exact Hr'|].
      intros x [<-|Hx]; auto.
      apply (@topo_loop_incl rest _ _ Ht1 Hnd1 H). apply Hin. now left.
Qed.

Lemma topo_loop_cycle nodes : forall order,
  topo_loop g nodes order = Cycle -> cyclic.
Proof.
  induction nodes as [|n rest IH]; intros order H; simpl in H; [discriminate|].
  destruct (mem n order); [now apply IH with order|].
  destruct (df (List.length g) g [] order n) as [o1| | |] eqn:E;
    try discriminate.
  - now apply IH with o1.
  - eapply df_cycle; eauto. exact I.
Qed.

Lemma topo_loop_proper nodes : bounds ->
  (forall x, In x nodes -> x < List.length g) ->
  forall order, proper (topo_loop g nodes order).
Proof.
  intros Hb. induction nodes as [|n rest IH]; intros Hr order; simpl; auto.
  assert (Hrest : forall x, In x rest -> x < List.length g)
    by (intros x Hx; apply Hr; now right).
  destruct (mem n order); [now apply IH|].
  assert (Hp : proper (df (List.length g) g [] order n)).
  { apply df_proper; auto.
    - apply Hr. now left.
    - constructor.
    - intros s [].
    - simpl. lia. }
  destruct (df (List.length g) g [] order n); auto.
Qed.

End Topo.

Lemma path_source g u v : path g u v -> u < List.length g.
Proof.
  intros H. assert (exists w, arc g u w) as (w & nbs & Hn & _)
    by (destruct H; eauto).
  apply nth_error_Some. congruence.
Qed.

(** C7.  On a graph whose arcs lead to nodes of the graph, [Topological]
    neither faults nor runs out of budget.  If there is a cycle the walk
    ends on detecting it and the empty ordering is returned; if there is
    none, the ordering returned holds every node once and, for every arc
    (u,v), u comes strictly before v. *)
Theorem Topological_correct (g : list (list nat)) :
  bounds g ->
  (cyclic g ->
     topo_loop g (seq 0 (List.length g)) [] = Cycle /\
     Topological g = Returns []) /\
  (~ cyclic g ->
     exists order,
       topo_loop g (seq 0 (List.length g)) [] = Done order /\
       Topological g = Returns order /\
       Permutation order (seq 0 (List.length g)) /\
       forall u v, arc g u v ->
         exists l1 l2 l3, order = l1 ++ u :: l2 ++ v :: l3).
Proof.
  intros Hb. unfold Topological.
  assert (Hp : proper (topo_loop g (seq 0 (List.length g)) [])).
  { apply topo_loop_proper; auto. intros x Hx. apply in_seq in Hx. lia. }
  destruct (topo_loop g (seq 0 (List.length g)) []) as [order| | |] eqn:E;
    try contradiction.
  - assert (Ht0 : topo g []) by (intros [|? ?] ? ? H; discriminate).
    destruct (@topo_loop_done g _ _ _ Ht0 (NoDup_nil _)
                (fun x (H : In x []) => match H with end) E)
      as (Ht & Hnd & Hr & Hin).
    assert (Hall : forall x, x < List.length g -> In x order).
    { intros x Hx. apply Hin. apply in_seq. lia. }
    split.
    + intros (u & Hu). exfalso.
      apply (topo_no_cycle Ht Hnd (Hall u (path_source Hu)) Hu).
    + intros _. exists order.
      split; [reflexivity|]. split; [reflexivity|]. split.
      * apply NoDup_Permutation; auto using seq_NoDup.
        intros x. rewrite in_seq. split; [intros Hx; apply Hr in Hx; lia|].
        intros Hx. apply Hall. lia.
      * intros u v Huv.
        assert (Hu : In u order) by (apply Hall, (path_source (path_one Huv))).
        apply in_split in Hu as (l1 & l2' & ->).
        pose proof (Ht _ _ _ eq_refl _ Huv) as Hv.
        apply in_split in Hv as (l2 & l3 & ->).
        exists l1, l2, l3. reflexivity.
  - split; [intros _; split; reflexivity|]. intros Hn. exfalso. apply Hn.
    eapply topo_loop_cycle; eauto.
Qed.

(** Bounds of a literal graph, by enumeration of its slots. *)
Ltac literal_arcs :=
  let u := fresh "u" in
  let v := fresh "v" in
  let nbs := fresh "nbs" in
  let Hn := fresh "Hn" in
  let Hv := fresh "Hv" in
  intros u v (nbs & Hn & Hv);
  repeat (destruct u as [|u]; simpl in Hn;
          [injection Hn as <-; simpl in Hv; simpl; intuition lia|]);
  destruct u; simpl in Hn; discriminate.

Lemma Topological_correct_witness :
  let dag := [[]; [2]; []; [1; 2]; [3; 2]] in
  let looped := [[]; [2]; [3]; [1; 2]; [3; 2]] in
  (exists order,
     topo_loop dag (seq 0 (List.length dag)) [] = Done order /\
     Topological dag = Returns order /\
     Permutation order (seq 0 (List.length dag)) /\
     forall u v, arc dag u v ->
       exists l1 l2 l3, order = l1 ++ u :: l2 ++ v :: l3) /\
  (topo_loop looped (seq 0 (List.length looped)) [] = Cycle /\
   Topological looped = Returns []).
Proof.
  intros dag looped. split.
  - assert (Hb : bounds dag) by literal_arcs.
    apply (proj2 (@Topological_correct dag Hb)).
    intros (u & Hu).
    assert (E : topo_loop dag (seq 0 (List.length dag)) [] = Done [4; 3; 1; 2; 0])
      by reflexivity.
    assert (Ht0 : topo dag []) by (intros [|? ?] ? ? H; discriminate).
    destruct (@topo_loop_done dag _ _ _ Ht0 (NoDup_nil _)
                (fun x (H : In x []) => match H with end) E)
      as (Ht & Hnd & _ & Hin).
    refine (topo_no_cycle Ht Hnd _ Hu).
    apply Hin. apply in_seq. pose proof (path_source Hu). simpl in *. lia.
  - assert (Hb : bounds looped) by literal_arcs.
    apply (proj1 (@Topological_correct looped Hb)).
    exists 2. apply path_cons with 3.
    + exists [3]. split; [reflexivity | now left].
    + apply path_one. exists [1; 2]. split; [reflexivity|]. right. now left.
Defined.

End Connectivity.
